(** * Voice chat mesh session manager (AudioService)

    A shallow embedding of the client-side [AudioService] class
    (socket.io signalling, one [RTCPeerConnection] per remote user,
    microphone capture and voice-activity detection), followed by the
    properties of it that the design document states.

    Conventions of the embedding.
    - A JavaScript string is a [string]; the identifiers that occur here
      (socket.io connection ids, user ids, discussion ids) consist of code
      units below 256, for which the code-unit order of [<] on JavaScript
      strings is the byte order used by [js_string_lt].
    - [Map<string, AudioUser>] is a [gmap string AudioUser]. The plain
      object [peerConnections] is the [gmap] of its own properties; a read
      [this.peerConnections[name]] also sees the members inherited from
      [Object.prototype] ([get_peerConnection]), and [Object.keys] lists
      the own properties in the order of the language ([Object_keys]).
    - The peer connections, media tracks and interval timers themselves
      live in heaps (lists indexed by their handle), so that the sharing of
      one captured track between the local stream and the senders of every
      link is visible. Handles are given out in the order of creation.
    - Every method and every event handler runs as one step of a
      single-threaded event loop and is a function on [World]; what the
      platform answers (the result of [getUserMedia], the frame an analyser
      delivers, whether the audio graph could be built) is an argument.
    - Everything the service does to the outside is appended to [trace].
    - JavaScript numbers are IEEE binary64 floats ([PrimFloat]).
      [Math.log10] is implementation-approximated in ECMAScript, so it is a
      parameter of the voice-activity definitions. *)

From Stdlib Require Import ZArith Ascii String PrimFloat Uint63 FloatAxioms.
From stdpp Require Import gmap strings list sorting.

Local Open Scope string_scope.
Local Set Warnings "-clear-no-such-hyp".

(** ** JavaScript strings *)

(** [px < py] on two strings (ECMAScript IsLessThan): false when [py] is a
    prefix of [px], true when [px] is a proper prefix of [py], otherwise
    decided by the first code unit at which they differ. *)
Fixpoint js_string_lt (px py : string) : bool :=
  match px, py with
  | _, EmptyString => false
  | EmptyString, String _ _ => true
  | String a px', String b py' =>
      if N.ltb (N_of_ascii a) (N_of_ascii b) then true
      else if N.ltb (N_of_ascii b) (N_of_ascii a) then false
      else js_string_lt px' py'
  end.

(** Truthiness of a [string | null | undefined] value: [null], [undefined]
    and the empty string are falsy. *)
Definition truthy (v : option string) : bool :=
  match v with
  | Some EmptyString => false
  | Some (String _ _) => true
  | None => false
  end.

(** ** Property names of plain objects *)

(** The properties every plain object inherits from [Object.prototype]. *)
Definition Object_prototype_names : list string :=
  ["constructor"; "hasOwnProperty"; "isPrototypeOf"; "propertyIsEnumerable";
   "toLocaleString"; "toString"; "valueOf"; "__proto__";
   "__defineGetter__"; "__defineSetter__"; "__lookupGetter__";
   "__lookupSetter__"].

Definition in_Object_prototype (name : string) : bool :=
  existsb (String.eqb name) Object_prototype_names.

(** The value of a decimal digit. *)
Definition digit_of (c : ascii) : option N :=
  let n := N_of_ascii c in
  if (48 <=? n)%N && (n <=? 57)%N then Some (n - 48)%N else None.

Fixpoint decimal_value (s : string) (acc : N) : option N :=
  match s with
  | EmptyString => Some acc
  | String c s' =>
      match digit_of c with
      | Some d => decimal_value s' (10 * acc + d)%N
      | None => None
      end
  end.

(** A property name is an array index when it is the canonical decimal
    form (no sign, no leading zero) of an integer below [2^32 - 1]. *)
Definition array_index (name : string) : option N :=
  match name with
  | EmptyString => None
  | String c rest =>
      if Ascii.eqb c "0" && negb (String.eqb rest EmptyString) then None
      else
        match decimal_value name 0 with
        | Some n => if (n <? 4294967295)%N then Some n else None
        | None => None
        end
  end.

(** ** Data model *)

(** The socket.io client socket; [id] is [undefined] until connected. *)
Record Socket := mkSocket { id : option string }.

(** [this.socket?.id] *)
Definition socket_id (sock : option Socket) : option string :=
  match sock with
  | Some so => id so
  | None => None
  end.

Record MediaStreamTrack := mkTrack {
  track_audio : bool;      (* kind === 'audio' *)
  enabled : bool;
  track_stopped : bool     (* readyState === 'ended' *)
}.

(** A [MediaStream] is the list of the handles of its tracks. *)
Definition MediaStream := list nat.

Inductive SignalingState := Stable | HaveLocalOffer | HaveRemoteOffer | Closed.

Record RTCPeerConnection := mkPc {
  pc_remote : string;              (* the userId its handlers close over *)
  pc_senders : list nat;           (* tracks given to addTrack *)
  pc_signaling : SignalingState
}.

Record AudioUser := mkAudioUser {
  userId : string;
  username : string;
  stream : option MediaStream;
  audioTrack : option nat;
  isSpeaking : bool
}.

Record AnalyserNode := mkAnalyser {
  fftSize : Z;
  smoothingTimeConstant : float
}.

(** The closure of one [setInterval] callback of the detector. *)
Record Interval := mkInterval {
  active : bool;                   (* not yet cleared *)
  period : Z;                      (* milliseconds *)
  lastSpeakingState : bool
}.

(** Messages the client sends over the signalling channel. *)
Inductive ClientMsg :=
| JoinDiscussionMsg (discussionId : string)
| LeaveDiscussionMsg (discussionId : string)
| OfferMsg (to : string)
| AnswerMsg (to : string)
| IceCandidateMsg (to : string)
| SpeakingMsg (discussionId : string) (isSpeaking : bool).

(** What the service does to its environment. *)
Inductive Effect :=
| SocketEmit (m : ClientMsg)
| SocketDisconnect
| PcClose (pc : nat)
| TrackStop (t : nat)
| AudioContextClose
| GetUserMedia
| GetByteFrequencyData
| SetInterval (handle : nat) (ms : Z)
| ClearInterval (handle : nat)
| CallOnConnected
| CallOnUserJoined (userId : string)
| CallOnUserLeft (userId : string)
| CallOnSpeakingChange (userId : string) (isSpeaking : bool)
| CallOnError (message : string).

Global Instance ClientMsg_eq_dec : EqDecision ClientMsg.
Proof. solve_decision. Defined.

Global Instance Effect_eq_dec : EqDecision Effect.
Proof. solve_decision. Defined.

(** The fields of the [AudioService] instance, then the platform objects
    it refers to and the trace of its effects. A callback field holds
    whether a callback is registered. *)
Record World := mkWorld {
  socket : option Socket;
  localStream : option MediaStream;
  peerConnections : gmap string nat;
  connected : bool;
  discussionId : option string;
  audioContext : bool;                       (* non-null *)
  audioAnalyser : option AnalyserNode;
  users : gmap string AudioUser;
  onSpeakingChangeCallback : bool;
  onUserJoinedCallback : bool;
  onUserLeftCallback : bool;
  onConnectedCallback : bool;
  onErrorCallback : bool;
  isMuted : bool;
  microphoneAccessGranted : bool;
  voiceActivityDetectionInterval : option nat;
  listeners : option (string * string);      (* userId, username closed over by the handlers *)
  tracks : list MediaStreamTrack;
  pcs : list RTCPeerConnection;
  intervals : list Interval;
  trace : list Effect
}.

(** [speakingThreshold]: dB threshold for speaking detection. *)
Definition speakingThreshold : float := (-50)%float.

(** The state of a freshly constructed [AudioService]. *)
Definition new_AudioService : World :=
  {| socket := None; localStream := None; peerConnections := ∅;
     connected := false; discussionId := None; audioContext := false;
     audioAnalyser := None; users := ∅;
     onSpeakingChangeCallback := false; onUserJoinedCallback := false;
     onUserLeftCallback := false; onConnectedCallback := false;
     onErrorCallback := false; isMuted := false;
     microphoneAccessGranted := false;
     voiceActivityDetectionInterval := None; listeners := None;
     tracks := []; pcs := []; intervals := []; trace := [] |}.

(** ** Field assignment

    [set_f v w] is the world after [this.f = v] (or after the platform
    object [f] was replaced by [v]); every other field is kept. *)

Definition set_socket (v : option Socket) (w : World) : World :=
  mkWorld v (localStream w) (peerConnections w) (connected w)
    (discussionId w) (audioContext w) (audioAnalyser w) (users w)
    (onSpeakingChangeCallback w) (onUserJoinedCallback w)
    (onUserLeftCallback w) (onConnectedCallback w) (onErrorCallback w)
    (isMuted w) (microphoneAccessGranted w)
    (voiceActivityDetectionInterval w) (listeners w) (tracks w) (pcs w)
    (intervals w) (trace w).

Definition set_localStream (v : option MediaStream) (w : World) : World :=
  mkWorld (socket w) v (peerConnections w) (connected w) (discussionId w)
    (audioContext w) (audioAnalyser w) (users w)
    (onSpeakingChangeCallback w) (onUserJoinedCallback w)
    (onUserLeftCallback w) (onConnectedCallback w) (onErrorCallback w)
    (isMuted w) (microphoneAccessGranted w)
    (voiceActivityDetectionInterval w) (listeners w) (tracks w) (pcs w)
    (intervals w) (trace w).

Definition set_peerConnections (v : gmap string nat) (w : World) : World :=
  mkWorld (socket w) (localStream w) v (connected w) (discussionId w)
    (audioContext w) (audioAnalyser w) (users w)
    (onSpeakingChangeCallback w) (onUserJoinedCallback w)
    (onUserLeftCallback w) (onConnectedCallback w) (onErrorCallback w)
    (isMuted w) (microphoneAccessGranted w)
    (voiceActivityDetectionInterval w) (listeners w) (tracks w) (pcs w)
    (intervals w) (trace w).

Definition set_connected (v : bool) (w : World) : World :=
  mkWorld (socket w) (localStream w) (peerConnections w) v (discussionId w)
    (audioContext w) (audioAnalyser w) (users w)
    (onSpeakingChangeCallback w) (onUserJoinedCallback w)
    (onUserLeftCallback w) (onConnectedCallback w) (onErrorCallback w)
    (isMuted w) (microphoneAccessGranted w)
    (voiceActivityDetectionInterval w) (listeners w) (tracks w) (pcs w)
    (intervals w) (trace w).

Definition set_discussionId (v : option string) (w : World) : World :=
  mkWorld (socket w) (localStream w) (peerConnections w) (connected w) v
    (audioContext w) (audioAnalyser w) (users w)
    (onSpeakingChangeCallback w) (onUserJoinedCallback w)
    (onUserLeftCallback w) (onConnectedCallback w) (onErrorCallback w)
    (isMuted w) (microphoneAccessGranted w)
    (voiceActivityDetectionInterval w) (listeners w) (tracks w) (pcs w)
    (intervals w) (trace w).

Definition set_audioContext (v : bool) (w : World) : World :=
  mkWorld (socket w) (localStream w) (peerConnections w) (connected w)
    (discussionId w) v (audioAnalyser w) (users w)
    (onSpeakingChangeCallback w) (onUserJoinedCallback w)
    (onUserLeftCallback w) (onConnectedCallback w) (onErrorCallback w)
    (isMuted w) (microphoneAccessGranted w)
    (voiceActivityDetectionInterval w) (listeners w) (tracks w) (pcs w)
    (intervals w) (trace w).

Definition set_audioAnalyser (v : option AnalyserNode) (w : World) : World :=
  mkWorld (socket w) (localStream w) (peerConnections w) (connected w)
    (discussionId w) (audioContext w) v (users w)
    (onSpeakingChangeCallback w) (onUserJoinedCallback w)
    (onUserLeftCallback w) (onConnectedCallback w) (onErrorCallback w)
    (isMuted w) (microphoneAccessGranted w)
    (voiceActivityDetectionInterval w) (listeners w) (tracks w) (pcs w)
    (intervals w) (trace w).

Definition set_users (v : gmap string AudioUser) (w : World) : World :=
  mkWorld (socket w) (localStream w) (peerConnections w) (connected w)
    (discussionId w) (audioContext w) (audioAnalyser w) v
    (onSpeakingChangeCallback w) (onUserJoinedCallback w)
    (onUserLeftCallback w) (onConnectedCallback w) (onErrorCallback w)
    (isMuted w) (microphoneAccessGranted w)
    (voiceActivityDetectionInterval w) (listeners w) (tracks w) (pcs w)
    (intervals w) (trace w).

Definition set_onSpeakingChangeCallback (v : bool) (w : World) : World :=
  mkWorld (socket w) (localStream w) (peerConnections w) (connected w)
    (discussionId w) (audioContext w) (audioAnalyser w) (users w) v
    (onUserJoinedCallback w) (onUserLeftCallback w) (onConnectedCallback w)
    (onErrorCallback w) (isMuted w) (microphoneAccessGranted w)
    (voiceActivityDetectionInterval w) (listeners w) (tracks w) (pcs w)
    (intervals w) (trace w).

Definition set_onUserJoinedCallback (v : bool) (w : World) : World :=
  mkWorld (socket w) (localStream w) (peerConnections w) (connected w)
    (discussionId w) (audioContext w) (audioAnalyser w) (users w)
    (onSpeakingChangeCallback w) v (onUserLeftCallback w)
    (onConnectedCallback w) (onErrorCallback w) (isMuted w)
    (microphoneAccessGranted w) (voiceActivityDetectionInterval w)
    (listeners w) (tracks w) (pcs w) (intervals w) (trace w).

Definition set_onUserLeftCallback (v : bool) (w : World) : World :=
  mkWorld (socket w) (localStream w) (peerConnections w) (connected w)
    (discussionId w) (audioContext w) (audioAnalyser w) (users w)
    (onSpeakingChangeCallback w) (onUserJoinedCallback w) v
    (onConnectedCallback w) (onErrorCallback w) (isMuted w)
    (microphoneAccessGranted w) (voiceActivityDetectionInterval w)
    (listeners w) (tracks w) (pcs w) (intervals w) (trace w).

Definition set_onConnectedCallback (v : bool) (w : World) : World :=
  mkWorld (socket w) (localStream w) (peerConnections w) (connected w)
    (discussionId w) (audioContext w) (audioAnalyser w) (users w)
    (onSpeakingChangeCallback w) (onUserJoinedCallback w)
    (onUserLeftCallback w) v (onErrorCallback w) (isMuted w)
    (microphoneAccessGranted w) (voiceActivityDetectionInterval w)
    (listeners w) (tracks w) (pcs w) (intervals w) (trace w).

Definition set_onErrorCallback (v : bool) (w : World) : World :=
  mkWorld (socket w) (localStream w) (peerConnections w) (connected w)
    (discussionId w) (audioContext w) (audioAnalyser w) (users w)
    (onSpeakingChangeCallback w) (onUserJoinedCallback w)
    (onUserLeftCallback w) (onConnectedCallback w) v (isMuted w)
    (microphoneAccessGranted w) (voiceActivityDetectionInterval w)
    (listeners w) (tracks w) (pcs w) (intervals w) (trace w).

Definition set_isMuted (v : bool) (w : World) : World :=
  mkWorld (socket w) (localStream w) (peerConnections w) (connected w)
    (discussionId w) (audioContext w) (audioAnalyser w) (users w)
    (onSpeakingChangeCallback w) (onUserJoinedCallback w)
    (onUserLeftCallback w) (onConnectedCallback w) (onErrorCallback w) v
    (microphoneAccessGranted w) (voiceActivityDetectionInterval w)
    (listeners w) (tracks w) (pcs w) (intervals w) (trace w).

Definition set_microphoneAccessGranted (v : bool) (w : World) : World :=
  mkWorld (socket w) (localStream w) (peerConnections w) (connected w)
    (discussionId w) (audioContext w) (audioAnalyser w) (users w)
    (onSpeakingChangeCallback w) (onUserJoinedCallback w)
    (onUserLeftCallback w) (onConnectedCallback w) (onErrorCallback w)
    (isMuted w) v (voiceActivityDetectionInterval w) (listeners w)
    (tracks w) (pcs w) (intervals w) (trace w).

Definition set_voiceActivityDetectionInterval (v : option nat) (w : World) : World :=
  mkWorld (socket w) (localStream w) (peerConnections w) (connected w)
    (discussionId w) (audioContext w) (audioAnalyser w) (users w)
    (onSpeakingChangeCallback w) (onUserJoinedCallback w)
    (onUserLeftCallback w) (onConnectedCallback w) (onErrorCallback w)
    (isMuted w) (microphoneAccessGranted w) v (listeners w) (tracks w)
    (pcs w) (intervals w) (trace w).

Definition set_listeners (v : option (string * string)) (w : World) : World :=
  mkWorld (socket w) (localStream w) (peerConnections w) (connected w)
    (discussionId w) (audioContext w) (audioAnalyser w) (users w)
    (onSpeakingChangeCallback w) (onUserJoinedCallback w)
    (onUserLeftCallback w) (onConnectedCallback w) (onErrorCallback w)
    (isMuted w) (microphoneAccessGranted w)
    (voiceActivityDetectionInterval w) v (tracks w) (pcs w) (intervals w)
    (trace w).

Definition set_tracks (v : list MediaStreamTrack) (w : World) : World :=
  mkWorld (socket w) (localStream w) (peerConnections w) (connected w)
    (discussionId w) (audioContext w) (audioAnalyser w) (users w)
    (onSpeakingChangeCallback w) (onUserJoinedCallback w)
    (onUserLeftCallback w) (onConnectedCallback w) (onErrorCallback w)
    (isMuted w) (microphoneAccessGranted w)
    (voiceActivityDetectionInterval w) (listeners w) v (pcs w) (intervals w)
    (trace w).

Definition set_pcs (v : list RTCPeerConnection) (w : World) : World :=
  mkWorld (socket w) (localStream w) (peerConnections w) (connected w)
    (discussionId w) (audioContext w) (audioAnalyser w) (users w)
    (onSpeakingChangeCallback w) (onUserJoinedCallback w)
    (onUserLeftCallback w) (onConnectedCallback w) (onErrorCallback w)
    (isMuted w) (microphoneAccessGranted w)
    (voiceActivityDetectionInterval w) (listeners w) (tracks w) v
    (intervals w) (trace w).

Definition set_intervals (v : list Interval) (w : World) : World :=
  mkWorld (socket w) (localStream w) (peerConnections w) (connected w)
    (discussionId w) (audioContext w) (audioAnalyser w) (users w)
    (onSpeakingChangeCallback w) (onUserJoinedCallback w)
    (onUserLeftCallback w) (onConnectedCallback w) (onErrorCallback w)
    (isMuted w) (microphoneAccessGranted w)
    (voiceActivityDetectionInterval w) (listeners w) (tracks w) (pcs w) v
    (trace w).

Definition set_trace (v : list Effect) (w : World) : World :=
  mkWorld (socket w) (localStream w) (peerConnections w) (connected w)
    (discussionId w) (audioContext w) (audioAnalyser w) (users w)
    (onSpeakingChangeCallback w) (onUserJoinedCallback w)
    (onUserLeftCallback w) (onConnectedCallback w) (onErrorCallback w)
    (isMuted w) (microphoneAccessGranted w)
    (voiceActivityDetectionInterval w) (listeners w) (tracks w) (pcs w)
    (intervals w) v.

(** ** Platform primitives *)

(** Record one effect. *)
Definition emit (e : Effect) (w : World) : World :=
  set_trace (trace w ++ [e]) w.

(** [this.socket?.emit(...)]: nothing is sent without a socket. *)
Definition socket_emit (m : ClientMsg) (w : World) : World :=
  match socket w with
  | Some _ => emit (SocketEmit m) w
  | None => w
  end.

(** [stream.getAudioTracks()] *)
Definition getAudioTracks (w : World) (st : MediaStream) : list nat :=
  filter (λ t, (track_audio <$> tracks w !! t) = Some true) st.

Definition close_pc (pc : RTCPeerConnection) : RTCPeerConnection :=
  mkPc (pc_remote pc) (pc_senders pc) Closed.

Definition set_signaling (st : SignalingState) (pc : RTCPeerConnection)
  : RTCPeerConnection :=
  mkPc (pc_remote pc) (pc_senders pc) st.

Definition stop_track (t : MediaStreamTrack) : MediaStreamTrack :=
  mkTrack (track_audio t) (enabled t) true.

Definition set_enabled (b : bool) (t : MediaStreamTrack) : MediaStreamTrack :=
  mkTrack (track_audio t) b (track_stopped t).

Definition clear_interval (i : Interval) : Interval :=
  mkInterval false (period i) (lastSpeakingState i).

Definition set_lastSpeakingState (b : bool) (i : Interval) : Interval :=
  mkInterval (active i) (period i) b.

(** [user.isSpeaking = b] *)
Definition set_isSpeaking (b : bool) (u : AudioUser) : AudioUser :=
  mkAudioUser (userId u) (username u) (stream u) (audioTrack u) b.

(** [user.stream = st; user.audioTrack = tr] *)
Definition set_stream (st : MediaStream) (tr : option nat) (u : AudioUser)
  : AudioUser :=
  mkAudioUser (userId u) (username u) (Some st) tr (isSpeaking u).

(** [track.stop()] *)
Definition track_stop (t : nat) (w : World) : World :=
  emit (TrackStop t) (set_tracks (alter stop_track t (tracks w)) w).

(** [track.enabled = b] *)
Definition track_set_enabled (b : bool) (t : nat) (w : World) : World :=
  set_tracks (alter (set_enabled b) t (tracks w)) w.

(** [clearInterval(h)] *)
Definition clearInterval (h : nat) (w : World) : World :=
  emit (ClearInterval h) (set_intervals (alter clear_interval h (intervals w)) w).

(** ** Peer links *)

(** How a call ends: with a value, or with an exception (for an [async]
    method, a rejected promise). *)
Inductive Completion (A : Type) :=
| Returned (a : A)
| Thrown (message : string).
Arguments Returned {A} a.
Arguments Thrown {A} message.

(** What a read [this.peerConnections[name]] finds: a stored connection,
    a member inherited from [Object.prototype] (a function or an object,
    truthy and not a connection), or [undefined]. *)
Inductive Property :=
| Own (pc : nat)
| Inherited
| Undefined.

Definition get_peerConnection (name : string) (w : World) : Property :=
  match peerConnections w !! name with
  | Some pc => Own pc
  | None => if in_Object_prototype name then Inherited else Undefined
  end.

(** The order of the own properties of [peerConnections]: array indices
    first, by their value, then the other names in the order in which the
    properties were created. A property is created at the assignment of
    [createPeerConnection], for a name that has no own property then
    ([cleanupPeerConnection] has just deleted it) and right after its
    connection was made; so the properties were created in the order of the
    handles of their connections. *)
Definition key_before (x y : string * nat) : bool :=
  match array_index x.1, array_index y.1 with
  | Some i, Some j => (i <=? j)%N
  | Some _, None => true
  | None, Some _ => false
  | None, None => Nat.leb x.2 y.2
  end.

Definition key_order (x y : string * nat) : Prop := key_before x y = true.

Global Instance key_order_dec x y : Decision (key_order x y).
Proof. unfold key_order. apply _. Defined.

Definition own_entries (obj : gmap string nat) : list (string * nat) :=
  merge_sort key_order (map_to_list obj).

(** [Object.keys(obj)], and the values in the same order. *)
Definition Object_keys (obj : gmap string nat) : list string :=
  (own_entries obj).*1.
Definition Object_values (obj : gmap string nat) : list nat :=
  (own_entries obj).*2.

(** [cleanupPeerConnection(userId)]. An inherited member is truthy and has
    no [close]: the call of [pc.close()] throws a [TypeError]. *)
Definition cleanupPeerConnection (userId : string) (w : World)
  : Completion unit * World :=
  match get_peerConnection userId w with
  | Own pc =>
      let w := emit (PcClose pc) (set_pcs (alter close_pc pc (pcs w)) w) in
      (Returned tt, set_peerConnections (delete userId (peerConnections w)) w)
  | Inherited => (Thrown "pc.close is not a function", w)
  | Undefined => (Returned tt, w)
  end.

(** [cleanupPeerConnections()]: over a snapshot of the own keys, for each
    of which [cleanupPeerConnection] returns (it finds an own property,
    see [cleanupPeerConnections_returns]). *)
Definition cleanupPeerConnections (w : World) : World :=
  foldl (λ w userId, (cleanupPeerConnection userId w).2) w
        (Object_keys (peerConnections w)).

(** The test of [createPeerConnection] that makes this side send the
    offer: [this.socket?.id && this.socket.id < userId]. *)
Definition is_initiator (sock : option Socket) (userId : string) : bool :=
  match socket_id sock with
  | Some sid => truthy (Some sid) && js_string_lt sid userId
  | None => false
  end.

(** [createPeerConnection(userId)]. When the clean-up throws, nothing
    else happens. Otherwise the new connection gets the local audio tracks
    unless there is no local stream or the service is muted; it is stored
    under [userId]; the offer is created and sent when this side is the
    initiator. *)
Definition createPeerConnection (userId : string) (w : World)
  : Completion unit * World :=
  let cleaned := cleanupPeerConnection userId w in
  match cleaned.1 with
  | Thrown message => (Thrown message, cleaned.2)
  | Returned _ =>
      let w := cleaned.2 in
      let senders :=
        match localStream w with
        | Some st => if isMuted w then [] else getAudioTracks w st
        | None => []
        end in
      let pc := length (pcs w) in
      let w := set_pcs (pcs w ++ [mkPc userId senders Stable]) w in
      let w := set_peerConnections (<[userId := pc]> (peerConnections w)) w in
      if is_initiator (socket w) userId then
        let w := set_pcs (alter (set_signaling HaveLocalOffer) pc (pcs w)) w in
        (Returned tt, socket_emit (OfferMsg userId) w)
      else (Returned tt, w)
  end.

(** [cleanupLocalStream()] *)
Definition cleanupLocalStream (w : World) : World :=
  let w :=
    match localStream w with
    | Some st => set_localStream None (foldl (λ w t, track_stop t w) w st)
    | None => w
    end in
  if audioContext w then
    set_audioAnalyser None (set_audioContext false (emit AudioContextClose w))
  else w.

(** ** Audio graph and detector start/stop *)

(** How far [setupAudioContext] gets before something throws; the
    exception is caught and logged inside it. *)
Inductive AudioGraph :=
| GraphBuilt          (* nothing throws *)
| ContextFailed       (* the AudioContext constructor throws *)
| SourceFailed.       (* createMediaStreamSource or createAnalyser throws *)

(** [setupAudioContext(stream)] *)
Definition setupAudioContext (g : AudioGraph) (w : World) : World :=
  match g with
  | ContextFailed => w
  | SourceFailed => set_audioContext true w
  | GraphBuilt =>
      set_audioAnalyser (Some (mkAnalyser 512 0x1.999999999999ap-2%float))
        (set_audioContext true w)
  end.

(** [startVoiceActivityDetection()]: without an analyser nothing happens;
    otherwise a new interval with [lastSpeakingState = false] is started
    and its handle stored. *)
Definition startVoiceActivityDetection (w : World) : World :=
  match audioAnalyser w with
  | None => w
  | Some _ =>
      let h := length (intervals w) in
      let w := set_intervals (intervals w ++ [mkInterval true 200 false]) w in
      let w := emit (SetInterval h 200) w in
      set_voiceActivityDetectionInterval (Some h) w
  end.

(** [stopVoiceActivityDetection()] *)
Definition stopVoiceActivityDetection (w : World) : World :=
  match voiceActivityDetectionInterval w with
  | Some h => set_voiceActivityDetectionInterval None (clearInterval h w)
  | None => w
  end.

(** ** Joining and leaving *)

(** The message of the error raised when the microphone is refused. *)
Definition microphone_error : string :=
  "Could not access microphone. Please check your permissions.".

(** The stream [getUserMedia] resolves with is put on the track heap. *)
Definition new_stream (ts : list MediaStreamTrack) (w : World)
  : MediaStream * World :=
  (seq (length (tracks w)) (length ts), set_tracks (tracks w ++ ts) w).

(** [joinDiscussion(discussionId)]. [gum] is what [getUserMedia] answers:
    the tracks of the captured stream, or [None] when it rejects;
    [g] is how far the audio graph gets. *)
Definition joinDiscussion (discussionId : string)
    (gum : option (list MediaStreamTrack)) (g : AudioGraph) (w : World)
  : Completion bool * World :=
  match socket w with
  | None => (Thrown "Audio service not connected", w)
  | Some _ =>
      if negb (connected w) then (Thrown "Audio service not connected", w)
      else
        let w := set_discussionId (Some discussionId) w in
        let w := emit GetUserMedia w in
        match gum with
        | Some ts =>
            let '(stream, w) := new_stream ts w in
            let w := set_microphoneAccessGranted true w in
            let w := setupAudioContext g w in
            let w := set_localStream (Some stream) w in
            let w := socket_emit (JoinDiscussionMsg discussionId) w in
            let w := startVoiceActivityDetection w in
            (Returned true, w)
        | None =>
            let w :=
              if onErrorCallback w then
                emit (CallOnError microphone_error) w
              else w in
            (Returned false, w)
        end
  end.

(** [leaveDiscussion()] *)
Definition leaveDiscussion (w : World) : World :=
  match socket w with
  | None => w
  | Some _ =>
      if negb (truthy (discussionId w)) then w
      else
        let w := stopVoiceActivityDetection w in
        let w :=
          match discussionId w with
          | Some d => socket_emit (LeaveDiscussionMsg d) w
          | None => w
          end in
        let w := cleanupPeerConnections w in
        let w := cleanupLocalStream w in
        set_discussionId None w
  end.

(** ** Mute *)

(** [toggleMute()] returns the new [isMuted]. *)
Definition toggleMute (w : World) : bool * World :=
  let w := set_isMuted (negb (isMuted w)) w in
  let w :=
    match localStream w with
    | Some st =>
        foldl (λ w t, track_set_enabled (negb (isMuted w)) t w) w
              (getAudioTracks w st)
    | None => w
    end in
  (isMuted w, w).

(** [setMute(muted)] *)
Definition setMute (muted : bool) (w : World) : bool * World :=
  if negb (Bool.eqb (isMuted w) muted) then toggleMute w
  else (isMuted w, w).

(** ** Voice activity detection *)

(** An element of the [Uint8Array] as a number. *)
Definition byte_to_float (b : Byte.byte) : float :=
  PrimFloat.of_uint63 (Uint63.of_Z (Z.of_N (Byte.to_N b))).

(** [dataArray.length] as a number. *)
Definition length_to_float (dataArray : list Byte.byte) : float :=
  PrimFloat.of_uint63 (Uint63.of_Z (Z.of_nat (length dataArray))).

(** The loop [for (i = 0; i < dataArray.length; i++) sum += dataArray[i]]
    from index [i] with the running [sum]; [n] bounds the remaining
    iterations. *)
Fixpoint sum_loop (n i : nat) (dataArray : list Byte.byte) (sum : float)
  : float :=
  match n with
  | O => sum
  | S n' =>
      match dataArray !! i with
      | Some b => sum_loop n' (S i) dataArray (sum + byte_to_float b)%float
      | None => sum
      end
  end.

Section VoiceActivity.

(** [Math.log10] of the engine. *)
Variable Math_log10 : float → float.

(** The body of the interval callback from "Calculate volume" to
    "Check if speaking", on the frame [getByteFrequencyData] wrote. *)
Definition computeSpeaking (dataArray : list Byte.byte) : bool :=
  let sum := sum_loop (length dataArray) 0 dataArray 0%float in
  let average := (sum / length_to_float dataArray)%float in
  let dB := (20 * Math_log10 (average / 255))%float in
  (speakingThreshold <? dB)%float.

(** One firing of the interval [h]; [frame] is what the analyser writes
    into [dataArray] if it is asked (with [fftSize = 512] these are 256
    bytes; the definition does not depend on their number). A cleared
    interval does not fire. *)
Definition tick (h : nat) (frame : list Byte.byte) (w : World) : World :=
  match intervals w !! h with
  | None => w
  | Some iv =>
      if negb (active iv) then w
      else
        match audioAnalyser w, socket w with
        | Some _, Some so =>
            if isMuted w then w
            else
              let w := emit GetByteFrequencyData w in
              let isSpeaking := computeSpeaking frame in
              if negb (Bool.eqb isSpeaking (lastSpeakingState iv)) then
                let w :=
                  set_intervals
                    (alter (set_lastSpeakingState isSpeaking) h (intervals w)) w in
                let w :=
                  if truthy (discussionId w) then
                    match discussionId w with
                    | Some d => emit (SocketEmit (SpeakingMsg d isSpeaking)) w
                    | None => w
                    end
                  else w in
                (* const userId = this.socket.id; users.get(undefined)
                   finds nothing *)
                match id so with
                | Some userId =>
                    match users w !! userId with
                    | Some _ =>
                        let w :=
                          set_users
                            (alter (set_isSpeaking isSpeaking) userId (users w))
                            w in
                        if onSpeakingChangeCallback w then
                          emit (CallOnSpeakingChange userId isSpeaking) w
                        else w
                    | None => w
                    end
                | None => w
                end
              else w
        | _, _ => w
        end
  end.

(** Successive firings of one interval, one frame each. *)
Definition ticks (h : nat) (frames : list (list Byte.byte)) (w : World)
  : World :=
  foldl (λ w frame, tick h frame w) w frames.

End VoiceActivity.

(** ** Socket lifecycle and event handlers *)

(** The ['disconnect'] listener; the socket loses its id. *)
Definition on_disconnect (w : World) : World :=
  let w := set_socket ((λ _, mkSocket None) <$> socket w) w in
  let w := set_connected false w in
  cleanupPeerConnections w.

(** [this.socket.disconnect()]: a connected socket fires its
    ['disconnect'] listener. *)
Definition socket_disconnect (w : World) : World :=
  let w := emit SocketDisconnect w in
  match socket_id (socket w) with
  | Some _ => on_disconnect w
  | None => w
  end.

(** [initialize(token, userId, username)] *)
Definition initialize (token userId username : string) (w : World) : World :=
  let w :=
    match socket w with
    | Some _ => socket_disconnect w
    | None => w
    end in
  let w := set_socket (Some (mkSocket None)) w in
  set_listeners (Some (userId, username)) w.

(** The ['connect'] listener; [sid] is the id the server gave the socket. *)
Definition on_connect (sid : string) (w : World) : World :=
  match socket w, listeners w with
  | Some _, Some (userId, username) =>
      let w := set_socket (Some (mkSocket (Some sid))) w in
      let w := set_connected true w in
      let w :=
        set_users (<[userId := mkAudioUser userId username None None false]>
                     (users w)) w in
      if onConnectedCallback w then emit CallOnConnected w else w
  | _, _ => w
  end.

(** A listener that throws, or whose promise rejects, stops where it is:
    the world stays as it was at that point. *)

(** The ['user-joined'] listener. *)
Definition on_user_joined (userId username : string) (w : World) : World :=
  let w :=
    set_users (<[userId := mkAudioUser userId username None None false]>
                 (users w)) w in
  let created := createPeerConnection userId w in
  match created.1 with
  | Thrown _ => created.2
  | Returned _ =>
      let w := created.2 in
      if onUserJoinedCallback w then emit (CallOnUserJoined userId) w else w
  end.

(** The ['user-left'] listener. *)
Definition on_user_left (userId : string) (w : World) : World :=
  let cleaned := cleanupPeerConnection userId w in
  match cleaned.1 with
  | Thrown _ => cleaned.2
  | Returned _ =>
      let w := cleaned.2 in
      let user := users w !! userId in
      let w := set_users (delete userId (users w)) w in
      match user with
      | Some _ =>
          if onUserLeftCallback w then emit (CallOnUserLeft userId) w else w
      | None => w
      end
  end.

(** The ['offer'] listener: the link is created first if the read finds
    nothing; then the offer is applied and answered on what the read
    finds. [accepted] is the answer of the platform: whether
    [setRemoteDescription], [createAnswer] and [setLocalDescription]
    resolve (a connection with a pending offer of its own takes a remote
    offer only where the platform rolls the own offer back). On an
    inherited member [pc.setRemoteDescription] is not a function. *)
Definition on_offer (from : string) (accepted : bool) (w : World) : World :=
  let created :=
    match get_peerConnection from w with
    | Undefined => createPeerConnection from w
    | _ => (Returned tt, w)
    end in
  match created.1 with
  | Thrown _ => created.2
  | Returned _ =>
      let w := created.2 in
      match get_peerConnection from w with
      | Own pc =>
          if accepted then
            let w := set_pcs (alter (set_signaling Stable) pc (pcs w)) w in
            socket_emit (AnswerMsg from) w
          else w
      | _ => w
      end
  end.

(** The ['answer'] listener. On an inherited member
    [pc.setRemoteDescription] is not a function: the listener throws and,
    as for [undefined], nothing changes. *)
Definition on_answer (from : string) (w : World) : World :=
  match get_peerConnection from w with
  | Own pc => set_pcs (alter (set_signaling Stable) pc (pcs w)) w
  | _ => w
  end.

(** The ['ice-candidate'] listener: the candidate goes to the platform
    (or the listener throws on an inherited member). *)
Definition on_ice_candidate (from : string) (w : World) : World := w.

(** The ['speaking'] listener. *)
Definition on_speaking (userId : string) (isSpeaking : bool) (w : World)
  : World :=
  match users w !! userId with
  | Some _ =>
      let w := set_users (alter (set_isSpeaking isSpeaking) userId (users w)) w in
      if onSpeakingChangeCallback w then
        emit (CallOnSpeakingChange userId isSpeaking) w
      else w
  | None => w
  end.

(** The ['error'] listener. *)
Definition on_error (error : string) (w : World) : World :=
  if onErrorCallback w then emit (CallOnError error) w else w.

(** [pc.onicecandidate] of the connection [pc]. *)
Definition on_icecandidate (pc : nat) (candidate : bool) (w : World) : World :=
  match pcs w !! pc with
  | Some c => if candidate then socket_emit (IceCandidateMsg (pc_remote c)) w else w
  | None => w
  end.

(** [pc.ontrack] of the connection [pc]: [remote] is [event.streams[0]]
    and [first_audio] the first of its audio tracks, if it has one. *)
Definition on_track (pc : nat) (remote : MediaStream) (first_audio : option nat)
    (w : World) : World :=
  match pcs w !! pc with
  | Some c =>
      match users w !! pc_remote c with
      | Some _ =>
          set_users (alter (set_stream remote first_audio) (pc_remote c) (users w)) w
      | None => w
      end
  | None => w
  end.

(** [cleanup()] *)
Definition cleanup (w : World) : World :=
  let w := leaveDiscussion w in
  match socket w with
  | Some _ => set_socket None (socket_disconnect w)
  | None => w
  end.

(** [getUsers()] *)
Definition getUsers (w : World) : list AudioUser :=
  (map_to_list (users w)).*2.

(** [isMicrophoneAccessGranted()] *)
Definition isMicrophoneAccessGranted (w : World) : bool :=
  microphoneAccessGranted w.

(** Registration of the callbacks. *)
Definition onSpeakingChange (w : World) : World := set_onSpeakingChangeCallback true w.
Definition onUserJoined (w : World) : World := set_onUserJoinedCallback true w.
Definition onUserLeft (w : World) : World := set_onUserLeftCallback true w.
Definition onConnected (w : World) : World := set_onConnectedCallback true w.
Definition onError (w : World) : World := set_onErrorCallback true w.

(** ** The event loop *)

(** What can happen to the service: a call of a public method, a message
    on the socket, a firing of a timer or of a connection's handler. *)
Inductive Event :=
| Initialize (token userId username : string)
| OnSpeakingChange | OnUserJoined | OnUserLeft | OnConnected | OnError
| JoinDiscussion (discussionId : string)
    (gum : option (list MediaStreamTrack)) (g : AudioGraph)
| LeaveDiscussion
| ToggleMute
| SetMute (muted : bool)
| Cleanup
| SocketConnect (sid : string)
| SocketDisconnected
| UserJoined (userId username : string)
| UserLeft (userId : string)
| OfferFrom (from : string) (accepted : bool)
| AnswerFrom (from : string)
| IceCandidateFrom (from : string)
| SpeakingFrom (userId : string) (isSpeaking : bool)
| ErrorFrom (error : string)
| IceCandidate (pc : nat) (candidate : bool)
| TrackEvent (pc : nat) (remote : MediaStream) (first_audio : option nat)
| Tick (h : nat) (frame : list Byte.byte).

(** A socket listener runs only on a socket that exists. *)
Definition listener (handler : World → World) (w : World) : World :=
  match socket w with
  | Some _ => handler w
  | None => w
  end.

Section EventLoop.

Variable Math_log10 : float → float.

Definition step (e : Event) (w : World) : World :=
  match e with
  | Initialize token userId username => initialize token userId username w
  | OnSpeakingChange => onSpeakingChange w
  | OnUserJoined => onUserJoined w
  | OnUserLeft => onUserLeft w
  | OnConnected => onConnected w
  | OnError => onError w
  | JoinDiscussion d gum g => (joinDiscussion d gum g w).2
  | LeaveDiscussion => leaveDiscussion w
  | ToggleMute => (toggleMute w).2
  | SetMute muted => (setMute muted w).2
  | Cleanup => cleanup w
  | SocketConnect sid => on_connect sid w
  | SocketDisconnected => listener on_disconnect w
  | UserJoined userId username => listener (on_user_joined userId username) w
  | UserLeft userId => listener (on_user_left userId) w
  | OfferFrom from accepted => listener (on_offer from accepted) w
  | AnswerFrom from => listener (on_answer from) w
  | IceCandidateFrom from => listener (on_ice_candidate from) w
  | SpeakingFrom userId isSpeaking => listener (on_speaking userId isSpeaking) w
  | ErrorFrom error => listener (on_error error) w
  | IceCandidate pc candidate => on_icecandidate pc candidate w
  | TrackEvent pc remote first_audio => on_track pc remote first_audio w
  | Tick h frame => tick Math_log10 h frame w
  end.

Definition run (es : list Event) (w : World) : World :=
  foldl (λ w e, step e w) w es.

(** The worlds the service can be in. *)
Inductive reachable : World → Prop :=
| reachable_new : reachable new_AudioService
| reachable_step e w : reachable w → reachable (step e w).

End EventLoop.

(** ** A [Math.log10] to run the detector with

    Not part of the service: an implementation of the base-10 logarithm
    on binary64 (argument reduction to a mantissa in [0.5, 1), then the
    series of [2 * atanh ((m - 1) / (m + 1))]), with the special values of
    ECMAScript. The examples evaluate the detector with it; the theorems
    hold for every [Math.log10]. *)
Fixpoint atanh_series (n : nat) (k : float) (z2 : float) : float :=
  match n with
  | O => 0%float
  | S n' => (1 / k + z2 * atanh_series n' (k + 2) z2)%float
  end.

Definition ln2 : float := 0x1.62e42fefa39efp-1%float.
Definition ln10 : float := 0x1.26bb1bbb55516p+1%float.

Definition log10_reference (x : float) : float :=
  if (x <? 0)%float then nan
  else if (x =? 0)%float then neg_infinity
  else if (x =? infinity)%float then infinity
  else if negb (x =? x)%float then nan
  else
    let '(m, e) := frshiftexp x in
    let z := ((m - 1) / (m + 1))%float in
    let ln_m := (2 * z * atanh_series 24 1 (z * z))%float in
    let e' := (PrimFloat.of_uint63 e - 2101)%float in
    ((e' * ln2 + ln_m) / ln10)%float.

(** ** Observing one call *)

(** The effects added between [w] and a later world [w']. *)
Definition new_effects (w w' : World) : list Effect :=
  drop (length (trace w)) (trace w').

(** Whether creating the link to [userId] in [w] sends an offer. *)
Definition offers_to (userId : string) (w : World) : bool :=
  bool_decide (SocketEmit (OfferMsg userId)
                 ∈ new_effects w (createPeerConnection userId w).2).

(** A participant of a room: its session manager, and the identity under
    which the coordinator announces it to the others. *)
Record Participant := mkParticipant {
  manager : World;
  identity : string
}.

(** [A] initiates to [B]: [A]'s manager offers when it creates the link
    for [B]'s identity. *)
Definition initiates (A B : Participant) : bool :=
  offers_to (identity B) (manager A).

(** A manager initialised for [userId] whose socket got the id [sid]. *)
Definition connected_manager (userId username sid : string) : World :=
  on_connect sid (initialize "token" userId username new_AudioService).

(** [f] applied in place at each of the handles [hs] of a heap. *)
Definition alter_all {A} (f : A → A) (hs : list nat) (heap : list A) : list A :=
  foldl (λ heap h, alter f h heap) heap hs.

(** A discussion is joined, as [leaveDiscussion] tests it: there is a
    socket and a truthy discussion identifier. *)
Definition joined (w : World) : bool :=
  bool_decide (is_Some (socket w)) && truthy (discussionId w).



(** What [leaveDiscussion] does to the outside when it does not return at
    once: it clears the stored interval, sends the leave message, closes
    the stored connections in the order of [Object.keys], stops the tracks
    of the local stream and closes the audio context. *)
Definition leave_effects (d : string) (w : World) : list Effect :=
  match voiceActivityDetectionInterval w with
  | Some h => [ClearInterval h]
  | None => []
  end
  ++ [SocketEmit (LeaveDiscussionMsg d)]
  ++ (PcClose <$> Object_values (peerConnections w))
  ++ match localStream w with
     | Some st => TrackStop <$> st
     | None => []
     end
  ++ (if audioContext w then [AudioContextClose] else []).

(** ** Reading the detector *)

(** Whether a firing of the interval [h] gets past the first line of the
    callback and reads a frame. *)
Definition samples (h : nat) (w : World) : bool :=
  match intervals w !! h with
  | Some iv =>
      active iv && bool_decide (is_Some (audioAnalyser w))
      && bool_decide (is_Some (socket w)) && negb (isMuted w)
  | None => false
  end.

(** The sum of the byte values of a frame, as an integer. *)
Definition byte_sum (frame : list Byte.byte) : Z :=
  foldr (λ b sum, (Z.of_N (Byte.to_N b) + sum)%Z) 0%Z frame.

(** The JavaScript number that is the integer [z] (below [2^53] every
    integer is a number). *)
Definition number (z : Z) : float := PrimFloat.of_uint63 (Uint63.of_Z z).

(** The level of a frame in decibels, as the design document gives it:
    [20 * log10 (mean / 255)], the mean being the sum of the byte values
    over their number. *)
Definition level_dB (Math_log10 : float → float) (frame : list Byte.byte)
  : float :=
  (20 * Math_log10
          (number (byte_sum frame) / number (Z.of_nat (length frame)) / 255))%float.

(** [p] holds of the [n] integers from [i] on. *)
Fixpoint forall_below (n : nat) (i : int) (p : int → bool) : bool :=
  match n with
  | O => true
  | S n' => p i && forall_below n' (i + 1)%uint63 p
  end.

(** Adding the numbers [s] and [b] gives the number [s + b]. *)
Definition add_exact (s b : int) : bool :=
  PrimFloat.Leibniz.eqb (PrimFloat.of_uint63 s + PrimFloat.of_uint63 b)%float
    (PrimFloat.of_uint63 (s + b)%uint63).


(** The states carried by the speaking messages among some effects. *)
Definition speaking_messages (es : list Effect) : list bool :=
  omap (λ e, match e with
             | SocketEmit (SpeakingMsg _ b) => Some b
             | _ => None
             end) es.

(** The states passed to the speaking-changed callback among some effects. *)
Definition speaking_callbacks (es : list Effect) : list bool :=
  omap (λ e, match e with
             | CallOnSpeakingChange _ b => Some b
             | _ => None
             end) es.

(** The samples of a sequence that differ from the one before them,
    [last] being the one before the first. *)
Fixpoint transitions (last : bool) (samples : list bool) : list bool :=
  match samples with
  | [] => []
  | b :: samples' =>
      if Bool.eqb b last then transitions b samples'
      else b :: transitions b samples'
  end.

(** What a firing that reads a frame does to the outside when the
    computed state is [b] and the closure holds [last]. *)
Definition sample_effects (b last : bool) (w : World) : list Effect :=
  GetByteFrequencyData ::
  if Bool.eqb b last then []
  else
    match discussionId w with
    | Some d => if truthy (Some d) then [SocketEmit (SpeakingMsg d b)] else []
    | None => []
    end
    ++ match socket_id (socket w) with
       | Some u =>
           match users w !! u with
           | Some _ =>
               if onSpeakingChangeCallback w then [CallOnSpeakingChange u b]
               else []
           | None => []
           end
       | None => []
       end.

(** What a change of the mute state may not touch: the stored links and
    the connections themselves (remote user, senders, signalling state) are
    the same, nothing was done to the outside, and the tracks differ at most
    in their [enabled] flag. *)
Definition links_untouched (w w' : World) : Prop :=
  peerConnections w' = peerConnections w
  ∧ pcs w' = pcs w
  ∧ trace w' = trace w
  ∧ localStream w' = localStream w
  ∧ length (tracks w') = length (tracks w)
  ∧ ∀ t, set_enabled true <$> tracks w' !! t = set_enabled true <$> tracks w !! t.

(** ** Invariants *)

(** Every interval the service ever started fires every 200 ms. *)
Definition cadence_ok (w : World) : Prop :=
  ∀ h iv, intervals w !! h = Some iv → period iv = 200%Z.

(** A connection that is not closed is the one stored for its remote
    user, and what is stored for a user is a connection to that user that
    is not closed. *)
Definition links_ok (w : World) : Prop :=
  (∀ pc c, pcs w !! pc = Some c → pc_signaling c ≠ Closed →
     peerConnections w !! pc_remote c = Some pc)
  ∧ (∀ u pc, peerConnections w !! u = Some pc →
       ∃ c, pcs w !! pc = Some c ∧ pc_remote c = u ∧ pc_signaling c ≠ Closed).

(** ** Further invariants *)

(** Every entry of [users] is stored under its own [userId]. *)
Definition users_keyed (w : World) : Prop :=
  ∀ k u, users w !! k = Some u → userId u = k.

(** An analyser exists only together with its audio context. *)
Definition analyser_ok (w : World) : Prop :=
  is_Some (audioAnalyser w) → audioContext w = true.

(** The [connected] flag is set only while the socket has an id. *)
Definition connected_ok (w : World) : Prop :=
  connected w = true → is_Some (socket_id (socket w)).

(** Every local audio track is enabled exactly when the service is not
    muted. *)
Definition mute_consistent (w : World) : Prop :=
  ∀ st t tr, localStream w = Some st → t ∈ getAudioTracks w st →
    tracks w !! t = Some tr → enabled tr = negb (isMuted w).

(** No connection on the heap is open. *)
Definition all_closed (w : World) : Prop :=
  ∀ pc c, pcs w !! pc = Some c → pc_signaling c = Closed.

(** ** The voice chat component (AudioChat)

    The component keeps its own list of participants, updated by the
    callbacks it registers, and joins the discussion when it is mounted. *)

Record UiParticipant := mkUiParticipant {
  ui_userId : string;
  ui_username : string;
  ui_isSpeaking : bool
}.

(** The state update of the [onUserJoined] callback: "only add if not
    already in the list". *)
Definition addParticipant (user : AudioUser) (prev : list UiParticipant)
  : list UiParticipant :=
  if existsb (λ p, String.eqb (ui_userId p) (userId user)) prev then prev
  else prev ++ [mkUiParticipant (userId user) (username user) (isSpeaking user)].

(** The state update of the [onUserLeft] callback. *)
Definition removeParticipant (uid : string) (prev : list UiParticipant)
  : list UiParticipant :=
  List.filter (λ p, negb (String.eqb (ui_userId p) uid)) prev.

(** The state update of the [onSpeakingChange] callback. *)
Definition setParticipantSpeaking (uid : string) (speaking : bool)
    (prev : list UiParticipant) : list UiParticipant :=
  List.map (λ p, if String.eqb (ui_userId p) uid
                 then mkUiParticipant (ui_userId p) (ui_username p) speaking
                 else p) prev.

(** [connectToVoiceChat] and [retryConnection]: the call of
    [joinDiscussion] in its [try]; the result is the message given to
    [setError], if any. *)
Definition connectToVoiceChat (discussionId : string)
    (gum : option (list MediaStreamTrack)) (g : AudioGraph) (w : World)
  : option string * World :=
  match joinDiscussion discussionId gum g w with
  | (Returned true, w) => (None, w)
  | (Returned false, w) =>
      (Some "Failed to join voice chat. Please check your microphone permissions.", w)
  | (Thrown message, w) => (Some ("Failed to join voice chat: " ++ message), w)
  end.

(** The effect run when the component is mounted with a user and a
    token: the service is initialised, the five callbacks are registered
    and the discussion is joined, all in one turn of the event loop. *)
Definition mountAudioChat (token userId username discussionId : string)
    (gum : option (list MediaStreamTrack)) (g : AudioGraph) (w : World)
  : option string * World :=
  let w := initialize token userId username w in
  let w := onConnected w in
  let w := onError w in
  let w := onUserJoined w in
  let w := onUserLeft w in
  let w := onSpeakingChange w in
  connectToVoiceChat discussionId gum g w.

(** ** The authorization header

    The request interceptor of the API client writes it, and
    [getTokenFromRequest] of the backend reads it. *)

(** [s.split(sep)] for a separator of one character. *)
Fixpoint js_split (sep : ascii) (s : string) : list string :=
  match s with
  | EmptyString => [EmptyString]
  | String c s' =>
      if Ascii.eqb c sep then EmptyString :: js_split sep s'
      else
        match js_split sep s' with
        | piece :: pieces => String c piece :: pieces
        | [] => [String c EmptyString]
        end
  end.

(** The request interceptor: with a token in the local storage the
    [Authorization] header is set, otherwise the headers are left alone. *)
Definition request_interceptor (token : option string)
    (authorization : option string) : option string :=
  if truthy token then
    match token with
    | Some t => Some ("Bearer " ++ t)
    | None => authorization
    end
  else authorization.

(** [getTokenFromRequest(req)] on the [authorization] header of [req]. *)
Definition getTokenFromRequest (authHeader : option string) : option string :=
  match authHeader with
  | Some h =>
      if truthy (Some h) && String.prefix "Bearer " h
      then js_split " " h !! 1
      else None
  | None => None
  end.

(** The senders a new connection gets in [w]. *)
Definition new_senders (w : World) : list nat :=
  match localStream w with
  | Some st => if isMuted w then [] else getAudioTracks w st
  | None => []
  end.

(** The microphone was granted at some time. *)
Definition microphone_granted (w : World) : Prop :=
  microphoneAccessGranted w = true.

(** ** Sample worlds *)

(** A captured microphone track. *)
Definition mic : MediaStreamTrack := mkTrack true true false.

(** Two participants announced under their user ids ["z"] and ["y"],
    whose sockets have the ids ["a"] and ["b"]. *)
Definition glare_A : Participant :=
  mkParticipant (connected_manager "z" "alice" "a") "z".
Definition glare_B : Participant :=
  mkParticipant (connected_manager "y" "bob" "b") "y".

(** Two participants announced under their user ids ["a"] and ["b"],
    whose sockets have the ids ["z"] and ["y"]. *)
Definition silent_A : Participant :=
  mkParticipant (connected_manager "a" "alice" "z") "a".
Definition silent_B : Participant :=
  mkParticipant (connected_manager "b" "bob" "y") "b".

(** Two participants announced under the ids of their sockets. *)
Definition peer_A : Participant :=
  mkParticipant (connected_manager "a" "alice" "a") "a".
Definition peer_B : Participant :=
  mkParticipant (connected_manager "b" "bob" "b") "b".

(** The manager of ["a"] after it joined ["d1"] with a microphone and
    learnt of the user ["b"]. *)
Definition joined_d1 : World :=
  on_user_joined "b" "bob"
    (joinDiscussion "d1" (Some [mic]) GraphBuilt
       (onError (connected_manager "a" "alice" "a"))).2.

(** [joined_d1] after a mute toggle. *)
Definition muted_d1 : World := (toggleMute joined_d1).2.

(** A frame of 256 bins at full scale, and a silent one. *)
Definition loud_frame : list Byte.byte := repeat Byte.xff 256.
Definition silent_frame : list Byte.byte := repeat Byte.x00 256.

(** * Properties *)

Local Open Scope list_scope.

(** Reduce the projections of updated worlds, and nothing else. *)
Ltac world_simpl :=
  cbn beta iota zeta delta
    [socket localStream peerConnections connected discussionId
     audioContext audioAnalyser users onSpeakingChangeCallback
     onUserJoinedCallback onUserLeftCallback onConnectedCallback
     onErrorCallback isMuted microphoneAccessGranted
     voiceActivityDetectionInterval listeners tracks pcs intervals trace
     set_socket set_localStream set_peerConnections set_connected
     set_discussionId set_audioContext set_audioAnalyser set_users
     set_onSpeakingChangeCallback set_onUserJoinedCallback
     set_onUserLeftCallback set_onConnectedCallback set_onErrorCallback
     set_isMuted set_microphoneAccessGranted
     set_voiceActivityDetectionInterval set_listeners set_tracks set_pcs
     set_intervals set_trace emit fst snd] in *.

(** Two worlds with the same fields are the same. *)
Lemma world_eq (w1 w2 : World) :
  socket w1 = socket w2 →
  localStream w1 = localStream w2 →
  peerConnections w1 = peerConnections w2 →
  connected w1 = connected w2 →
  discussionId w1 = discussionId w2 →
  audioContext w1 = audioContext w2 →
  audioAnalyser w1 = audioAnalyser w2 →
  users w1 = users w2 →
  onSpeakingChangeCallback w1 = onSpeakingChangeCallback w2 →
  onUserJoinedCallback w1 = onUserJoinedCallback w2 →
  onUserLeftCallback w1 = onUserLeftCallback w2 →
  onConnectedCallback w1 = onConnectedCallback w2 →
  onErrorCallback w1 = onErrorCallback w2 →
  isMuted w1 = isMuted w2 →
  microphoneAccessGranted w1 = microphoneAccessGranted w2 →
  voiceActivityDetectionInterval w1 = voiceActivityDetectionInterval w2 →
  listeners w1 = listeners w2 →
  tracks w1 = tracks w2 →
  pcs w1 = pcs w2 →
  intervals w1 = intervals w2 →
  trace w1 = trace w2 →
  w1 = w2.
Proof. destruct w1, w2. cbn. by intros -> -> -> -> -> -> -> -> -> -> -> -> -> -> -> -> -> -> -> -> ->. Qed.

(** Compare two worlds field by field. *)
Ltac world_ext := apply world_eq; world_simpl.

(** ** The order on strings *)

Example js_string_lt_examples :
  js_string_lt "abc" "abd" = true ∧ js_string_lt "ab" "abc" = true
  ∧ js_string_lt "abc" "ab" = false ∧ js_string_lt "b" "abc" = false
  ∧ js_string_lt "Z" "a" = true ∧ js_string_lt "" "" = false.
Proof. repeat split. Qed.

Lemma js_string_lt_irrefl s : js_string_lt s s = false.
Proof.
  induction s as [|c s IH]; simpl; [done|].
  by rewrite N.ltb_irrefl.
Qed.

Lemma js_string_lt_asym s t : js_string_lt s t = true → js_string_lt t s = false.
Proof.
  revert t. induction s as [|a s IH]; intros [|b t]; simpl; try done.
  destruct (N.ltb_spec (N_of_ascii a) (N_of_ascii b)) as [Hab|Hab];
    destruct (N.ltb_spec (N_of_ascii b) (N_of_ascii a)) as [Hba|Hba];
    try done; try lia.
  apply IH.
Qed.

Lemma N_of_ascii_inj a b : N_of_ascii a = N_of_ascii b → a = b.
Proof.
  intros H. rewrite <- (ascii_N_embedding a), <- (ascii_N_embedding b).
  by rewrite H.
Qed.

Lemma js_string_lt_total s t :
  s ≠ t → js_string_lt s t = true ∨ js_string_lt t s = true.
Proof.
  revert t. induction s as [|a s IH]; intros [|b t] Hne; simpl; auto.
  destruct (N.ltb_spec (N_of_ascii a) (N_of_ascii b)) as [Hab|Hab]; [auto|].
  destruct (N.ltb_spec (N_of_ascii b) (N_of_ascii a)) as [Hba|Hba]; [auto|].
  assert (a = b) as -> by (apply N_of_ascii_inj; lia).
  apply IH. congruence.
Qed.

Lemma truthy_Some s : truthy (Some s) = true ↔ s ≠ "".
Proof. destruct s; simpl; split; congruence. Qed.

(** ** Traces *)

Lemma new_effects_app w w' l : trace w' = trace w ++ l → new_effects w w' = l.
Proof. unfold new_effects. intros ->. by rewrite drop_app_length. Qed.

Lemma get_peerConnection_Own u w pc :
  peerConnections w !! u = Some pc → get_peerConnection u w = Own pc.
Proof. unfold get_peerConnection. by intros ->. Qed.

Lemma get_peerConnection_Inherited u w :
  get_peerConnection u w = Inherited
  ↔ peerConnections w !! u = None ∧ in_Object_prototype u = true.
Proof.
  unfold get_peerConnection.
  destruct (peerConnections w !! u); [by split; [|intros [??]]|].
  destruct (in_Object_prototype u); by split; [|intros [??]].
Qed.

Lemma get_peerConnection_ordinary u w :
  in_Object_prototype u = false → get_peerConnection u w ≠ Inherited.
Proof. intros Hu [_ H]%get_peerConnection_Inherited. congruence. Qed.

Lemma cleanupPeerConnection_trace u w :
  trace (cleanupPeerConnection u w).2
  = trace w ++ match peerConnections w !! u with
               | Some pc => [PcClose pc]
               | None => []
               end.
Proof.
  unfold cleanupPeerConnection, get_peerConnection.
  destruct (peerConnections w !! u); [done|].
  destruct (in_Object_prototype u); cbn [snd]; by rewrite app_nil_r.
Qed.

Lemma cleanupPeerConnection_socket u w :
  socket (cleanupPeerConnection u w).2 = socket w.
Proof.
  unfold cleanupPeerConnection, get_peerConnection.
  destruct (peerConnections w !! u); [done|]. by destruct (in_Object_prototype u).
Qed.

Lemma is_initiator_socket sock u :
  is_initiator sock u = true → is_Some sock.
Proof. unfold is_initiator, socket_id. destruct sock; [eauto|done]. Qed.

(** [createPeerConnection] on a name that only [Object.prototype] has:
    the clean-up throws before anything is done. *)
Lemma createPeerConnection_throws u w :
  get_peerConnection u w = Inherited →
  createPeerConnection u w = (Thrown "pc.close is not a function", w).
Proof.
  intros Hu. unfold createPeerConnection, cleanupPeerConnection. cbv zeta.
  by rewrite Hu.
Qed.

(** The world after a [createPeerConnection] that does not throw: the
    stored connection, if any, closed; one new connection on the heap,
    stored under the user. *)
Lemma createPeerConnection_eq u w :
  get_peerConnection u w ≠ Inherited →
  createPeerConnection u w
  = (Returned tt,
     set_peerConnections (<[u := length (pcs w)]> (peerConnections w))
       (set_trace
          (trace w
           ++ match peerConnections w !! u with
              | Some pc => [PcClose pc]
              | None => []
              end
           ++ (if is_initiator (socket w) u then [SocketEmit (OfferMsg u)] else []))
          (set_pcs
             (match peerConnections w !! u with
              | Some pc => alter close_pc pc (pcs w)
              | None => pcs w
              end
              ++ [mkPc u (new_senders w)
                    (if is_initiator (socket w) u then HaveLocalOffer else Stable)])
             w))).
Proof.
  intros Hu.
  assert (∀ (l : list RTCPeerConnection) c,
    alter (set_signaling HaveLocalOffer) (length l) (l ++ [c])
    = l ++ [set_signaling HaveLocalOffer c]) as Halter.
  { intros l c. rewrite <- (Nat.add_0_r (length l)) at 1.
    by rewrite alter_app_r. }
  unfold createPeerConnection, cleanupPeerConnection, new_senders,
    getAudioTracks. cbv zeta.
  unfold get_peerConnection in *.
  destruct (is_initiator (socket w) u) eqn:Hi.
  - destruct (is_initiator_socket _ _ Hi) as [so Hso]. unfold socket_emit.
    destruct (peerConnections w !! u) as [pc|] eqn:Hpc;
      [|destruct (in_Object_prototype u); [done|]];
      world_simpl; rewrite Hi, Hso; f_equal; world_ext; try done;
      rewrite ?length_alter, ?insert_delete_eq, ?Halter, <- ?app_assoc;
      reflexivity.
  - destruct (peerConnections w !! u) as [pc|] eqn:Hpc;
      [|destruct (in_Object_prototype u); [done|]];
      world_simpl; rewrite Hi; f_equal; world_ext; try done;
      rewrite ?length_alter, ?insert_delete_eq, ?app_nil_r; reflexivity.
Qed.

Lemma createPeerConnection_trace u w :
  get_peerConnection u w ≠ Inherited →
  trace (createPeerConnection u w).2
  = trace w
    ++ match peerConnections w !! u with
       | Some pc => [PcClose pc]
       | None => []
       end
    ++ (if is_initiator (socket w) u then [SocketEmit (OfferMsg u)] else []).
Proof. intros Hu. by rewrite createPeerConnection_eq. Qed.

Lemma offers_to_is_initiator u w :
  get_peerConnection u w ≠ Inherited →
  offers_to u w = is_initiator (socket w) u.
Proof.
  intros Hu. unfold offers_to.
  rewrite (new_effects_app _ _ _ (createPeerConnection_trace u w Hu)).
  destruct (is_initiator (socket w) u).
  - apply bool_decide_eq_true_2. destruct (peerConnections w !! u); set_solver.
  - apply bool_decide_eq_false_2. destruct (peerConnections w !! u); simpl.
    + intros [?|?%elem_of_nil]%elem_of_cons; done.
    + by intros ?%elem_of_nil.
Qed.

Lemma new_effects_refl w : new_effects w w = [].
Proof. unfold new_effects. by rewrite drop_all. Qed.

Lemma offers_to_Inherited u w :
  get_peerConnection u w = Inherited → offers_to u w = false.
Proof.
  intros Hu. unfold offers_to. rewrite createPeerConnection_throws by done.
  cbn [snd]. rewrite new_effects_refl. apply bool_decide_eq_false_2.
  by intros ?%elem_of_nil.
Qed.

(** ** Initiator selection *)

(** Who initiates is decided by the socket id of the offering side and
    the identity it is given for the other side, and by nothing else in
    the world, as long as the creation of the link does not throw. *)
Lemma initiates_iff (A B : Participant) :
  get_peerConnection (identity B) (manager A) ≠ Inherited →
  initiates A B = true
  ↔ ∃ sid, socket_id (socket (manager A)) = Some sid ∧ sid ≠ ""
           ∧ js_string_lt sid (identity B) = true.
Proof.
  intros HB. unfold initiates. rewrite offers_to_is_initiator by done.
  unfold is_initiator.
  destruct (socket_id (socket (manager A))) as [sid|].
  - rewrite andb_true_iff, truthy_Some. split.
    + intros [??]. eauto.
    + intros (? & [= <-] & ? & ?). done.
  - split; [done|]. by intros (? & ? & _).
Qed.

(** C1, as stated, fails: two participants with distinct identities can
    both initiate (their socket ids ["a"], ["b"] are both smaller than the
    identities ["y"], ["z"] they are given for each other), and neither of
    two participants initiates when their socket ids ["z"], ["y"] are both
    greater than the identities ["b"], ["a"] they are given for each
    other. *)
Lemma C1_initiator_counterexample :
  (identity glare_A ≠ identity glare_B
   ∧ initiates glare_A glare_B = true ∧ initiates glare_B glare_A = true)
  ∧ (identity silent_A ≠ identity silent_B
     ∧ initiates silent_A silent_B = false
     ∧ initiates silent_B silent_A = false).
Proof. repeat split; done || vm_compute; reflexivity. Qed.

(** C1 (amended): a participant initiates exactly when the id of its own
    socket is present, non-empty and smaller than the identity it is given
    for the other side, provided the read of the link stored for that
    identity does not find a member of [Object.prototype]; when it does,
    the creation of the link throws and no offer is sent. When two
    participants are announced to each other under the ids of their own
    sockets, and these ids are non-empty, distinct and no names of
    [Object.prototype], exactly one of them initiates, namely the one with
    the smaller id; the worlds of the two managers are arbitrary, so the
    order in which they learnt of each other and everything else that
    happened before plays no role. *)
Theorem C1_initiator_selection (A B : Participant) :
  (get_peerConnection (identity B) (manager A) ≠ Inherited →
   (initiates A B = true
    ↔ ∃ sid, socket_id (socket (manager A)) = Some sid ∧ sid ≠ ""
             ∧ js_string_lt sid (identity B) = true))
  ∧ (get_peerConnection (identity B) (manager A) = Inherited →
     initiates A B = false)
  ∧ (socket_id (socket (manager A)) = Some (identity A) →
     socket_id (socket (manager B)) = Some (identity B) →
     identity A ≠ "" → identity B ≠ "" → identity A ≠ identity B →
     in_Object_prototype (identity A) = false →
     in_Object_prototype (identity B) = false →
     (initiates A B = true ∧ initiates B A = false
      ∧ js_string_lt (identity A) (identity B) = true)
     ∨ (initiates A B = false ∧ initiates B A = true
        ∧ js_string_lt (identity B) (identity A) = true)).
Proof.
  split; [apply initiates_iff|]. split; [apply offers_to_Inherited|].
  intros HA HB HAne HBne Hne HAo HBo.
  assert (initiates A B = js_string_lt (identity A) (identity B)) as ->.
  { unfold initiates.
    rewrite offers_to_is_initiator by (by apply get_peerConnection_ordinary).
    unfold is_initiator. rewrite HA. by rewrite (proj2 (truthy_Some _) HAne). }
  assert (initiates B A = js_string_lt (identity B) (identity A)) as ->.
  { unfold initiates.
    rewrite offers_to_is_initiator by (by apply get_peerConnection_ordinary).
    unfold is_initiator. rewrite HB. by rewrite (proj2 (truthy_Some _) HBne). }
  destruct (js_string_lt_total _ _ Hne) as [H|H].
  - left. by rewrite H, (js_string_lt_asym _ _ H).
  - right. by rewrite H, (js_string_lt_asym _ _ H).
Qed.

Lemma C1_initiator_selection_witness :
  ((initiates peer_A peer_B = true ∧ initiates peer_B peer_A = false
    ∧ js_string_lt (identity peer_A) (identity peer_B) = true)
   ∨ (initiates peer_A peer_B = false ∧ initiates peer_B peer_A = true
      ∧ js_string_lt (identity peer_B) (identity peer_A) = true))
  ∧ initiates peer_A (mkParticipant (manager peer_B) "constructor") = false.
Proof.
  split.
  - apply (proj2 (proj2 (C1_initiator_selection peer_A peer_B)));
      [reflexivity | reflexivity | discriminate | discriminate | discriminate
      | reflexivity | reflexivity].
  - apply (proj1 (proj2 (C1_initiator_selection peer_A
                           (mkParticipant (manager peer_B) "constructor")))).
    reflexivity.
Defined.

(** ** Joining *)

(** What a call of [joinDiscussion] on a connected manager does to the
    outside. *)
Lemma joinDiscussion_new_effects d gum g w :
  is_Some (socket w) → connected w = true →
  new_effects w (joinDiscussion d gum g w).2
  = GetUserMedia ::
    match gum with
    | Some ts =>
        SocketEmit (JoinDiscussionMsg d) ::
        match audioAnalyser (setupAudioContext g w) with
        | Some _ => [SetInterval (length (intervals w)) 200]
        | None => []
        end
    | None => if onErrorCallback w then [CallOnError microphone_error] else []
    end.
Proof.
  intros [so Hso] Hc. apply new_effects_app.
  unfold joinDiscussion. rewrite Hso, Hc. simpl.
  destruct gum as [ts|]; simpl.
  - unfold socket_emit, startVoiceActivityDetection.
    destruct g; simpl; rewrite Hso; simpl;
      try destruct (audioAnalyser w); simpl; by rewrite <- ?app_assoc.
  - destruct (onErrorCallback w); simpl; by rewrite <- ?app_assoc.
Qed.

(** ** Heaps *)

Lemma alter_all_lookup {A} (f : A → A) hs (heap : list A) h :
  (∀ x, f (f x) = f x) →
  alter_all f hs heap !! h
  = if decide (h ∈ hs) then f <$> heap !! h else heap !! h.
Proof.
  intros Hf. unfold alter_all. revert heap.
  induction hs as [|a hs IH]; intros heap.
  - case_decide as Hin; [|done]. by apply elem_of_nil in Hin.
  - change (foldl (λ heap h, alter f h heap) (alter f a heap) hs !! h
            = if decide (h ∈ a :: hs) then f <$> heap !! h else heap !! h).
    rewrite IH. destruct (decide (a = h)) as [->|Hne].
    + rewrite list_lookup_alter_eq.
      repeat case_decide; try set_solver.
      destruct (heap !! h); simpl; by rewrite ?Hf.
    + rewrite list_lookup_alter_ne by done.
      repeat case_decide; set_solver.
Qed.

Lemma alter_all_length {A} (f : A → A) hs (heap : list A) :
  length (alter_all f hs heap) = length heap.
Proof.
  unfold alter_all. revert heap.
  induction hs as [|a hs IH]; intros heap; simpl; [done|].
  by rewrite IH, length_alter.
Qed.

(** ** Leaving *)

Lemma stop_tracks_fold st w :
  foldl (λ w t, track_stop t w) w st
  = set_trace (trace w ++ (TrackStop <$> st))
      (set_tracks (alter_all stop_track st (tracks w)) w).
Proof.
  revert w. induction st as [|t st IH]; intros w.
  - world_ext; try done. cbn [fmap list_fmap]. by rewrite app_nil_r.
  - rewrite fmap_cons. cbn [foldl]. rewrite IH. unfold track_stop.
    world_ext; try done. by rewrite <- app_assoc.
Qed.

(** The own entries of an object are its bindings, each once. *)
Lemma own_entries_Permutation obj : own_entries obj ≡ₚ map_to_list obj.
Proof. apply merge_sort_Permutation. Qed.

Lemma elem_of_own_entries obj k v : (k, v) ∈ own_entries obj ↔ obj !! k = Some v.
Proof. by rewrite own_entries_Permutation, elem_of_map_to_list. Qed.

Lemma NoDup_Object_keys obj : NoDup (Object_keys obj).
Proof.
  unfold Object_keys. rewrite own_entries_Permutation.
  apply NoDup_fst_map_to_list.
Qed.

Lemma elem_of_Object_keys obj k : k ∈ Object_keys obj ↔ is_Some (obj !! k).
Proof.
  unfold Object_keys. rewrite list_elem_of_fmap. split.
  - intros ([k' v] & -> & Hin). apply elem_of_own_entries in Hin. eauto.
  - intros [v Hv]. exists (k, v). by rewrite elem_of_own_entries.
Qed.

Lemma elem_of_Object_values obj v :
  v ∈ Object_values obj ↔ ∃ k, obj !! k = Some v.
Proof.
  unfold Object_values. rewrite list_elem_of_fmap. split.
  - intros ([k v'] & -> & Hin). apply elem_of_own_entries in Hin. eauto.
  - intros [k Hk]. exists (k, v). by rewrite elem_of_own_entries.
Qed.

Lemma Object_values_empty : Object_values (∅ : gmap string nat) = [].
Proof.
  unfold Object_values.
  pose proof (own_entries_Permutation (∅ : gmap string nat)) as H.
  rewrite map_to_list_empty in H. apply Permutation_nil_r in H.
  by rewrite H.
Qed.

(** Array indices come first, by value; the other names follow in the
    order of the handles. *)
Example Object_keys_order :
  Object_keys (<["b" := 0]> (<["10" := 1]> (<["9" := 2]> (<["a" := 3]>
                 (<["07" := 4]> ∅)))))
  = ["9"; "10"; "b"; "a"; "07"].
Proof. vm_compute. reflexivity. Qed.

Lemma cleanupPeerConnections_fold (l : list (string * nat)) w :
  NoDup l.*1 →
  (∀ k v, (k, v) ∈ l → peerConnections w !! k = Some v) →
  foldl (λ w userId, (cleanupPeerConnection userId w).2) w l.*1
  = set_peerConnections (foldl (λ m k, delete k m) (peerConnections w) l.*1)
      (set_trace (trace w ++ (PcClose <$> l.*2))
         (set_pcs (alter_all close_pc l.*2 (pcs w)) w)).
Proof.
  revert w. induction l as [|[k v] l IH]; intros w Hnd Hin.
  - world_ext; try done. cbn [fmap list_fmap]. by rewrite app_nil_r.
  - rewrite !fmap_cons in *. cbn [fst snd foldl] in *.
    apply NoDup_cons in Hnd as [Hk Hnd].
    assert (peerConnections w !! k = Some v) as Hkv by (apply Hin; set_solver).
    unfold cleanupPeerConnection at 2.
    rewrite (get_peerConnection_Own k w v Hkv). cbn [snd].
    rewrite IH; [|done|].
    + world_ext; try done. by rewrite <- app_assoc.
    + intros k' v' Hin'. world_simpl. rewrite lookup_delete_ne.
      * apply Hin. set_solver.
      * intros ->. apply Hk. apply list_elem_of_fmap. by exists (k', v').
Qed.

Lemma delete_all_lookup (m : gmap string nat) ks k :
  foldl (λ m k, delete k m) m ks !! k
  = if decide (k ∈ ks) then None else m !! k.
Proof.
  revert m. induction ks as [|a ks IH]; intros m.
  - case_decide as Hin; [|done]. by apply elem_of_nil in Hin.
  - change (foldl (λ m k, delete k m) (delete a m) ks !! k
            = if decide (k ∈ a :: ks) then None else m !! k).
    rewrite IH. destruct (decide (a = k)) as [->|].
    + rewrite lookup_delete_eq. repeat case_decide; set_solver.
    + rewrite lookup_delete_ne by done. repeat case_decide; set_solver.
Qed.

(** [cleanupPeerConnections] closes every stored connection, in the order
    of [Object.keys], and leaves the map empty. *)
Lemma cleanupPeerConnections_eq w :
  cleanupPeerConnections w
  = set_peerConnections ∅
      (set_trace (trace w ++ (PcClose <$> Object_values (peerConnections w)))
         (set_pcs (alter_all close_pc (Object_values (peerConnections w)) (pcs w))
            w)).
Proof.
  unfold cleanupPeerConnections, Object_keys, Object_values.
  rewrite cleanupPeerConnections_fold.
  - f_equal. apply map_eq. intros k. rewrite delete_all_lookup, lookup_empty.
    destruct (decide _) as [|Hk]; [done|].
    destruct (peerConnections w !! k) as [v|] eqn:Hkv; [|done].
    destruct Hk. by apply elem_of_Object_keys.
  - apply NoDup_Object_keys.
  - intros k v. apply elem_of_own_entries.
Qed.

(** No call of [cleanupPeerConnection] made by [cleanupPeerConnections]
    throws: each key is an own property when its turn comes. *)
Lemma cleanupPeerConnections_returns w ks1 k ks2 :
  Object_keys (peerConnections w) = ks1 ++ k :: ks2 →
  (cleanupPeerConnection k
     (foldl (λ w userId, (cleanupPeerConnection userId w).2) w ks1)).1
  = Returned tt.
Proof.
  intros Hks.
  pose proof (NoDup_Object_keys (peerConnections w)) as Hnd.
  rewrite Hks in Hnd. apply NoDup_app in Hnd as (_ & Hk & _).
  assert (is_Some (peerConnections w !! k)) as [v Hv].
  { apply elem_of_Object_keys. rewrite Hks. set_solver. }
  assert (∀ ks w0, k ∉ ks →
    peerConnections
      (foldl (λ w userId, (cleanupPeerConnection userId w).2) w0 ks) !! k
    = peerConnections w0 !! k) as Hkeep.
  { induction ks as [|a ks IH]; intros w0 Ha; [done|]. cbn [foldl].
    rewrite IH by set_solver.
    unfold cleanupPeerConnection, get_peerConnection.
    destruct (peerConnections w0 !! a);
      [|by destruct (in_Object_prototype a)].
    world_simpl. apply lookup_delete_ne. set_solver. }
  unfold cleanupPeerConnection at 1.
  rewrite (get_peerConnection_Own k _ v); [done|].
  rewrite Hkeep; [done|]. intros Hin. by apply (Hk k Hin), elem_of_cons; left.
Qed.

Lemma cleanupLocalStream_eq w :
  cleanupLocalStream w
  = set_audioAnalyser (if audioContext w then None else audioAnalyser w)
      (set_audioContext false
         (set_localStream None
            (set_trace
               (trace w
                ++ match localStream w with
                   | Some st => TrackStop <$> st
                   | None => []
                   end
                ++ (if audioContext w then [AudioContextClose] else []))
               (set_tracks
                  match localStream w with
                  | Some st => alter_all stop_track st (tracks w)
                  | None => tracks w
                  end w)))).
Proof.
  unfold cleanupLocalStream.
  destruct (localStream w) as [st|] eqn:Hst.
  - rewrite stop_tracks_fold. world_simpl.
    destruct (audioContext w) eqn:Hc; world_ext; try done.
    + by rewrite <- app_assoc.
    + by rewrite app_nil_r.
  - destruct (audioContext w) eqn:Hc; world_ext; try done.
    by rewrite app_nil_r.
Qed.

(** The world after a [leaveDiscussion] that does not return at once. *)
Lemma leaveDiscussion_joined w d :
  is_Some (socket w) → discussionId w = Some d → d ≠ "" →
  leaveDiscussion w
  = set_discussionId None
      (set_audioAnalyser (if audioContext w then None else audioAnalyser w)
         (set_audioContext false
            (set_localStream None
               (set_peerConnections ∅
                  (set_voiceActivityDetectionInterval None
                     (set_trace (trace w ++ leave_effects d w)
                        (set_tracks
                           match localStream w with
                           | Some st => alter_all stop_track st (tracks w)
                           | None => tracks w
                           end
                           (set_pcs
                              (alter_all close_pc
                                 (Object_values (peerConnections w)) (pcs w))
                              (set_intervals
                                 match voiceActivityDetectionInterval w with
                                 | Some h => alter clear_interval h (intervals w)
                                 | None => intervals w
                                 end w))))))))).
Proof.
  intros [so Hso] Hd Hne. unfold leaveDiscussion.
  rewrite Hso, Hd, (proj2 (truthy_Some d) Hne). cbn [negb].
  rewrite cleanupLocalStream_eq, cleanupPeerConnections_eq.
  unfold leave_effects, stopVoiceActivityDetection, clearInterval, socket_emit.
  destruct (voiceActivityDetectionInterval w) as [h|] eqn:Hh;
    world_simpl; rewrite ?Hso, ?Hd; world_ext; rewrite ?Hso, ?Hd; try done;
    world_simpl; rewrite <- ?app_assoc; reflexivity.
Qed.

Lemma joined_true w :
  joined w = true
  ↔ is_Some (socket w) ∧ ∃ d, discussionId w = Some d ∧ d ≠ "".
Proof.
  unfold joined. rewrite andb_true_iff, bool_decide_eq_true.
  destruct (discussionId w) as [d|]; cbn [truthy].
  - fold (truthy (Some d)). rewrite truthy_Some. split.
    + intros [??]. eauto.
    + by intros [? (? & [= <-] & ?)].
  - split; [by intros [??]|]. by intros [? (? & ? & ?)].
Qed.

(** What [joinDiscussion] leaves alone and what it stores. *)
Lemma joinDiscussion_fields d gum g w :
  let w' := (joinDiscussion d gum g w).2 in
  peerConnections w' = peerConnections w
  ∧ pcs w' = pcs w
  ∧ socket w' = socket w
  ∧ connected w' = connected w
  ∧ isMuted w' = isMuted w
  ∧ (is_Some (socket w) → connected w = true → discussionId w' = Some d).
Proof.
  unfold joinDiscussion.
  destruct (socket w) as [so|] eqn:Hso; [|by repeat split; try intros [??]].
  destruct (connected w) eqn:Hc; [|by repeat split].
  destruct gum as [ts|]; simpl.
  - unfold socket_emit, startVoiceActivityDetection.
    destruct g; simpl; rewrite Hso; simpl;
      try destruct (audioAnalyser w); simpl; by rewrite ?Hso, ?Hc.
  - destruct (onErrorCallback w); simpl; by rewrite ?Hso, ?Hc.
Qed.

(** C2, as stated, fails: joining ["d2"] in a world that has joined
    ["d1"], with a link to ["b"] and a running detector, sends no leave
    message for ["d1"] (a [leaveDiscussion] there would begin by clearing
    the interval and sending it), and afterwards the link to ["b"] is still
    stored and open and the interval started for ["d1"] is still active. *)
Lemma C2_implicit_leave_counterexample :
  let w' := (joinDiscussion "d2" (Some [mic]) GraphBuilt joined_d1).2 in
  discussionId joined_d1 = Some "d1"
  ∧ new_effects joined_d1 (leaveDiscussion joined_d1)
    = [ClearInterval 0; SocketEmit (LeaveDiscussionMsg "d1"); PcClose 0;
       TrackStop 0; AudioContextClose]
  ∧ new_effects joined_d1 w'
    = [GetUserMedia; SocketEmit (JoinDiscussionMsg "d2"); SetInterval 1 200]
  ∧ peerConnections w' !! "b" = Some 0
  ∧ pcs w' !! 0 = Some (mkPc "b" [0] HaveLocalOffer)
  ∧ intervals w' !! 0 = Some (mkInterval true 200 false).
Proof. repeat split; vm_compute; reflexivity. Qed.

(** C2 (amended): [joinDiscussion d2] on a connected manager stores [d2]
    as the one discussion identifier, whatever was stored before, and
    performs no implicit leave: it sends no leave message, closes no
    connection, and the stored connections are the same before and
    after. *)
Theorem C2_join_replaces_without_leave d2 gum g w :
  is_Some (socket w) → connected w = true →
  let w' := (joinDiscussion d2 gum g w).2 in
  discussionId w' = Some d2
  ∧ (∀ e, e ∈ new_effects w w' →
       (∀ d, e ≠ SocketEmit (LeaveDiscussionMsg d)) ∧ (∀ pc, e ≠ PcClose pc))
  ∧ peerConnections w' = peerConnections w
  ∧ pcs w' = pcs w.
Proof.
  intros Hso Hc w'. subst w'.
  destruct (joinDiscussion_fields d2 gum g w) as (Hp & Hpcs & _ & _ & _ & Hd).
  split; [by apply Hd|]. split; [|done].
  intros e. rewrite (joinDiscussion_new_effects d2 gum g w Hso Hc).
  destruct gum as [ts|].
  - destruct (audioAnalyser (setupAudioContext g w));
      rewrite !elem_of_cons, ?elem_of_nil; intros He; split; intros ? ->;
      naive_solver.
  - destruct (onErrorCallback w);
      rewrite !elem_of_cons, ?elem_of_nil; intros He; split; intros ? ->;
      naive_solver.
Qed.

Lemma C2_join_replaces_without_leave_witness :
  let w' := (joinDiscussion "d2" (Some [mic]) GraphBuilt joined_d1).2 in
  discussionId w' = Some "d2"
  ∧ (∀ e, e ∈ new_effects joined_d1 w' →
       (∀ d, e ≠ SocketEmit (LeaveDiscussionMsg d)) ∧ (∀ pc, e ≠ PcClose pc))
  ∧ peerConnections w' = peerConnections joined_d1
  ∧ pcs w' = pcs joined_d1.
Proof.
  apply (C2_join_replaces_without_leave "d2" (Some [mic]) GraphBuilt joined_d1);
    [by eexists | reflexivity].
Defined.

(** C4, as stated, fails: [joinDiscussion] on a manager whose socket is
    not connected (as right after [initialize]) ends with an exception. *)
Lemma C4_join_throws_counterexample :
  (joinDiscussion "d1" (Some [mic]) GraphBuilt
     (onError (initialize "token" "a" "alice" new_AudioService))).1
  = Thrown "Audio service not connected".
Proof. reflexivity. Qed.

(** C4 (amended): without a socket, or with a socket that is not
    connected, [joinDiscussion] throws and changes nothing. On a connected
    manager a refused microphone makes it return [false] without throwing;
    it asks for the microphone and, exactly when an error callback is
    registered, calls it, and does nothing else to the outside; the manager
    is still connected, so that a later [joinDiscussion] whose capture
    succeeds returns [true]. *)
Theorem C4_join_failure d gum g w :
  ((socket w = None ∨ connected w = false) →
     joinDiscussion d gum g w = (Thrown "Audio service not connected", w))
  ∧ (is_Some (socket w) → connected w = true →
       let w' := (joinDiscussion d None g w).2 in
       (joinDiscussion d None g w).1 = Returned false
       ∧ new_effects w w'
         = GetUserMedia ::
           (if onErrorCallback w then [CallOnError microphone_error] else [])
       ∧ ∀ d' ts g', (joinDiscussion d' (Some ts) g' w').1 = Returned true).
Proof.
  split.
  - unfold joinDiscussion. intros [->| ->]; [done|]. by destruct (socket w).
  - intros Hso Hc w'. subst w'.
    split; [|split].
    + unfold joinDiscussion. destruct Hso as [so ->]. by rewrite Hc.
    + by rewrite joinDiscussion_new_effects.
    + intros d' ts g'.
      destruct (joinDiscussion_fields d None g w) as (_ & _ & Hs & Hc' & _).
      unfold joinDiscussion at 1. rewrite Hs, Hc', Hc.
      by destruct Hso as [so ->].
Qed.

Lemma C4_join_failure_witness :
  let w := onError (connected_manager "a" "alice" "a") in
  let w' := (joinDiscussion "d1" None GraphBuilt w).2 in
  (joinDiscussion "d1" None GraphBuilt w).1 = Returned false
  ∧ new_effects w w' = [GetUserMedia; CallOnError microphone_error]
  ∧ ∀ d' ts g', (joinDiscussion d' (Some ts) g' w').1 = Returned true.
Proof.
  apply (proj2 (C4_join_failure "d1" None GraphBuilt
                  (onError (connected_manager "a" "alice" "a"))));
    [by eexists | reflexivity].
Defined.

(** C10: when [joinDiscussion d] on a connected manager fails because the
    microphone is refused, [d] is stored as the discussion identifier all
    the same; a [leaveDiscussion] that follows is then (for a non-empty
    [d]) not a no-op: it sends the leave message for [d] and clears the
    identifier, although no join message was ever sent. *)
Theorem C10_failed_join_stores_discussionId d g w :
  is_Some (socket w) → connected w = true →
  let w' := (joinDiscussion d None g w).2 in
  (joinDiscussion d None g w).1 = Returned false
  ∧ discussionId w' = Some d
  ∧ (∀ e, e ∈ new_effects w w' → e ≠ SocketEmit (JoinDiscussionMsg d))
  ∧ (d ≠ "" →
       SocketEmit (LeaveDiscussionMsg d) ∈ new_effects w' (leaveDiscussion w')
       ∧ leaveDiscussion w' ≠ w').
Proof.
  intros Hso Hc w'.
  destruct (joinDiscussion_fields d None g w) as (_ & _ & Hs & _ & _ & Hd).
  specialize (Hd Hso Hc). fold w' in Hs, Hd.
  split; [|split; [done|split]].
  - unfold joinDiscussion. destruct Hso as [so ->]. by rewrite Hc.
  - intros e. subst w'. rewrite joinDiscussion_new_effects by done.
    destruct (onErrorCallback w); rewrite !elem_of_cons, ?elem_of_nil;
      naive_solver.
  - intros Hne.
    assert (is_Some (socket w')) as Hso' by (by rewrite Hs).
    rewrite (leaveDiscussion_joined w' d Hso' Hd Hne). split.
    + erewrite new_effects_app by (world_simpl; reflexivity).
      unfold leave_effects. rewrite !elem_of_app, list_elem_of_singleton. auto.
    + intros Heq. apply (f_equal discussionId) in Heq. world_simpl. congruence.
Qed.

Lemma C10_failed_join_stores_discussionId_witness :
  let w := connected_manager "a" "alice" "a" in
  let w' := (joinDiscussion "d1" None GraphBuilt w).2 in
  (joinDiscussion "d1" None GraphBuilt w).1 = Returned false
  ∧ discussionId w' = Some "d1"
  ∧ SocketEmit (LeaveDiscussionMsg "d1") ∈ new_effects w' (leaveDiscussion w')
  ∧ leaveDiscussion w' ≠ w'.
Proof.
  destruct (C10_failed_join_stores_discussionId "d1" GraphBuilt
              (connected_manager "a" "alice" "a")) as (Hr & Hd & _ & Hl);
    [by eexists | reflexivity |].
  split; [exact Hr|]. split; [exact Hd|]. apply Hl. discriminate.
Defined.

(** ** The detector *)

Lemma samples_true h w :
  samples h w = true
  ↔ ∃ iv, intervals w !! h = Some iv ∧ active iv = true
          ∧ is_Some (audioAnalyser w) ∧ is_Some (socket w) ∧ isMuted w = false.
Proof.
  unfold samples. destruct (intervals w !! h) as [iv|].
  - rewrite !andb_true_iff, !bool_decide_eq_true, negb_true_iff.
    split; [intros [[[??]?]?]; eauto 10|].
    by intros (? & [= <-] & ? & ? & ? & ?).
  - split; [done|]. by intros (? & ? & _).
Qed.

Section Detector.

Variable Math_log10 : float → float.

(** A firing that does not read a frame does nothing at all. *)
Lemma tick_not_sampled h frame w :
  samples h w = false → tick Math_log10 h frame w = w.
Proof.
  unfold samples, tick. destruct (intervals w !! h) as [iv|]; [|done].
  destruct (active iv); [|done].
  destruct (audioAnalyser w); [|done].
  destruct (socket w); [|done].
  by destruct (isMuted w).
Qed.

(** A firing that reads a frame. *)
Lemma tick_sampled h frame w iv :
  intervals w !! h = Some iv → samples h w = true →
  let b := computeSpeaking Math_log10 frame in
  let w' := tick Math_log10 h frame w in
  trace w' = trace w ++ sample_effects b (lastSpeakingState iv) w
  ∧ intervals w' !! h = Some (set_lastSpeakingState b iv)
  ∧ length (intervals w') = length (intervals w)
  ∧ (∀ h', h' ≠ h → intervals w' !! h' = intervals w !! h')
  ∧ socket w' = socket w
  ∧ audioAnalyser w' = audioAnalyser w
  ∧ isMuted w' = isMuted w
  ∧ discussionId w' = discussionId w
  ∧ onSpeakingChangeCallback w' = onSpeakingChangeCallback w
  ∧ peerConnections w' = peerConnections w
  ∧ pcs w' = pcs w
  ∧ (∀ u, is_Some (users w' !! u) ↔ is_Some (users w !! u)).
Proof.
  intros Hiv Hs b w'. subst w'.
  apply samples_true in Hs as (iv' & Hiv' & Hact & [an Han] & [so Hso] & Hm).
  rewrite Hiv in Hiv'. injection Hiv' as <-.
  unfold tick, sample_effects. rewrite Hiv, Hact, Han, Hso, Hm. cbn [negb].
  fold b. destruct (Bool.eqb b (lastSpeakingState iv)) eqn:Hb; cbn [negb].
  - apply eqb_prop in Hb. world_simpl. repeat split; try done.
    rewrite Hiv. f_equal. destruct iv; cbn in *. by rewrite Hb.
  - world_simpl. cbn [socket_id].
    destruct (discussionId w) as [[|c d]|] eqn:Hd; cbn [truthy];
      world_simpl;
      (destruct (id so) as [u|] eqn:Hu;
       [destruct (users w !! u) as [usr|] eqn:Husr;
        [destruct (onSpeakingChangeCallback w) eqn:Hcb|]|]);
      world_simpl; rewrite ?Hd, <- ?app_assoc;
      (split; [reflexivity|]);
      (split; [by rewrite list_lookup_alter_eq, Hiv|]);
      (split; [by rewrite length_alter|]);
      (split; [by intros h' Hne; rewrite list_lookup_alter_ne|]);
      repeat (split; [done|]);
      try done;
      intros u'; (destruct (decide (u = u')) as [<-|Hne];
        [rewrite lookup_alter_eq, Husr; split; eauto
        |by rewrite lookup_alter_ne]).
Qed.

End Detector.

(** The index loop of the callback adds the bytes up from the first to
    the last. *)
Lemma sum_loop_foldl n i dataArray sum :
  n = length dataArray - i →
  sum_loop n i dataArray sum
  = foldl (λ sum b, sum + byte_to_float b)%float sum (drop i dataArray).
Proof.
  revert i sum. induction n as [|n IH]; intros i sum Hn; simpl.
  - by rewrite drop_ge by lia.
  - destruct (dataArray !! i) as [b|] eqn:Hb.
    + rewrite (drop_S _ _ _ Hb). simpl. apply IH. lia.
    + apply lookup_ge_None in Hb. lia.
Qed.

(** *** The arithmetic of the callback *)

Lemma of_Z_add a b :
  (Uint63.of_Z a + Uint63.of_Z b)%uint63 = Uint63.of_Z (a + b).
Proof.
  apply Uint63.to_Z_inj. rewrite Uint63.add_spec, !Uint63.of_Z_spec.
  symmetry. apply Zplus_mod.
Qed.

Lemma forall_below_spec p n (k : Z) :
  forall_below n (Uint63.of_Z k) p = true →
  ∀ z, (k ≤ z < k + Z.of_nat n)%Z → p (Uint63.of_Z z) = true.
Proof.
  revert k. induction n as [|n IH]; intros k Hall z Hz; [lia|].
  cbn [forall_below] in Hall. apply andb_true_iff in Hall as [Hk Hall].
  destruct (decide (z = k)) as [->|Hne]; [done|].
  change 1%uint63 with (Uint63.of_Z 1) in Hall. rewrite of_Z_add in Hall.
  apply (IH (k + 1)%Z Hall). lia.
Qed.

(** Every sum the loop can form over at most 256 bytes is formed without
    rounding: checked for each running sum and each byte value. *)
Lemma sums_exact :
  forall_below (Z.to_nat 65026) (Uint63.of_Z 0)
    (λ s, forall_below 256 (Uint63.of_Z 0) (add_exact s)) = true.
Proof. vm_compute. reflexivity. Qed.

Lemma number_add_exact s b :
  (0 ≤ s ≤ 65025)%Z → (0 ≤ b ≤ 255)%Z →
  (number s + number b)%float = number (s + b).
Proof.
  intros Hs Hb. unfold number. rewrite <- of_Z_add.
  apply Leibniz.eqb_spec.
  assert (0 ≤ s < 0 + Z.of_nat (Z.to_nat 65026))%Z as Hs' by lia.
  assert (0 ≤ b < 0 + Z.of_nat 256)%Z as Hb' by lia.
  exact (forall_below_spec _ _ _
           (forall_below_spec _ _ _ sums_exact s Hs') b Hb').
Qed.

Lemma byte_bounded b : (0 ≤ Z.of_N (Byte.to_N b) ≤ 255)%Z.
Proof. pose proof (Byte.to_N_bounded b). lia. Qed.


(** The loop computes the sum of the bytes, exactly. *)
Lemma sum_loop_exact (frame : list Byte.byte) s :
  (0 ≤ s)%Z → (s + 255 * Z.of_nat (length frame) ≤ 65280)%Z →
  foldl (λ sum b, sum + byte_to_float b)%float (number s) frame
  = number (s + byte_sum frame).
Proof.
  revert s. induction frame as [|b frame IH]; intros s Hs Hlen.
  - cbn [foldl byte_sum foldr]. by rewrite Z.add_0_r.
  - cbn [foldl byte_sum foldr length] in *. fold (byte_sum frame).
    pose proof (byte_bounded b) as Hb.
    change (byte_to_float b) with (number (Z.of_N (Byte.to_N b))).
    rewrite number_add_exact by lia.
    rewrite IH by lia. f_equal. lia.
Qed.

(** The state the callback computes from a frame of at most 256 bins: the
    level of the frame is strictly above [-50]. *)
Lemma computeSpeaking_level Math_log10 (frame : list Byte.byte) :
  (length frame ≤ 256)%nat →
  computeSpeaking Math_log10 frame = (-50 <? level_dB Math_log10 frame)%float.
Proof.
  intros Hlen. unfold computeSpeaking, level_dB.
  rewrite sum_loop_foldl by lia. rewrite drop_0.
  change 0%float with (number 0).
  rewrite sum_loop_exact by lia.
  reflexivity.
Qed.




Lemma speaking_messages_sample_effects b last w :
  speaking_messages (sample_effects b last w)
  = if Bool.eqb b last then []
    else if truthy (discussionId w) then [b] else [].
Proof.
  unfold sample_effects, speaking_messages.
  destruct (Bool.eqb b last); [done|].
  destruct (discussionId w) as [[|c d]|];
    (destruct (socket_id (socket w)) as [u|];
     [destruct (users w !! u); [destruct (onSpeakingChangeCallback w)|]|]);
    reflexivity.
Qed.

Lemma speaking_callbacks_sample_effects b last w :
  Bool.eqb b last = true → speaking_callbacks (sample_effects b last w) = [].
Proof. unfold sample_effects. by intros ->. Qed.

(** ** Muted firings *)

(** C3, as stated, fails: in the muted world a firing of the running
    interval reads no frame (it has no effect at all), although the same
    frame is read, found to be speech and reported when not muted. *)
Lemma C3_muted_tick_counterexample :
  isMuted muted_d1 = true
  ∧ intervals muted_d1 !! 0 = Some (mkInterval true 200 false)
  ∧ new_effects muted_d1 (tick log10_reference 0 loud_frame muted_d1) = []
  ∧ new_effects joined_d1 (tick log10_reference 0 loud_frame joined_d1)
    = [GetByteFrequencyData; SocketEmit (SpeakingMsg "d1" true)].
Proof. repeat split; vm_compute; reflexivity. Qed.

(** C3 (amended): while the service is muted a firing of an interval
    returns at once: it reads no frame, computes nothing, sends no
    speaking message and leaves the world, the state kept by the
    detector included, as it is. *)
Theorem C3_muted_tick Math_log10 h frame w :
  isMuted w = true →
  tick Math_log10 h frame w = w
  ∧ new_effects w (tick Math_log10 h frame w) = [].
Proof.
  intros Hm.
  assert (tick Math_log10 h frame w = w) as ->.
  { apply tick_not_sampled. unfold samples.
    destruct (intervals w !! h); [|done]. rewrite Hm. apply andb_false_r. }
  split; [done|apply new_effects_refl].
Qed.

Lemma C3_muted_tick_witness :
  tick log10_reference 0 loud_frame muted_d1 = muted_d1
  ∧ new_effects muted_d1 (tick log10_reference 0 loud_frame muted_d1) = [].
Proof. apply (C3_muted_tick log10_reference 0 loud_frame muted_d1). reflexivity. Defined.

(** ** Speaking events *)

(** Over successive firings of an interval that reads its frames, the
    speaking messages are the transitions of the computed states. *)
Lemma ticks_speaking_messages Math_log10 h frames w iv :
  intervals w !! h = Some iv → samples h w = true →
  truthy (discussionId w) = true →
  ∃ es, trace (ticks Math_log10 h frames w) = trace w ++ es
        ∧ speaking_messages es
          = transitions (lastSpeakingState iv)
              (computeSpeaking Math_log10 <$> frames).
Proof.
  revert w iv. induction frames as [|frame frames IH]; intros w iv Hiv Hs Hd.
  - exists []. by rewrite app_nil_r.
  - destruct (tick_sampled Math_log10 h frame w iv Hiv Hs)
      as (Ht & Hiv' & _ & _ & Hso & Han & Hm & Hd' & _).
    apply samples_true in Hs as (iv0 & Hiv0 & Hact & Han0 & Hso0 & Hm0).
    rewrite Hiv in Hiv0. injection Hiv0 as <-.
    destruct (IH (tick Math_log10 h frame w) _ Hiv') as (es & Hes & Hsp).
    + apply samples_true. eexists. split; [exact Hiv'|].
      by rewrite Han, Hso, Hm.
    + by rewrite Hd'.
    + eexists. split.
      * cbn. unfold ticks in Hes. rewrite Hes, Ht, <- app_assoc. reflexivity.
      * unfold speaking_messages in *. rewrite omap_app.
        fold (speaking_messages
                (sample_effects (computeSpeaking Math_log10 frame)
                   (lastSpeakingState iv) w)).
        rewrite speaking_messages_sample_effects, Hd, Hsp. cbn.
        by destruct (Bool.eqb _ _).
Qed.

(** The same over the firings of all intervals, when the interval [h]
    is the only one that is active: the others do nothing. *)
Lemma fired_speaking_messages Math_log10 h
    (fired : list (nat * list Byte.byte)) w iv :
  intervals w !! h = Some iv → samples h w = true →
  truthy (discussionId w) = true →
  (∀ h' iv', h' ≠ h → intervals w !! h' = Some iv' → active iv' = false) →
  ∃ es, trace (run Math_log10 ((λ x, Tick x.1 x.2) <$> fired) w) = trace w ++ es
        ∧ speaking_messages es
          = transitions (lastSpeakingState iv)
              (computeSpeaking Math_log10
                 <$> (filter (λ x, x.1 = h) fired).*2).
Proof.
  revert w iv.
  induction fired as [|[h' frame] fired IH]; intros w iv Hiv Hs Hd Hone.
  - exists []. by rewrite app_nil_r.
  - rewrite fmap_cons. cbn [run foldl step fst snd].
    fold (run Math_log10 ((λ x, Tick x.1 x.2) <$> fired)
            (tick Math_log10 h' frame w)).
    destruct (decide (h' = h)) as [->|Hne].
    + rewrite filter_cons_True by done. rewrite !fmap_cons. cbn [snd transitions].
      destruct (tick_sampled Math_log10 h frame w iv Hiv Hs)
        as (Ht & Hiv' & _ & Hother & Hso & Han & Hm & Hd' & _).
      apply samples_true in Hs as (iv0 & Hiv0 & Hact & Han0 & Hso0 & Hm0).
      rewrite Hiv in Hiv0. injection Hiv0 as <-.
      destruct (IH (tick Math_log10 h frame w) _ Hiv') as (es & Hes & Hsp).
      * apply samples_true. eexists. split; [exact Hiv'|].
        by rewrite Han, Hso, Hm.
      * by rewrite Hd'.
      * intros h'' iv'' Hne'' Hiv''. rewrite Hother in Hiv'' by done. eauto.
      * eexists. split.
        -- rewrite Hes, Ht, <- app_assoc. reflexivity.
        -- unfold speaking_messages in *. rewrite omap_app.
           fold (speaking_messages
                   (sample_effects (computeSpeaking Math_log10 frame)
                      (lastSpeakingState iv) w)).
           rewrite speaking_messages_sample_effects, Hd, Hsp. cbn.
           by destruct (Bool.eqb _ _).
    + rewrite filter_cons_False by done.
      rewrite tick_not_sampled; [by apply IH|].
      unfold samples. destruct (intervals w !! h') as [iv'|] eqn:Hiv'; [|done].
      by rewrite (Hone h' iv' Hne Hiv').
Qed.

(** C5, as stated, fails: after two joins in a row two detectors are
    active, each with a last state of its own. The states computed at four
    consecutive readings are [true; true; false; false], yet each of them
    is reported: the second and the fourth reading compute the state of the
    reading before them and send a speaking message all the same. *)
Lemma C5_two_detectors_counterexample :
  let w := (joinDiscussion "d1" (Some [mic]) GraphBuilt joined_d1).2 in
  let w' :=
    run log10_reference
      [Tick 0 loud_frame; Tick 1 loud_frame;
       Tick 0 silent_frame; Tick 1 silent_frame] w in
  computeSpeaking log10_reference
    <$> [loud_frame; loud_frame; silent_frame; silent_frame]
  = [true; true; false; false]
  ∧ transitions false [true; true; false; false] = [true; false]
  ∧ speaking_messages (new_effects w w') = [true; true; false; false].
Proof. cbv zeta. split; [|split]; vm_compute; reflexivity. Qed.

(** C5 (amended): a firing of a detector sends a speaking message or calls
    the speaking-changed callback only when the state it computes from the
    frame differs from the state computed at the last reading of the same
    detector (initially [false]), and it carries the new state; a reading
    that computes the same state as the reading of the same detector before
    it produces neither; over successive readings of one detector the
    speaking messages sent are exactly the transitions of the computed
    state. When a detector is the only active one, this holds for all the
    readings of the service: over the firings of any intervals the speaking
    messages are exactly the transitions of the states computed at the
    firings of that detector. *)
Theorem C5_speaking_only_on_transition Math_log10 h w :
  (∀ frame b,
     b ∈ speaking_messages (new_effects w (tick Math_log10 h frame w))
     ∨ b ∈ speaking_callbacks (new_effects w (tick Math_log10 h frame w)) →
     ∃ iv, intervals w !! h = Some iv
           ∧ computeSpeaking Math_log10 frame = b
           ∧ lastSpeakingState iv = negb b
           ∧ lastSpeakingState <$> intervals (tick Math_log10 h frame w) !! h
             = Some b)
  ∧ (∀ f1 f2,
       samples h w = true →
       computeSpeaking Math_log10 f1 = computeSpeaking Math_log10 f2 →
       let w1 := tick Math_log10 h f1 w in
       let w2 := tick Math_log10 h f2 w1 in
       speaking_messages (new_effects w1 w2) = []
       ∧ speaking_callbacks (new_effects w1 w2) = [])
  ∧ (∀ frames iv,
       intervals w !! h = Some iv → samples h w = true →
       truthy (discussionId w) = true →
       speaking_messages (new_effects w (ticks Math_log10 h frames w))
       = transitions (lastSpeakingState iv)
           (computeSpeaking Math_log10 <$> frames))
  ∧ (∀ (fired : list (nat * list Byte.byte)) iv,
       intervals w !! h = Some iv → samples h w = true →
       truthy (discussionId w) = true →
       (∀ h' iv', h' ≠ h → intervals w !! h' = Some iv' → active iv' = false) →
       speaking_messages
         (new_effects w (run Math_log10 ((λ x, Tick x.1 x.2) <$> fired) w))
       = transitions (lastSpeakingState iv)
           (computeSpeaking Math_log10
              <$> (filter (λ x, x.1 = h) fired).*2)).
Proof.
  split; [|split; [|split]].
  - intros frame b Hb.
    destruct (samples h w) eqn:Hs.
    + pose proof Hs as (iv & Hiv & _)%samples_true. exists iv.
      destruct (tick_sampled Math_log10 h frame w iv Hiv Hs) as (Ht & Hiv' & _).
      rewrite (new_effects_app _ _ _ Ht) in Hb. rewrite Hiv'. cbn.
      unfold sample_effects, speaking_messages, speaking_callbacks in Hb.
      destruct (Bool.eqb (computeSpeaking Math_log10 frame)
                  (lastSpeakingState iv)) eqn:He.
      { cbn in Hb. destruct Hb as [Hb|Hb]; by apply elem_of_nil in Hb. }
      assert (computeSpeaking Math_log10 frame = b) as <-.
      { cbn in Hb. rewrite !omap_app in Hb.
        destruct Hb as [Hb|Hb]; apply elem_of_app in Hb as [Hb|Hb];
          repeat case_match; cbn in Hb;
          rewrite ?elem_of_cons, ?elem_of_nil in Hb; naive_solver. }
      repeat split; try done.
      apply eqb_false_iff in He.
      by destruct (computeSpeaking Math_log10 frame), (lastSpeakingState iv).
    + rewrite tick_not_sampled, new_effects_refl in Hb by done.
      destruct Hb as [Hb|Hb]; by apply elem_of_nil in Hb.
  - intros f1 f2 Hs Heq w1 w2. subst w1 w2.
    pose proof Hs as (iv & Hiv & _)%samples_true.
    destruct (tick_sampled Math_log10 h f1 w iv Hiv Hs) as (_ & Hiv' & _).
    destruct (samples h (tick Math_log10 h f1 w)) eqn:Hs'.
    + destruct (tick_sampled Math_log10 h f2 _ _ Hiv' Hs') as (Ht & _).
      rewrite (new_effects_app _ _ _ Ht). cbn [set_lastSpeakingState lastSpeakingState].
      rewrite <- Heq.
      rewrite speaking_messages_sample_effects, speaking_callbacks_sample_effects;
        by rewrite eqb_reflx.
    + by rewrite (tick_not_sampled _ h f2 _ Hs'), new_effects_refl.
  - intros frames iv Hiv Hs Hd.
    destruct (ticks_speaking_messages Math_log10 h frames w iv Hiv Hs Hd)
      as (es & Hes & Hsp).
    by rewrite (new_effects_app _ _ _ Hes).
  - intros fired iv Hiv Hs Hd Hone.
    destruct (fired_speaking_messages Math_log10 h fired w iv Hiv Hs Hd Hone)
      as (es & Hes & Hsp).
    by rewrite (new_effects_app _ _ _ Hes).
Qed.

Lemma C5_speaking_only_on_transition_witness :
  speaking_messages
    (new_effects joined_d1
       (ticks log10_reference 0
          [loud_frame; loud_frame; silent_frame; silent_frame; loud_frame]
          joined_d1))
  = [true; false; true]
  ∧ speaking_messages
      (new_effects joined_d1
         (run log10_reference
            [Tick 0 loud_frame; Tick 1 loud_frame; Tick 0 loud_frame;
             Tick 0 silent_frame]
            joined_d1))
    = [true; false].
Proof.
  split.
  - apply (proj1 (proj2 (proj2 (C5_speaking_only_on_transition log10_reference
                                   0 joined_d1)))
             [loud_frame; loud_frame; silent_frame; silent_frame; loud_frame]
             (mkInterval true 200 false));
      reflexivity.
  - apply (proj2 (proj2 (proj2 (C5_speaking_only_on_transition log10_reference
                                   0 joined_d1)))
             [(0, loud_frame); (1, loud_frame); (0, loud_frame);
              (0, silent_frame)]
             (mkInterval true 200 false)); try reflexivity.
    intros [|h'] iv' Hne Hiv'; [done|]. destruct h'; discriminate Hiv'.
Defined.

(** ** Mute *)

Lemma set_enabled_fold l w :
  foldl (λ w t, track_set_enabled (negb (isMuted w)) t w) w l
  = set_tracks (alter_all (set_enabled (negb (isMuted w))) l (tracks w)) w.
Proof.
  revert w. induction l as [|t l IH]; intros w.
  - by world_ext.
  - cbn [foldl]. rewrite IH. unfold track_set_enabled. by world_ext.
Qed.

Lemma alter_all_set_enabled b l (ts : list MediaStreamTrack) t :
  set_enabled true <$> alter_all (set_enabled b) l ts !! t
  = set_enabled true <$> ts !! t.
Proof.
  rewrite alter_all_lookup by done.
  case_decide; [|done]. by destruct (ts !! t).
Qed.

Lemma toggleMute_eq w :
  toggleMute w
  = (negb (isMuted w),
     set_tracks
       match localStream w with
       | Some st =>
           alter_all (set_enabled (negb (negb (isMuted w))))
             (getAudioTracks w st) (tracks w)
       | None => tracks w
       end
       (set_isMuted (negb (isMuted w)) w)).
Proof.
  unfold toggleMute. world_simpl.
  destruct (localStream w) as [st|] eqn:Hst.
  - rewrite set_enabled_fold. world_simpl. reflexivity.
  - reflexivity.
Qed.

(** C7: [toggleMute] and [setMute] return the resulting mute state; they
    close, create and renegotiate nothing: the stored links and every
    connection (its remote user, senders and signalling state) are the same
    before and after, nothing is sent or called, and the tracks differ at
    most in their [enabled] flag, which afterwards is the negation of
    [isMuted] on every local audio track. *)
Theorem C7_mute_keeps_links w :
  (let w' := (toggleMute w).2 in
   (toggleMute w).1 = isMuted w' ∧ isMuted w' = negb (isMuted w)
   ∧ links_untouched w w'
   ∧ ∀ st t, localStream w = Some st → t ∈ getAudioTracks w st →
       enabled <$> tracks w' !! t = Some (negb (isMuted w')))
  ∧ (∀ muted,
       let w' := (setMute muted w).2 in
       (setMute muted w).1 = isMuted w' ∧ isMuted w' = muted
       ∧ links_untouched w w').
Proof.
  assert (links_untouched w (toggleMute w).2) as Hframe.
  { rewrite toggleMute_eq. unfold links_untouched. cbn [snd]. world_simpl.
    repeat split; try done.
    - destruct (localStream w); [|done]. apply alter_all_length.
    - intros t. destruct (localStream w); [|done]. apply alter_all_set_enabled. }
  split.
  - cbv zeta. rewrite toggleMute_eq in *. cbn [fst snd] in *. world_simpl.
    split; [done|]. split; [done|]. split; [exact Hframe|].
    intros st t Hst Ht. rewrite Hst.
    rewrite alter_all_lookup by done. rewrite decide_True by done.
    assert (is_Some (tracks w !! t)) as [tr ->]; [|done].
    apply list_elem_of_filter in Ht as [Ht _].
    destruct (tracks w !! t); [eauto|done].
  - intros muted. cbv zeta. unfold setMute.
    destruct (Bool.eqb (isMuted w) muted) eqn:He; cbn [negb].
    + apply eqb_prop in He. unfold links_untouched. cbn [fst snd].
      by repeat split.
    + rewrite toggleMute_eq in *. cbn [fst snd] in *. world_simpl.
      split; [done|]. split; [|exact Hframe].
      apply eqb_false_iff in He. by destruct (isMuted w), muted.
Qed.

Lemma C7_mute_keeps_links_witness :
  let w' := (toggleMute joined_d1).2 in
  (toggleMute joined_d1).1 = true ∧ isMuted w' = true
  ∧ links_untouched joined_d1 w'
  ∧ enabled <$> tracks w' !! 0 = Some false
  ∧ (setMute false w').1 = false.
Proof.
  destruct (C7_mute_keeps_links joined_d1) as [(Hr & Hm & Hl & He) _].
  split; [exact Hr|]. split; [exact Hm|]. split; [exact Hl|].
  split.
  - apply (He [0] 0 eq_refl). by apply list_elem_of_singleton.
  - destruct (proj2 (C7_mute_keeps_links (toggleMute joined_d1).2) false)
      as (Hr' & Hm' & _).
    rewrite Hr'. exact Hm'.
Defined.

(** ** The cadence of the detector *)

Lemma foldl_preserves {A} (P : World → Prop) (f : World → A → World) l w :
  (∀ w x, P w → P (f w x)) → P w → P (foldl f w l).
Proof.
  intros Hf. revert w. induction l as [|x l IH]; intros w Hw; [done|].
  cbn [foldl]. apply IH, Hf, Hw.
Qed.

Lemma cadence_ok_ext w w' :
  intervals w' = intervals w → cadence_ok w → cadence_ok w'.
Proof. unfold cadence_ok. by intros ->. Qed.

Lemma cadence_ok_alter f h w w' :
  (∀ iv, period (f iv) = period iv) →
  intervals w' = alter f h (intervals w) → cadence_ok w → cadence_ok w'.
Proof.
  unfold cadence_ok. intros Hf -> Hw h' iv.
  destruct (decide (h = h')) as [<-|Hne].
  - rewrite list_lookup_alter_eq.
    destruct (intervals w !! h) as [iv0|] eqn:Hiv; [|done].
    intros [= <-]. rewrite Hf. eauto.
  - rewrite list_lookup_alter_ne by done. eauto.
Qed.

Lemma cadence_ok_start w w' :
  intervals w' = intervals w ++ [mkInterval true 200 false] →
  cadence_ok w → cadence_ok w'.
Proof.
  unfold cadence_ok. intros -> Hw h iv.
  rewrite lookup_app. destruct (intervals w !! h) eqn:Hiv.
  - intros [= <-]. eauto.
  - destruct (h - length (intervals w)) as [|n]; [by intros [= <-]|done].
Qed.

(** Case analysis on what an operation branches on. *)
Ltac split_cases :=
  cbv zeta;
  repeat match goal with
         | |- context [match ?x with _ => _ end] => destruct x eqn:?
         end;
  cbn [fst snd].

Create HintDb cadence.

#[local] Hint Extern 1 (cadence_ok (foldl _ _ _)) =>
  apply foldl_preserves; [intros ? ? ?|] : cadence.
#[local] Hint Extern 5 (cadence_ok (_ ?w)) =>
  apply (cadence_ok_ext w); [reflexivity|] : cadence.
#[local] Hint Extern 5 (cadence_ok (_ _ ?w)) =>
  apply (cadence_ok_ext w); [reflexivity|] : cadence.

(** [op] keeps the cadence, by the operations it is made of. *)
Ltac cadence_op op := intros; unfold op; split_cases; eauto 30 with cadence.

Lemma cadence_ok_clearInterval h w :
  cadence_ok w → cadence_ok (clearInterval h w).
Proof. apply (cadence_ok_alter clear_interval h); [done|reflexivity]. Qed.
#[local] Hint Resolve cadence_ok_clearInterval : cadence.

Lemma cadence_ok_startVoiceActivityDetection w :
  cadence_ok w → cadence_ok (startVoiceActivityDetection w).
Proof.
  intros Hw. unfold startVoiceActivityDetection. split_cases; [|done].
  by apply (cadence_ok_start w).
Qed.
#[local] Hint Resolve cadence_ok_startVoiceActivityDetection : cadence.

Lemma cadence_ok_stopVoiceActivityDetection w :
  cadence_ok w → cadence_ok (stopVoiceActivityDetection w).
Proof. cadence_op stopVoiceActivityDetection. Qed.
#[local] Hint Resolve cadence_ok_stopVoiceActivityDetection : cadence.

Lemma cadence_ok_socket_emit m w : cadence_ok w → cadence_ok (socket_emit m w).
Proof. cadence_op socket_emit. Qed.
#[local] Hint Resolve cadence_ok_socket_emit : cadence.

Lemma cadence_ok_track_stop t w : cadence_ok w → cadence_ok (track_stop t w).
Proof. cadence_op track_stop. Qed.
#[local] Hint Resolve cadence_ok_track_stop : cadence.

Lemma cadence_ok_track_set_enabled b t w :
  cadence_ok w → cadence_ok (track_set_enabled b t w).
Proof. cadence_op track_set_enabled. Qed.
#[local] Hint Resolve cadence_ok_track_set_enabled : cadence.

Lemma cadence_ok_cleanupPeerConnection u w :
  cadence_ok w → cadence_ok (cleanupPeerConnection u w).2.
Proof. cadence_op cleanupPeerConnection. Qed.
#[local] Hint Resolve cadence_ok_cleanupPeerConnection : cadence.

Lemma cadence_ok_cleanupPeerConnections w :
  cadence_ok w → cadence_ok (cleanupPeerConnections w).
Proof. cadence_op cleanupPeerConnections. Qed.
#[local] Hint Resolve cadence_ok_cleanupPeerConnections : cadence.

Lemma cadence_ok_createPeerConnection u w :
  cadence_ok w → cadence_ok (createPeerConnection u w).2.
Proof. cadence_op createPeerConnection. Qed.
#[local] Hint Resolve cadence_ok_createPeerConnection : cadence.

Lemma cadence_ok_cleanupLocalStream w :
  cadence_ok w → cadence_ok (cleanupLocalStream w).
Proof. cadence_op cleanupLocalStream. Qed.
#[local] Hint Resolve cadence_ok_cleanupLocalStream : cadence.

Lemma cadence_ok_setupAudioContext g w :
  cadence_ok w → cadence_ok (setupAudioContext g w).
Proof. cadence_op setupAudioContext. Qed.
#[local] Hint Resolve cadence_ok_setupAudioContext : cadence.

Lemma cadence_ok_joinDiscussion d gum g w :
  cadence_ok w → cadence_ok (joinDiscussion d gum g w).2.
Proof.
  intros. unfold joinDiscussion, new_stream. split_cases; eauto 30 with cadence.
Qed.
#[local] Hint Resolve cadence_ok_joinDiscussion : cadence.

Lemma cadence_ok_leaveDiscussion w :
  cadence_ok w → cadence_ok (leaveDiscussion w).
Proof. cadence_op leaveDiscussion. Qed.
#[local] Hint Resolve cadence_ok_leaveDiscussion : cadence.

Lemma cadence_ok_toggleMute w : cadence_ok w → cadence_ok (toggleMute w).2.
Proof. cadence_op toggleMute. Qed.
#[local] Hint Resolve cadence_ok_toggleMute : cadence.

Lemma cadence_ok_on_disconnect w : cadence_ok w → cadence_ok (on_disconnect w).
Proof. cadence_op on_disconnect. Qed.
#[local] Hint Resolve cadence_ok_on_disconnect : cadence.

Lemma cadence_ok_socket_disconnect w :
  cadence_ok w → cadence_ok (socket_disconnect w).
Proof. cadence_op socket_disconnect. Qed.
#[local] Hint Resolve cadence_ok_socket_disconnect : cadence.

Lemma cadence_ok_tick Math_log10 h frame w :
  cadence_ok w → cadence_ok (tick Math_log10 h frame w).
Proof.
  intros Hw. destruct (samples h w) eqn:Hs.
  - pose proof Hs as (iv & Hiv & _)%samples_true.
    destruct (tick_sampled Math_log10 h frame w iv Hiv Hs)
      as (_ & Hh & _ & Hne & _).
    intros h' iv'. destruct (decide (h' = h)) as [->|Hh'].
    + rewrite Hh. intros [= <-]. apply (Hw h iv Hiv).
    + rewrite Hne by done. apply Hw.
  - by rewrite tick_not_sampled.
Qed.

Lemma cadence_ok_step Math_log10 e w :
  cadence_ok w → cadence_ok (step Math_log10 e w).
Proof.
  intros Hw. destruct e; cbn [step]; try apply cadence_ok_tick; try done;
    unfold listener, initialize, onSpeakingChange, onUserJoined, onUserLeft,
      onConnected, onError, setMute, cleanup, on_connect, on_user_joined,
      on_user_left, on_offer, on_answer, on_ice_candidate, on_speaking,
      on_error, on_icecandidate, on_track;
    split_cases; eauto 30 with cadence.
Qed.

Lemma cadence_ok_reachable Math_log10 w :
  reachable Math_log10 w → cadence_ok w.
Proof.
  induction 1 as [|e w _ IH]; [by intros h iv|]. by apply cadence_ok_step.
Qed.

Lemma reachable_run Math_log10 es w :
  reachable Math_log10 w → reachable Math_log10 (run Math_log10 es w).
Proof.
  revert w. induction es as [|e es IH]; intros w Hw; [done|].
  cbn [run foldl]. apply IH. by constructor.
Qed.

Lemma joined_d1_reachable : reachable log10_reference joined_d1.
Proof.
  assert (joined_d1
          = run log10_reference
              [Initialize "token" "a" "alice"; SocketConnect "a"; OnError;
               JoinDiscussion "d1" (Some [mic]) GraphBuilt;
               UserJoined "b" "bob"] new_AudioService) as ->
    by (vm_compute; reflexivity).
  apply reachable_run. constructor.
Qed.

(** With the reference logarithm a frame of 256 bins is speech from a
    byte sum of 207 on; silence and the empty frame are not speech. *)
Example computeSpeaking_207 :
  computeSpeaking log10_reference (repeat Byte.x01 207 ++ repeat Byte.x00 49)
  = true.
Proof. vm_compute. reflexivity. Qed.

Example computeSpeaking_206 :
  computeSpeaking log10_reference (repeat Byte.x01 206 ++ repeat Byte.x00 50)
  = false.
Proof. vm_compute. reflexivity. Qed.

Example computeSpeaking_silence :
  computeSpeaking log10_reference silent_frame = false
  ∧ computeSpeaking log10_reference [] = false.
Proof. split; vm_compute; reflexivity. Qed.

(** C6: every interval of the detector fires every 200 ms, and a firing
    that reads a frame (of the 256 bins an analyser with [fftSize = 512]
    delivers, or fewer) classifies it as speech exactly when the mean of
    its bytes (their sum over their number), over 255, converted by
    [20 * Math.log10], is strictly above [-50]: this is the state the
    detector keeps, and the state it reports when it differs from the one
    before. *)
Theorem C6_speaking_decision Math_log10 h (frame : list Byte.byte) w iv :
  reachable Math_log10 w → intervals w !! h = Some iv →
  (length frame ≤ 256)%nat →
  let mean := (number (byte_sum frame) / number (Z.of_nat (length frame)))%float in
  let speaking := (-50 <? 20 * Math_log10 (mean / 255))%float in
  period iv = 200%Z
  ∧ computeSpeaking Math_log10 frame = speaking
  ∧ (samples h w = true →
       let w' := tick Math_log10 h frame w in
       GetByteFrequencyData ∈ new_effects w w'
       ∧ lastSpeakingState <$> intervals w' !! h = Some speaking
       ∧ speaking_messages (new_effects w w')
         = if Bool.eqb speaking (lastSpeakingState iv) then []
           else if truthy (discussionId w) then [speaking] else []).
Proof.
  intros Hr Hiv Hlen mean speaking.
  assert (computeSpeaking Math_log10 frame = speaking) as Hsp
    by (by apply computeSpeaking_level).
  split; [|split; [exact Hsp|]].
  - by apply (cadence_ok_reachable _ _ Hr h iv).
  - intros Hs w'. subst w'. rewrite <- Hsp.
    destruct (tick_sampled Math_log10 h frame w iv Hiv Hs) as (Ht & Hiv' & _).
    rewrite (new_effects_app _ _ _ Ht), Hiv'.
    split; [by left|]. split; [done|].
    apply speaking_messages_sample_effects.
Qed.

Lemma C6_speaking_decision_witness :
  let frame := repeat Byte.x01 207 ++ repeat Byte.x00 49 in
  let quiet := repeat Byte.x01 206 ++ repeat Byte.x00 50 in
  period (mkInterval true 200 false) = 200%Z
  ∧ (let w' := tick log10_reference 0 frame joined_d1 in
     GetByteFrequencyData ∈ new_effects joined_d1 w'
     ∧ lastSpeakingState <$> intervals w' !! 0 = Some true
     ∧ speaking_messages (new_effects joined_d1 w') = [true])
  ∧ (let w' := tick log10_reference 0 quiet joined_d1 in
     lastSpeakingState <$> intervals w' !! 0 = Some false
     ∧ speaking_messages (new_effects joined_d1 w') = []).
Proof.
  cbv zeta.
  destruct (C6_speaking_decision log10_reference 0
              (repeat Byte.x01 207 ++ repeat Byte.x00 49) joined_d1
              (mkInterval true 200 false) joined_d1_reachable eq_refl)
    as (Hp & Hsp & Hs); [vm_compute; lia|].
  destruct (C6_speaking_decision log10_reference 0
              (repeat Byte.x01 206 ++ repeat Byte.x00 50) joined_d1
              (mkInterval true 200 false) joined_d1_reachable eq_refl)
    as (_ & Hsq & Hq); [vm_compute; lia|].
  destruct (Hs eq_refl) as (H1 & H2 & H3).
  destruct (Hq eq_refl) as (_ & H4 & H5).
  rewrite <- Hsp in H2, H3. rewrite <- Hsq in H4, H5.
  split; [exact Hp|]. split.
  - split; [exact H1|]. split; [exact H2|exact H3].
  - split; [exact H4|exact H5].
Defined.

(** ** One link per remote user *)

Lemma links_ok_ext w w' :
  peerConnections w' = peerConnections w → pcs w' = pcs w →
  links_ok w → links_ok w'.
Proof. unfold links_ok. by intros -> ->. Qed.

Lemma links_ok_cleanupPeerConnection u w :
  links_ok w → links_ok (cleanupPeerConnection u w).2.
Proof.
  unfold cleanupPeerConnection, get_peerConnection.
  destruct (peerConnections w !! u) as [p|] eqn:Hu;
    [|by destruct (in_Object_prototype u)].
  intros [HI HJ]. split; world_simpl.
  - intros q c Hq Hopen. destruct (decide (q = p)) as [->|Hne].
    + rewrite list_lookup_alter_eq in Hq.
      destruct (pcs w !! p); [|done]. injection Hq as <-. by destruct Hopen.
    + rewrite list_lookup_alter_ne in Hq by done.
      specialize (HI q c Hq Hopen).
      rewrite lookup_delete_ne; [done|]. intros Heq. rewrite <- Heq in HI.
      congruence.
  - intros u' q Hu'. destruct (decide (u = u')) as [<-|Hne].
    + by rewrite lookup_delete_eq in Hu'.
    + rewrite lookup_delete_ne in Hu' by done.
      destruct (HJ u' q Hu') as (c & Hc & Hr & Ho). exists c.
      split; [|done]. rewrite list_lookup_alter_ne; [done|]. intros ->.
      destruct (HJ u q Hu) as (c' & Hc' & Hr' & _). congruence.
Qed.

Lemma cleanupPeerConnection_lookup u w :
  peerConnections (cleanupPeerConnection u w).2 !! u = None
  ∧ length (pcs (cleanupPeerConnection u w).2) = length (pcs w).
Proof.
  unfold cleanupPeerConnection, get_peerConnection.
  destruct (peerConnections w !! u) as [p|] eqn:Hu;
    [|by destruct (in_Object_prototype u)].
  world_simpl. by rewrite lookup_delete_eq, length_alter.
Qed.

Lemma links_ok_add u senders w :
  links_ok w → peerConnections w !! u = None →
  links_ok
    (set_peerConnections (<[u := length (pcs w)]> (peerConnections w))
       (set_pcs (pcs w ++ [mkPc u senders Stable]) w)).
Proof.
  intros [HI HJ] Hu. split; world_simpl.
  - intros q c Hq Hopen. rewrite lookup_app in Hq.
    destruct (pcs w !! q) as [c0|] eqn:Hq'.
    + injection Hq as <-. specialize (HI q c0 Hq' Hopen).
      rewrite lookup_insert_ne; [done|]. intros Heq. rewrite <- Heq in HI.
      congruence.
    + apply lookup_ge_None in Hq'.
      destruct (q - length (pcs w)) as [|n] eqn:Hn; [|done].
      injection Hq as <-. cbn [pc_remote].
      replace q with (length (pcs w)) by lia. apply lookup_insert_eq.
  - intros u' q Hu'. destruct (decide (u = u')) as [<-|Hne].
    + rewrite lookup_insert_eq in Hu'. injection Hu' as <-.
      eexists. split; [apply list_lookup_middle; done|done].
    + rewrite lookup_insert_ne in Hu' by done.
      destruct (HJ u' q Hu') as (c & Hc & Hr & Ho). exists c.
      split; [|done]. by apply lookup_app_l_Some.
Qed.

Lemma links_ok_set_signaling st u p w :
  st ≠ Closed → peerConnections w !! u = Some p →
  links_ok w → links_ok (set_pcs (alter (set_signaling st) p (pcs w)) w).
Proof.
  intros Hst Hu [HI HJ]. split; world_simpl.
  - intros q c Hq Hopen. destruct (decide (q = p)) as [->|Hne].
    + rewrite list_lookup_alter_eq in Hq.
      destruct (HJ u p Hu) as (c0 & Hc0 & Hr & _). rewrite Hc0 in Hq.
      injection Hq as <-. cbn [set_signaling pc_remote]. by rewrite Hr.
    + rewrite list_lookup_alter_ne in Hq by done. eauto.
  - intros u' q Hu'. destruct (HJ u' q Hu') as (c & Hc & Hr & Ho).
    destruct (decide (q = p)) as [->|Hne].
    + exists (set_signaling st c). rewrite list_lookup_alter_eq, Hc. done.
    + exists c. by rewrite list_lookup_alter_ne.
Qed.

Lemma links_ok_socket_emit m w : links_ok w → links_ok (socket_emit m w).
Proof. unfold socket_emit. by destruct (socket w). Qed.

Lemma links_ok_createPeerConnection u w :
  links_ok w → links_ok (createPeerConnection u w).2.
Proof.
  intros Hw. apply (links_ok_cleanupPeerConnection u) in Hw.
  destruct (cleanupPeerConnection_lookup u w) as [Hu _].
  unfold createPeerConnection. cbv zeta.
  set (w1 := (cleanupPeerConnection u w).2) in *.
  destruct ((cleanupPeerConnection u w).1); [|exact Hw].
  set (senders := match localStream w1 with
                  | Some st => if isMuted w1 then [] else getAudioTracks w1 st
                  | None => []
                  end).
  pose proof (links_ok_add u senders w1 Hw Hu) as Hadd.
  destruct (is_initiator _ u); cbn [snd]; [|exact Hadd].
  apply links_ok_socket_emit.
  eapply (links_ok_set_signaling HaveLocalOffer u); [done| |exact Hadd].
  world_simpl. apply lookup_insert_eq.
Qed.

Create HintDb links.

#[local] Hint Extern 1 (links_ok (foldl _ _ _)) =>
  apply foldl_preserves; [intros ? ? ?|] : links.
#[local] Hint Extern 5 (links_ok (_ ?w)) =>
  apply (links_ok_ext w); [reflexivity|reflexivity|] : links.
#[local] Hint Extern 5 (links_ok (_ _ ?w)) =>
  apply (links_ok_ext w); [reflexivity|reflexivity|] : links.
#[local] Hint Resolve links_ok_cleanupPeerConnection
  links_ok_createPeerConnection links_ok_socket_emit : links.

(** [op] keeps the links in order, by the operations it is made of. *)
Ltac links_op op := intros; unfold op; split_cases; eauto 30 with links.

Lemma links_ok_cleanupPeerConnections w :
  links_ok w → links_ok (cleanupPeerConnections w).
Proof. links_op cleanupPeerConnections. Qed.
#[local] Hint Resolve links_ok_cleanupPeerConnections : links.

Lemma links_ok_stopVoiceActivityDetection w :
  links_ok w → links_ok (stopVoiceActivityDetection w).
Proof. links_op stopVoiceActivityDetection. Qed.
#[local] Hint Resolve links_ok_stopVoiceActivityDetection : links.

Lemma links_ok_startVoiceActivityDetection w :
  links_ok w → links_ok (startVoiceActivityDetection w).
Proof. links_op startVoiceActivityDetection. Qed.
#[local] Hint Resolve links_ok_startVoiceActivityDetection : links.

Lemma links_ok_track_stop t w : links_ok w → links_ok (track_stop t w).
Proof. links_op track_stop. Qed.
#[local] Hint Resolve links_ok_track_stop : links.

Lemma links_ok_track_set_enabled b t w :
  links_ok w → links_ok (track_set_enabled b t w).
Proof. links_op track_set_enabled. Qed.
#[local] Hint Resolve links_ok_track_set_enabled : links.

Lemma links_ok_cleanupLocalStream w :
  links_ok w → links_ok (cleanupLocalStream w).
Proof. links_op cleanupLocalStream. Qed.
#[local] Hint Resolve links_ok_cleanupLocalStream : links.

Lemma links_ok_setupAudioContext g w :
  links_ok w → links_ok (setupAudioContext g w).
Proof. links_op setupAudioContext. Qed.
#[local] Hint Resolve links_ok_setupAudioContext : links.

Lemma links_ok_joinDiscussion d gum g w :
  links_ok w → links_ok (joinDiscussion d gum g w).2.
Proof.
  intros Hw. destruct (joinDiscussion_fields d gum g w) as (Hp & Hpcs & _).
  by apply (links_ok_ext w).
Qed.
#[local] Hint Resolve links_ok_joinDiscussion : links.

Lemma links_ok_leaveDiscussion w : links_ok w → links_ok (leaveDiscussion w).
Proof. links_op leaveDiscussion. Qed.
#[local] Hint Resolve links_ok_leaveDiscussion : links.

Lemma links_ok_toggleMute w : links_ok w → links_ok (toggleMute w).2.
Proof. links_op toggleMute. Qed.
#[local] Hint Resolve links_ok_toggleMute : links.

Lemma links_ok_on_disconnect w : links_ok w → links_ok (on_disconnect w).
Proof. links_op on_disconnect. Qed.
#[local] Hint Resolve links_ok_on_disconnect : links.

Lemma links_ok_socket_disconnect w :
  links_ok w → links_ok (socket_disconnect w).
Proof. links_op socket_disconnect. Qed.
#[local] Hint Resolve links_ok_socket_disconnect : links.

Lemma links_ok_on_answer from w : links_ok w → links_ok (on_answer from w).
Proof.
  intros Hw. unfold on_answer, get_peerConnection.
  destruct (peerConnections w !! from) as [pc|] eqn:Hpc;
    [|by destruct (in_Object_prototype from)].
  by apply (links_ok_set_signaling Stable from).
Qed.
#[local] Hint Resolve links_ok_on_answer : links.

Lemma links_ok_on_offer from accepted w :
  links_ok w → links_ok (on_offer from accepted w).
Proof.
  intros Hw. unfold on_offer. cbv zeta.
  set (created := match get_peerConnection from w with
                  | Undefined => createPeerConnection from w
                  | _ => (Returned tt, w)
                  end).
  assert (links_ok created.2) as Hw1.
  { subst created. destruct (get_peerConnection from w); eauto with links. }
  destruct (created.1); [|done].
  unfold get_peerConnection at 1.
  destruct (peerConnections created.2 !! from) as [pc|] eqn:Hpc;
    [|by destruct (in_Object_prototype from)].
  destruct accepted; [|done].
  apply links_ok_socket_emit. by apply (links_ok_set_signaling Stable from).
Qed.
#[local] Hint Resolve links_ok_on_offer : links.

Lemma links_ok_tick Math_log10 h frame w :
  links_ok w → links_ok (tick Math_log10 h frame w).
Proof.
  intros Hw. destruct (samples h w) eqn:Hs.
  - pose proof Hs as (iv & Hiv & _)%samples_true.
    destruct (tick_sampled Math_log10 h frame w iv Hiv Hs)
      as (_ & _ & _ & _ & _ & _ & _ & _ & _ & Hp & Hpcs & _).
    by apply (links_ok_ext w).
  - by rewrite tick_not_sampled.
Qed.

Lemma links_ok_step Math_log10 e w :
  links_ok w → links_ok (step Math_log10 e w).
Proof.
  intros Hw. destruct e; cbn [step]; try apply links_ok_tick; try done;
    unfold listener, initialize, onSpeakingChange, onUserJoined, onUserLeft,
      onConnected, onError, setMute, cleanup, on_connect, on_user_joined,
      on_user_left, on_ice_candidate, on_speaking, on_error, on_icecandidate,
      on_track;
    split_cases; eauto 30 with links.
Qed.

Lemma links_ok_reachable Math_log10 w :
  reachable Math_log10 w → links_ok w.
Proof.
  induction 1 as [|e w _ IH]; [|by apply links_ok_step].
  split; [by intros pc c|]. intros u pc Hu.
  change (peerConnections new_AudioService) with (∅ : gmap string nat) in Hu.
  by rewrite lookup_empty in Hu.
Qed.

(** C9: in every world the service can be in, two connections that are
    not closed are connections to different users, and each of them is the
    one stored for its user; and creating the connection for a user that
    has one stored does not throw, first closes the stored one ([PcClose]
    is among the effects, its state is [Closed]) and then stores a fresh
    connection in its place. *)
Theorem C9_one_link_per_identity Math_log10 w :
  reachable Math_log10 w →
  (∀ p q c c',
     pcs w !! p = Some c → pcs w !! q = Some c' →
     pc_signaling c ≠ Closed → pc_signaling c' ≠ Closed →
     pc_remote c = pc_remote c' → p = q)
  ∧ (∀ p c, pcs w !! p = Some c → pc_signaling c ≠ Closed →
       peerConnections w !! pc_remote c = Some p)
  ∧ (∀ u p,
       peerConnections w !! u = Some p →
       let w' := (createPeerConnection u w).2 in
       (createPeerConnection u w).1 = Returned tt
       ∧ PcClose p ∈ new_effects w w'
       ∧ pc_signaling <$> pcs w' !! p = Some Closed
       ∧ peerConnections w' !! u = Some (length (pcs w))
       ∧ p ≠ length (pcs w)).
Proof.
  intros Hr. pose proof (links_ok_reachable _ _ Hr) as [HI HJ].
  split; [|split; [exact HI|]].
  - intros p q c c' Hp Hq Hop Hoq Heq.
    pose proof (HI p c Hp Hop) as H1. pose proof (HI q c' Hq Hoq) as H2.
    rewrite Heq in H1. congruence.
  - intros u p Hu w'. subst w'.
    destruct (HJ u p Hu) as (c & Hc & _ & _).
    pose proof (lookup_lt_Some _ _ _ Hc) as Hlt.
    assert (get_peerConnection u w ≠ Inherited) as Hown
      by (by rewrite (get_peerConnection_Own u w p Hu)).
    rewrite (createPeerConnection_eq u w Hown), Hu. cbn [fst snd]. world_simpl.
    split; [done|]. split; [|split; [|split]].
    + erewrite new_effects_app by (world_simpl; reflexivity). by left.
    + rewrite lookup_app_l by (rewrite length_alter; lia).
      by rewrite list_lookup_alter_eq, Hc.
    + apply lookup_insert_eq.
    + lia.
Qed.

Lemma C9_one_link_per_identity_witness :
  let w' := (createPeerConnection "b" joined_d1).2 in
  (createPeerConnection "b" joined_d1).1 = Returned tt
  ∧ PcClose 0 ∈ new_effects joined_d1 w'
  ∧ pc_signaling <$> pcs w' !! 0 = Some Closed
  ∧ peerConnections w' !! "b" = Some 1
  ∧ 0 ≠ 1.
Proof.
  exact (proj2 (proj2 (C9_one_link_per_identity log10_reference joined_d1
                         joined_d1_reachable)) "b" 0 eq_refl).
Defined.

(** * Further properties of the service *)

(** ** Pushing an invariant through the operations

    [frame_solve ext special] proves that the world built by an operation
    satisfies an invariant that reads only some fields: [ext] says that the
    invariant only depends on these fields, [special] deals with the
    updates of these fields; everything else is peeled off from the
    outside. *)
Ltac frame_head t :=
  lazymatch t with
  | ?f _ => frame_head f
  | _ => t
  end.

Ltac frame_step ext special :=
  first
    [ assumption
    | special
    | lazymatch goal with
      | |- _ (match ?x with _ => _ end) => destruct x eqn:?
      | |- _ (snd (match ?x with _ => _ end)) => destruct x eqn:?
      | |- _ (snd (_, _)) => cbn [snd]
      | |- _ (foldl _ _ _) => apply foldl_preserves; [intros ? ? ?|]
      end
    | lazymatch goal with
      | |- _ (_ ?w) => apply (ext w); [reflexivity..|]
      end
    | lazymatch goal with
      | |- _ (snd ?t) =>
          let h := frame_head t in progress unfold h; unfold new_stream; cbv zeta
      | |- _ ?t =>
          let h := frame_head t in progress unfold h; unfold new_stream; cbv zeta
      end ].

Ltac frame_solve ext special := cbv zeta; repeat frame_step ext special.

(** ** The users map *)

Lemma users_keyed_ext w w' : users w' = users w → users_keyed w → users_keyed w'.
Proof. unfold users_keyed. by intros ->. Qed.

Lemma users_keyed_insert k name st tr b w :
  users_keyed w →
  users_keyed (set_users (<[k := mkAudioUser k name st tr b]> (users w)) w).
Proof.
  intros Hw k' u. world_simpl. destruct (decide (k = k')) as [<-|Hne].
  - rewrite lookup_insert_eq. by intros [= <-].
  - rewrite lookup_insert_ne by done. apply Hw.
Qed.

Lemma users_keyed_alter f k w :
  (∀ u, userId (f u) = userId u) →
  users_keyed w → users_keyed (set_users (alter f k (users w)) w).
Proof.
  intros Hf Hw k' u. world_simpl. destruct (decide (k = k')) as [<-|Hne].
  - rewrite lookup_alter_eq. destruct (users w !! k) as [u0|] eqn:Hu; [|done].
    intros [= <-]. rewrite Hf. by apply Hw.
  - rewrite lookup_alter_ne by done. apply Hw.
Qed.

Lemma users_keyed_delete k w :
  users_keyed w → users_keyed (set_users (delete k (users w)) w).
Proof.
  intros Hw k' u. world_simpl. destruct (decide (k = k')) as [<-|Hne].
  - by rewrite lookup_delete_eq.
  - rewrite lookup_delete_ne by done. apply Hw.
Qed.

Ltac users_special :=
  first [ apply users_keyed_insert
        | apply users_keyed_alter; [done|]
        | apply users_keyed_delete ].

Lemma users_keyed_step Math_log10 e w :
  users_keyed w → users_keyed (step Math_log10 e w).
Proof.
  intros Hw. destruct e; cbn [step]; frame_solve users_keyed_ext users_special.
Qed.

Lemma users_keyed_reachable Math_log10 w :
  reachable Math_log10 w → users_keyed w.
Proof.
  induction 1 as [|e w _ IH]; [|by apply users_keyed_step].
  intros k u Hk.
  change (users new_AudioService) with (∅ : gmap string AudioUser) in Hk.
  by rewrite lookup_empty in Hk.
Qed.

(** ** The audio graph *)

Lemma analyser_ok_ext w w' :
  audioAnalyser w' = audioAnalyser w → audioContext w' = audioContext w →
  analyser_ok w → analyser_ok w'.
Proof. unfold analyser_ok. by intros -> ->. Qed.

Ltac analyser_special :=
  solve [ unfold analyser_ok;
          cbn [audioAnalyser audioContext set_audioAnalyser set_audioContext];
          first [ intros _; reflexivity | intros [? ?]; discriminate ] ].

Lemma analyser_ok_step Math_log10 e w :
  analyser_ok w → analyser_ok (step Math_log10 e w).
Proof.
  intros Hw. destruct e; cbn [step];
    frame_solve analyser_ok_ext analyser_special.
Qed.

Lemma analyser_ok_reachable Math_log10 w :
  reachable Math_log10 w → analyser_ok w.
Proof.
  induction 1 as [|e w _ IH]; [|by apply analyser_ok_step]. by intros [? ?].
Qed.

(** ** The connection flag *)

Lemma connected_ok_ext w w' :
  socket w' = socket w → connected w' = connected w →
  connected_ok w → connected_ok w'.
Proof. unfold connected_ok. by intros -> ->. Qed.

Ltac connected_special :=
  solve [ unfold connected_ok;
          cbn [socket connected set_socket set_connected socket_id id];
          first [ intros _; solve [eauto] | intros ?; discriminate ] ].

Lemma connected_ok_leaveDiscussion w :
  connected_ok w → connected_ok (leaveDiscussion w).
Proof. intros Hw. frame_solve connected_ok_ext connected_special. Qed.

Lemma socket_disconnect_connected w :
  connected_ok w → connected (socket_disconnect w) = false.
Proof.
  intros Hw. unfold socket_disconnect, on_disconnect. cbv zeta.
  destruct (socket_id (socket (emit SocketDisconnect w))) eqn:Hid.
  - by rewrite cleanupPeerConnections_eq.
  - destruct (connected w) eqn:Hc; [|done].
    destruct (Hw Hc) as [sid Hsid]. world_simpl. congruence.
Qed.

Lemma connected_ok_step Math_log10 e w :
  connected_ok w → connected_ok (step Math_log10 e w).
Proof.
  intros Hw. destruct e; cbn [step];
    try (frame_solve connected_ok_ext connected_special; fail).
  - (* initialize *)
    unfold initialize. cbv zeta. intros Hc. world_simpl.
    destruct (socket w) as [so|] eqn:Hso.
    + by rewrite socket_disconnect_connected in Hc.
    + destruct (Hw Hc) as [sid Hsid]. by rewrite Hso in Hsid.
  - (* cleanup *)
    apply connected_ok_leaveDiscussion in Hw.
    unfold cleanup. cbv zeta.
    destruct (socket (leaveDiscussion w)) as [so|] eqn:Hso; [|done].
    intros Hc. world_simpl. by rewrite socket_disconnect_connected in Hc.
Qed.

Lemma connected_ok_reachable Math_log10 w :
  reachable Math_log10 w → connected_ok w.
Proof.
  induction 1 as [|e w _ IH]; [done|by apply connected_ok_step].
Qed.

(** ** Membership events *)

(** The world after a ['user-left'] listener that does not throw. *)
Lemma on_user_left_fields u w :
  get_peerConnection u w ≠ Inherited →
  let w' := on_user_left u w in
  users w' = delete u (users w)
  ∧ peerConnections w' = delete u (peerConnections w)
  ∧ (∀ pc, peerConnections w !! u = Some pc →
       pcs w' !! pc = close_pc <$> pcs w !! pc)
  ∧ (∀ pc, peerConnections w !! u ≠ Some pc → pcs w' !! pc = pcs w !! pc)
  ∧ new_effects w w'
    = match peerConnections w !! u with
      | Some pc => [PcClose pc]
      | None => []
      end
      ++ match users w !! u with
         | Some _ => if onUserLeftCallback w then [CallOnUserLeft u] else []
         | None => []
         end.
Proof.
  unfold on_user_left, cleanupPeerConnection, get_peerConnection. cbv zeta.
  destruct (peerConnections w !! u) as [pc|] eqn:Hpc;
    [intros _|destruct (in_Object_prototype u); [done|intros _]];
    cbn [fst snd]; world_simpl.
  - assert (∀ w' : World,
      trace w' = (trace w ++ [PcClose pc])
                 ++ match users w !! u with
                    | Some _ =>
                        if onUserLeftCallback w then [CallOnUserLeft u] else []
                    | None => []
                    end →
      new_effects w w'
      = [PcClose pc]
        ++ match users w !! u with
           | Some _ => if onUserLeftCallback w then [CallOnUserLeft u] else []
           | None => []
           end) as Htr.
    { intros w' Hw'. apply new_effects_app. by rewrite Hw', <- app_assoc. }
    destruct (users w !! u); [destruct (onUserLeftCallback w)|]; world_simpl;
      (split; [done|]); (split; [done|]);
      (split; [by intros ? [= <-]; rewrite list_lookup_alter_eq|]);
      (split; [intros pc' Hne; rewrite list_lookup_alter_ne; congruence|]);
      apply Htr; world_simpl; by rewrite ?app_nil_r.
  - rewrite (delete_id (peerConnections w)) by done.
    destruct (users w !! u); [destruct (onUserLeftCallback w)|]; world_simpl;
      repeat split; try done;
      apply new_effects_app; world_simpl; by rewrite ?app_nil_r.
Qed.

Lemma on_user_left_throws u w :
  get_peerConnection u w = Inherited → on_user_left u w = w.
Proof.
  intros Hu. unfold on_user_left, cleanupPeerConnection. cbv zeta.
  by rewrite Hu.
Qed.

(** The world after the ['user-joined'] listener. *)
Lemma on_user_joined_fields u name w :
  get_peerConnection u w ≠ Inherited →
  let w' := on_user_joined u name w in
  users w' = <[u := mkAudioUser u name None None false]> (users w)
  ∧ peerConnections w' = <[u := length (pcs w)]> (peerConnections w)
  ∧ pcs w'
    = match peerConnections w !! u with
      | Some pc => alter close_pc pc (pcs w)
      | None => pcs w
      end
      ++ [mkPc u (new_senders w)
            (if is_initiator (socket w) u then HaveLocalOffer else Stable)]
  ∧ new_effects w w'
    = match peerConnections w !! u with
      | Some pc => [PcClose pc]
      | None => []
      end
      ++ (if is_initiator (socket w) u then [SocketEmit (OfferMsg u)] else [])
      ++ (if onUserJoinedCallback w then [CallOnUserJoined u] else []).
Proof.
  intros Hu. unfold on_user_joined. cbv zeta.
  rewrite createPeerConnection_eq by exact Hu. cbn [fst snd].
  world_simpl.
  destruct (onUserJoinedCallback w); world_simpl;
    (split; [done|]); (split; [done|]); (split; [done|]);
    apply new_effects_app; world_simpl; by rewrite <- ?app_assoc, ?app_nil_r.
Qed.

Lemma on_user_joined_throws u name w :
  get_peerConnection u w = Inherited →
  on_user_joined u name w
  = set_users (<[u := mkAudioUser u name None None false]> (users w)) w.
Proof.
  intros Hu. unfold on_user_joined. cbv zeta.
  by rewrite createPeerConnection_throws by exact Hu.
Qed.

(** X1: when a user leaves, its link (if one is stored) is closed and
    removed and its entry in [users] is dropped; the links and entries of
    the other users stay as they are; the user-left callback is called
    exactly when the user was known and a callback is registered. For a
    name that only [Object.prototype] has, the listener throws at
    [pc.close()] before anything is done: an entry in [users] under that
    name stays. *)
Theorem user_left_removes u w :
  let w' := on_user_left u w in
  (get_peerConnection u w ≠ Inherited →
     users w' = delete u (users w)
     ∧ peerConnections w' = delete u (peerConnections w)
     ∧ (∀ pc, peerConnections w !! u = Some pc →
          pcs w' !! pc
          = (λ c, mkPc (pc_remote c) (pc_senders c) Closed) <$> pcs w !! pc)
     ∧ (∀ pc, peerConnections w !! u ≠ Some pc → pcs w' !! pc = pcs w !! pc)
     ∧ new_effects w w'
       = match peerConnections w !! u with
         | Some pc => [PcClose pc]
         | None => []
         end
         ++ match users w !! u with
            | Some _ => if onUserLeftCallback w then [CallOnUserLeft u] else []
            | None => []
            end)
  ∧ (get_peerConnection u w = Inherited → w' = w).
Proof. split; [apply on_user_left_fields|apply on_user_left_throws]. Qed.

Lemma user_left_removes_witness :
  (users (on_user_left "b" joined_d1) !! "b" = None
   ∧ pcs (on_user_left "b" joined_d1) !! 0 = Some (mkPc "b" [0] Closed))
  ∧ on_user_left "toString" joined_d1 = joined_d1.
Proof.
  destruct (user_left_removes "b" joined_d1) as [H _].
  destruct H as (Hu & _ & Hc & _); [discriminate|].
  split.
  - split; [rewrite Hu; apply lookup_delete_eq|]. apply (Hc 0). reflexivity.
  - apply (proj2 (user_left_removes "toString" joined_d1)). reflexivity.
Defined.

(** X2: when a user joins, it is entered in [users] as not speaking
    (replacing an entry it had). Then a connection stored for it is closed
    and a fresh connection to it is stored, with the local audio tracks as
    senders unless the service is muted or has no stream; the offer is sent
    exactly when this side is the initiator, and the user-joined callback
    is called exactly when one is registered. For a name that only
    [Object.prototype] has, the creation of the connection throws: no link
    is stored, nothing is sent and the callback is not called. *)
Theorem user_joined_adds u name w :
  let w' := on_user_joined u name w in
  users w' = <[u := mkAudioUser u name None None false]> (users w)
  ∧ (get_peerConnection u w ≠ Inherited →
       peerConnections w' = <[u := length (pcs w)]> (peerConnections w)
       ∧ pcs w'
         = match peerConnections w !! u with
           | Some pc =>
               alter (λ c, mkPc (pc_remote c) (pc_senders c) Closed) pc (pcs w)
           | None => pcs w
           end
           ++ [mkPc u (new_senders w)
                 (if is_initiator (socket w) u then HaveLocalOffer else Stable)]
       ∧ new_effects w w'
         = match peerConnections w !! u with
           | Some pc => [PcClose pc]
           | None => []
           end
           ++ (if is_initiator (socket w) u then [SocketEmit (OfferMsg u)] else [])
           ++ (if onUserJoinedCallback w then [CallOnUserJoined u] else []))
  ∧ (get_peerConnection u w = Inherited →
       peerConnections w' = peerConnections w ∧ pcs w' = pcs w
       ∧ new_effects w w' = []).
Proof.
  intros w'. subst w'. split; [|split].
  - destruct (get_peerConnection u w) eqn:Hu.
    + apply on_user_joined_fields. by rewrite Hu.
    + by rewrite on_user_joined_throws.
    + apply on_user_joined_fields. by rewrite Hu.
  - intros Hu. by destruct (on_user_joined_fields u name w Hu) as (_ & ? & ? & ?).
  - intros Hu. rewrite on_user_joined_throws by done. world_simpl.
    split; [done|]. split; [done|].
    apply new_effects_app. world_simpl. by rewrite app_nil_r.
Qed.

Lemma user_joined_adds_witness :
  let w := onUserJoined (connected_manager "a" "alice" "a") in
  new_effects w (on_user_joined "b" "bob" w)
  = [SocketEmit (OfferMsg "b"); CallOnUserJoined "b"]
  ∧ new_effects w (on_user_joined "valueOf" "bob" w) = []
  ∧ is_Some (users (on_user_joined "valueOf" "bob" w) !! "valueOf").
Proof.
  destruct (user_joined_adds "b" "bob"
              (onUserJoined (connected_manager "a" "alice" "a")))
    as (_ & H & _).
  destruct H as (_ & _ & He); [discriminate|].
  destruct (user_joined_adds "valueOf" "bob"
              (onUserJoined (connected_manager "a" "alice" "a")))
    as (Hu & _ & H').
  destruct (H' eq_refl) as (_ & _ & He').
  split; [exact He|]. split; [exact He'|].
  rewrite Hu, lookup_insert_eq. by eexists.
Defined.

(** X3: a user that was unknown and had no link, joins and leaves again:
    the users and the stored links are what they were, and the connection
    made for it in between is closed, the others untouched. A user whose
    name [Object.prototype] has stays in [users] instead: both listeners
    throw, no connection is made and nothing is sent or called. *)
Theorem user_joined_then_left u name w :
  users w !! u = None → peerConnections w !! u = None →
  let w' := on_user_left u (on_user_joined u name w) in
  (in_Object_prototype u = false →
     users w' = users w
     ∧ peerConnections w' = peerConnections w
     ∧ pcs w' = pcs w ++ [mkPc u (new_senders w) Closed])
  ∧ (in_Object_prototype u = true →
       users w' = <[u := mkAudioUser u name None None false]> (users w)
       ∧ peerConnections w' = peerConnections w
       ∧ pcs w' = pcs w
       ∧ new_effects w w' = []).
Proof.
  intros Hu Hpc w'. split.
  - intros Hord.
    pose proof (get_peerConnection_ordinary u w Hord) as Hw.
    pose proof (get_peerConnection_ordinary u (on_user_joined u name w) Hord)
      as Hw1.
    destruct (on_user_joined_fields u name w Hw) as (Hj1 & Hj2 & Hj3 & _).
    rewrite Hpc in Hj3.
    destruct (on_user_left_fields u (on_user_joined u name w) Hw1)
      as (Husers & Hlinks & Hclosed & Hother & _).
    fold w' in Husers, Hlinks, Hclosed, Hother.
    split; [|split].
    + rewrite Husers, Hj1, delete_insert_eq. by apply delete_id.
    + rewrite Hlinks, Hj2, delete_insert_eq. by apply delete_id.
    + apply list_eq. intros pc.
      destruct (decide (pc = length (pcs w))) as [->|Hne].
      * rewrite Hclosed by (by rewrite Hj2, lookup_insert_eq).
        rewrite Hj3, !list_lookup_middle by done. by destruct (is_initiator _ _).
      * rewrite Hother by (rewrite Hj2, lookup_insert_eq; congruence).
        rewrite Hj3. destruct (decide (pc < length (pcs w))) as [Hlt|Hge].
        -- by rewrite !lookup_app_l by done.
        -- rewrite !lookup_app_r by lia.
           destruct (pc - length (pcs w)) as [|k] eqn:Hk; [lia|done].
  - intros Hproto.
    assert (get_peerConnection u w = Inherited) as Hw
      by (by apply get_peerConnection_Inherited).
    subst w'. rewrite (on_user_joined_throws u name w Hw).
    rewrite on_user_left_throws
      by (apply get_peerConnection_Inherited; by world_simpl).
    world_simpl. repeat (split; [done|]).
    apply new_effects_app. world_simpl. by rewrite app_nil_r.
Qed.

Lemma user_joined_then_left_witness :
  let w := onError (connected_manager "a" "alice" "a") in
  (let w' := on_user_left "b" (on_user_joined "b" "bob" w) in
   users w' = users w ∧ peerConnections w' = peerConnections w
   ∧ pcs w' = [mkPc "b" [] Closed])
  ∧ (let w' := on_user_left "constructor" (on_user_joined "constructor" "eve" w) in
     users w' !! "constructor"
     = Some (mkAudioUser "constructor" "eve" None None false)
     ∧ pcs w' = []).
Proof.
  split.
  - exact (proj1 (user_joined_then_left "b" "bob"
                    (onError (connected_manager "a" "alice" "a"))
                    eq_refl eq_refl) eq_refl).
  - destruct (proj2 (user_joined_then_left "constructor" "eve"
                       (onError (connected_manager "a" "alice" "a"))
                       eq_refl eq_refl) eq_refl) as (Hu & _ & Hp & _).
    split; [|exact Hp]. cbv zeta. rewrite Hu. apply lookup_insert_eq.
Defined.

(** ** Signalling *)

(** X4: an offer from a user for which the read finds nothing makes the
    listener create the link first (sending its own offer if this side is
    the initiator); an offer from a user with a stored link is handled on
    that link, which is neither closed nor replaced. Either way the
    answer is sent, as the last thing, exactly when the platform takes the
    remote offer. An offer from a name that only [Object.prototype] has
    creates nothing and answers nothing: the listener throws at
    [pc.setRemoteDescription]. *)
Theorem offer_creates_or_reuses from accepted w :
  is_Some (socket w) →
  let w' := on_offer from accepted w in
  let answer := if accepted then [SocketEmit (AnswerMsg from)] else [] in
  match get_peerConnection from w with
  | Own pc =>
      peerConnections w' = peerConnections w
      ∧ length (pcs w') = length (pcs w)
      ∧ new_effects w w' = answer
  | Undefined =>
      peerConnections w' = <[from := length (pcs w)]> (peerConnections w)
      ∧ length (pcs w') = S (length (pcs w))
      ∧ pc_remote <$> pcs w' !! length (pcs w) = Some from
      ∧ pc_senders <$> pcs w' !! length (pcs w) = Some (new_senders w)
      ∧ new_effects w w'
        = (if is_initiator (socket w) from
           then [SocketEmit (OfferMsg from)] else [])
          ++ answer
  | Inherited => w' = w
  end.
Proof.
  intros [so Hso] w' answer. subst w' answer. unfold on_offer. cbv zeta.
  destruct (get_peerConnection from w) eqn:Hget; cbn [fst snd].
  - rewrite Hget. destruct accepted.
    + unfold socket_emit. world_simpl. rewrite Hso. world_simpl.
      split; [done|]. split; [by rewrite length_alter|].
      by apply new_effects_app.
    + split; [done|]. split; [done|]. apply new_effects_refl.
  - by rewrite Hget.
  - assert (peerConnections w !! from = None) as Hpc.
    { unfold get_peerConnection in Hget.
      by destruct (peerConnections w !! from). }
    rewrite createPeerConnection_eq by (by rewrite Hget). cbn [fst snd].
    rewrite (get_peerConnection_Own from _ (length (pcs w)))
      by (world_simpl; apply lookup_insert_eq).
    rewrite Hpc.
    destruct accepted.
    + unfold socket_emit. world_simpl. rewrite Hso. world_simpl.
      assert (∀ c, alter (set_signaling Stable) (length (pcs w)) (pcs w ++ [c])
                   = pcs w ++ [set_signaling Stable c]) as ->.
      { intros c. rewrite <- (Nat.add_0_r (length (pcs w))) at 1.
        by rewrite alter_app_r. }
      rewrite list_lookup_middle by done.
      split; [done|]. split; [rewrite length_app; cbn; lia|].
      split; [done|]. split; [done|].
      apply new_effects_app. world_simpl. cbn [app].
      by rewrite <- ?app_assoc.
    + world_simpl. rewrite list_lookup_middle by done.
      split; [done|]. split; [rewrite length_app; cbn; lia|].
      split; [done|]. split; [done|].
      apply new_effects_app. world_simpl. cbn [app].
      by rewrite ?app_nil_r.
Qed.

Lemma offer_creates_or_reuses_witness :
  let w := onError (connected_manager "b" "bob" "b") in
  (let w' := on_offer "a" true w in
   peerConnections w' = <["a" := 0]> (peerConnections w)
   ∧ length (pcs w') = 1
   ∧ pc_remote <$> pcs w' !! 0 = Some "a"
   ∧ pc_senders <$> pcs w' !! 0 = Some []
   ∧ new_effects w w' = [SocketEmit (AnswerMsg "a")])
  ∧ new_effects w (on_offer "c" false w) = [SocketEmit (OfferMsg "c")]
  ∧ on_offer "toString" true w = w.
Proof.
  split; [|split].
  - exact (offer_creates_or_reuses "a" true
             (onError (connected_manager "b" "bob" "b"))
             (mk_is_Some _ _ eq_refl)).
  - exact (proj2 (proj2 (proj2 (proj2
             (offer_creates_or_reuses "c" false
                (onError (connected_manager "b" "bob" "b"))
                (mk_is_Some _ _ eq_refl)))))).
  - exact (offer_creates_or_reuses "toString" true
             (onError (connected_manager "b" "bob" "b"))
             (mk_is_Some _ _ eq_refl)).
Defined.

(** X5: a speaking message for a known user sets the [isSpeaking] flag of
    that user's entry to the state it carries, keeps the rest of the entry
    and every other entry, and calls the speaking-changed callback if one
    is registered; for an unknown user it changes nothing. *)
Theorem speaking_updates_one_user u b w :
  let w' := on_speaking u b w in
  match users w !! u with
  | Some usr =>
      users w' !! u
      = Some (mkAudioUser (userId usr) (username usr) (stream usr)
                (audioTrack usr) b)
      ∧ (∀ u', u' ≠ u → users w' !! u' = users w !! u')
      ∧ new_effects w w'
        = (if onSpeakingChangeCallback w then [CallOnSpeakingChange u b] else [])
  | None => w' = w
  end.
Proof.
  unfold on_speaking. cbv zeta.
  destruct (users w !! u) as [usr|] eqn:Hu; [|done].
  world_simpl. destruct (onSpeakingChangeCallback w); world_simpl;
    (split; [by rewrite lookup_alter_eq, Hu|]);
    (split; [by intros u' Hne; rewrite lookup_alter_ne|]);
    apply new_effects_app; world_simpl; by rewrite ?app_nil_r.
Qed.

Lemma speaking_updates_one_user_witness :
  let w := onSpeakingChange joined_d1 in
  let w' := on_speaking "b" true w in
  users w' !! "b" = Some (mkAudioUser "b" "bob" None None true)
  ∧ (∀ u', u' ≠ "b" → users w' !! u' = users w !! u')
  ∧ new_effects w w' = [CallOnSpeakingChange "b" true].
Proof. exact (speaking_updates_one_user "b" true (onSpeakingChange joined_d1)). Defined.

(** ** A successful join *)

(** The world after a [joinDiscussion] whose capture succeeds. *)
Lemma joinDiscussion_success_eq d ts g w :
  is_Some (socket w) → connected w = true →
  let started := bool_decide (is_Some (audioAnalyser (setupAudioContext g w))) in
  joinDiscussion d (Some ts) g w
  = (Returned true,
     set_voiceActivityDetectionInterval
       (if started then Some (length (intervals w))
        else voiceActivityDetectionInterval w)
       (set_intervals
          (if started then intervals w ++ [mkInterval true 200 false]
           else intervals w)
          (set_trace
             (trace w
              ++ [GetUserMedia; SocketEmit (JoinDiscussionMsg d)]
              ++ (if started then [SetInterval (length (intervals w)) 200]
                  else []))
             (set_localStream (Some (seq (length (tracks w)) (length ts)))
                (set_audioAnalyser (audioAnalyser (setupAudioContext g w))
                   (set_audioContext (audioContext (setupAudioContext g w))
                      (set_microphoneAccessGranted true
                         (set_tracks (tracks w ++ ts)
                            (set_discussionId (Some d) w))))))))).
Proof.
  intros [so Hso] Hc started. subst started.
  unfold joinDiscussion, new_stream, socket_emit, startVoiceActivityDetection.
  rewrite Hso, Hc. cbv zeta. cbn [negb].
  unfold setupAudioContext.
  destruct g; world_simpl; rewrite ?Hso; world_simpl;
    try destruct (audioAnalyser w) eqn:Han; world_simpl;
    rewrite ?bool_decide_eq_true_2 by eauto;
    rewrite ?bool_decide_eq_false_2 by (by intros [? ?]);
    f_equal; world_ext; rewrite ?Han; try done;
    rewrite <- ?app_assoc; cbn [app]; by rewrite ?app_nil_r.
Qed.

(** X6: a [joinDiscussion] on a connected manager whose capture succeeds
    returns [true]; it stores the discussion identifier and the captured
    stream (whose tracks are new on the heap and left as captured), marks
    the microphone as granted, asks for the microphone and then sends the
    join message, and, when an analyser exists after the audio graph was
    set up, starts one detector with [lastSpeakingState = false] and stores
    its handle. *)
Theorem join_success d ts g w :
  is_Some (socket w) → connected w = true →
  let w' := (joinDiscussion d (Some ts) g w).2 in
  let h := length (intervals w) in
  (joinDiscussion d (Some ts) g w).1 = Returned true
  ∧ discussionId w' = Some d
  ∧ localStream w' = Some (seq (length (tracks w)) (length ts))
  ∧ tracks w' = tracks w ++ ts
  ∧ microphoneAccessGranted w' = true
  ∧ isMuted w' = isMuted w
  ∧ match audioAnalyser w' with
    | Some _ =>
        new_effects w w'
        = [GetUserMedia; SocketEmit (JoinDiscussionMsg d); SetInterval h 200]
        ∧ voiceActivityDetectionInterval w' = Some h
        ∧ intervals w' = intervals w ++ [mkInterval true 200 false]
    | None =>
        new_effects w w' = [GetUserMedia; SocketEmit (JoinDiscussionMsg d)]
        ∧ voiceActivityDetectionInterval w' = voiceActivityDetectionInterval w
        ∧ intervals w' = intervals w
    end.
Proof.
  intros Hso Hc w' h. subst w' h.
  rewrite (joinDiscussion_success_eq d ts g w Hso Hc). world_simpl.
  repeat (split; [done|]).
  destruct (audioAnalyser (setupAudioContext g w)) eqn:Han.
  - rewrite bool_decide_eq_true_2 by eauto.
    split; [by apply new_effects_app|done].
  - rewrite bool_decide_eq_false_2 by (by intros [? ?]).
    split; [|done]. apply new_effects_app. world_simpl. by rewrite app_nil_r.
Qed.

Lemma join_success_witness :
  let w := onError (connected_manager "a" "alice" "a") in
  let w' := (joinDiscussion "d1" (Some [mic]) GraphBuilt w).2 in
  (joinDiscussion "d1" (Some [mic]) GraphBuilt w).1 = Returned true
  ∧ discussionId w' = Some "d1"
  ∧ localStream w' = Some [0]
  ∧ tracks w' = [mic]
  ∧ new_effects w w'
    = [GetUserMedia; SocketEmit (JoinDiscussionMsg "d1"); SetInterval 0 200]
  ∧ voiceActivityDetectionInterval w' = Some 0.
Proof.
  destruct (join_success "d1" [mic] GraphBuilt
              (onError (connected_manager "a" "alice" "a"))
              (mk_is_Some _ _ eq_refl) eq_refl)
    as (H1 & H2 & H3 & H4 & _ & _ & H5 & H6 & _).
  repeat split; assumption.
Defined.

(** X7: when the audio graph cannot be built and no analyser is left from
    before, [joinDiscussion] still returns [true] and sends the join
    message, but starts no detector: no interval is created, and no firing
    of any interval reads a frame or reports anything. *)
Theorem join_without_audio_graph Math_log10 d ts g w :
  is_Some (socket w) → connected w = true →
  audioAnalyser w = None → g ≠ GraphBuilt →
  let w' := (joinDiscussion d (Some ts) g w).2 in
  (joinDiscussion d (Some ts) g w).1 = Returned true
  ∧ new_effects w w' = [GetUserMedia; SocketEmit (JoinDiscussionMsg d)]
  ∧ intervals w' = intervals w
  ∧ voiceActivityDetectionInterval w' = voiceActivityDetectionInterval w
  ∧ ∀ h frame, tick Math_log10 h frame w' = w'.
Proof.
  intros Hso Hc Han Hg w'. subst w'.
  assert (audioAnalyser (setupAudioContext g w) = None) as Han'.
  { by destruct g. }
  rewrite (joinDiscussion_success_eq d ts g w Hso Hc). world_simpl.
  rewrite Han', bool_decide_eq_false_2 by (by intros [? ?]).
  split; [done|]. split.
  { apply new_effects_app. world_simpl. by rewrite app_nil_r. }
  split; [done|]. split; [done|].
  intros h frame. apply tick_not_sampled. unfold samples. world_simpl.
  destruct (intervals w !! h); [|done].
  rewrite bool_decide_eq_false_2 by (by intros [? ?]).
  by rewrite andb_false_r.
Qed.

Lemma join_without_audio_graph_witness :
  let w := onError (connected_manager "a" "alice" "a") in
  let w' := (joinDiscussion "d1" (Some [mic]) ContextFailed w).2 in
  (joinDiscussion "d1" (Some [mic]) ContextFailed w).1 = Returned true
  ∧ new_effects w w' = [GetUserMedia; SocketEmit (JoinDiscussionMsg "d1")]
  ∧ intervals w' = []
  ∧ tick log10_reference 0 loud_frame w' = w'.
Proof.
  destruct (join_without_audio_graph log10_reference "d1" [mic] ContextFailed
              (onError (connected_manager "a" "alice" "a"))
              (mk_is_Some _ _ eq_refl) eq_refl eq_refl)
    as (H1 & H2 & H3 & _ & H5); [discriminate|].
  split; [exact H1|]. split; [exact H2|]. split; [exact H3|]. apply H5.
Defined.

(** ** After leaving *)









(** X8: in every world the service can be in, once a joined discussion
    was left no firing of any interval reads a frame or reports anything,
    whether the interval was cancelled or not: the analyser is gone. *)
Theorem leave_silences_every_detector Math_log10 w :
  reachable Math_log10 w → joined w = true →
  let w' := leaveDiscussion w in
  audioAnalyser w' = None
  ∧ ∀ Math_log10' h frame, tick Math_log10' h frame w' = w'.
Proof.
  intros Hr (Hso & d & Hd & Hne)%joined_true w'. subst w'.
  pose proof (analyser_ok_reachable _ _ Hr) as Han.
  assert (audioAnalyser (leaveDiscussion w) = None) as Hnone.
  { rewrite (leaveDiscussion_joined w d Hso Hd Hne). world_simpl.
    destruct (audioContext w) eqn:Hc; [done|].
    destruct (audioAnalyser w) eqn:Ha; [|done].
    rewrite Han in Hc by eauto. done. }
  split; [done|]. intros log' h frame.
  apply tick_not_sampled. unfold samples. rewrite Hnone.
  destruct (intervals (leaveDiscussion w) !! h); [|done].
  rewrite bool_decide_eq_false_2 by (by intros [? ?]).
  by rewrite andb_false_r.
Qed.

Lemma leave_silences_every_detector_witness :
  audioAnalyser (leaveDiscussion joined_d1) = None
  ∧ tick log10_reference 0 loud_frame (leaveDiscussion joined_d1)
    = leaveDiscussion joined_d1.
Proof.
  destruct (leave_silences_every_detector log10_reference joined_d1
              joined_d1_reachable eq_refl) as [H1 H2].
  split; [exact H1|apply H2].
Defined.

(** X9: [joinDiscussion] never cancels a detector or stops a stream, and
    [leaveDiscussion] cancels only the detector whose handle is stored and
    stops only the stored stream. So after two successful joins in a row
    and a leave, the detector started by the first join is still active
    while the one started by the second is cancelled, and only the tracks
    of the second capture were stopped (the stored connections are closed
    in the order of [Object.keys]); and after one more join (not muted) the
    old detector and the new one both read frames. *)
Theorem rejoin_leaves_interval_running d1 d2 d3 ts1 ts2 ts3 w :
  is_Some (socket w) → connected w = true → d2 ≠ "" →
  let h := length (intervals w) in
  let w1 := (joinDiscussion d1 (Some ts1) GraphBuilt w).2 in
  let w2 := (joinDiscussion d2 (Some ts2) GraphBuilt w1).2 in
  let w3 := leaveDiscussion w2 in
  let w4 := (joinDiscussion d3 (Some ts3) GraphBuilt w3).2 in
  voiceActivityDetectionInterval w1 = Some h
  ∧ voiceActivityDetectionInterval w2 = Some (S h)
  ∧ new_effects w2 w3
    = [ClearInterval (S h); SocketEmit (LeaveDiscussionMsg d2)]
      ++ (PcClose <$> Object_values (peerConnections w))
      ++ (TrackStop <$> seq (length (tracks w) + length ts1) (length ts2))
      ++ [AudioContextClose]
  ∧ intervals w3 !! h = Some (mkInterval true 200 false)
  ∧ intervals w3 !! S h = Some (mkInterval false 200 false)
  ∧ (isMuted w = false →
       samples h w4 = true ∧ samples (S (S h)) w4 = true).
Proof.
  intros Hso Hc Hne h w1 w2 w3 w4.
  assert (∀ d ts w0, is_Some (socket w0) → connected w0 = true →
    let w' := (joinDiscussion d (Some ts) GraphBuilt w0).2 in
    is_Some (socket w') ∧ connected w' = true
    ∧ discussionId w' = Some d
    ∧ voiceActivityDetectionInterval w' = Some (length (intervals w0))
    ∧ intervals w' = intervals w0 ++ [mkInterval true 200 false]
    ∧ peerConnections w' = peerConnections w0
    ∧ localStream w' = Some (seq (length (tracks w0)) (length ts))
    ∧ tracks w' = tracks w0 ++ ts
    ∧ audioContext w' = true ∧ is_Some (audioAnalyser w')
    ∧ isMuted w' = isMuted w0) as Hjoin.
  { intros d ts w0 Hso0 Hc0.
    rewrite (joinDiscussion_success_eq d ts GraphBuilt w0 Hso0 Hc0).
    world_simpl. rewrite bool_decide_eq_true_2 by (cbn; eauto).
    cbn. eauto 20. }
  destruct (Hjoin d1 ts1 w Hso Hc)
    as (Hso1 & Hc1 & _ & Hh1 & Hi1 & Hp1 & _ & Ht1 & _ & _ & Hm1).
  fold w1 in Hso1, Hc1, Hh1, Hi1, Hp1, Ht1, Hm1.
  destruct (Hjoin d2 ts2 w1 Hso1 Hc1)
    as (Hso2 & Hc2 & Hd2 & Hh2 & Hi2 & Hp2 & Hs2 & Ht2 & Hx2 & _ & Hm2).
  fold w2 in Hso2, Hc2, Hd2, Hh2, Hi2, Hp2, Hs2, Ht2, Hx2, Hm2.
  assert (length (intervals w1) = S h) as Hlen1.
  { rewrite Hi1, length_app. cbn. subst h. lia. }
  rewrite Hlen1 in Hh2.
  pose proof (leaveDiscussion_joined w2 d2 Hso2 Hd2 Hne) as Hleave.
  fold w3 in Hleave.
  assert (intervals w3
          = intervals w ++ [mkInterval true 200 false; mkInterval false 200 false])
    as Hi3.
  { rewrite Hleave. world_simpl. rewrite Hh2, Hi2, Hi1, <- app_assoc.
    cbn [app]. rewrite <- Hlen1, Hi1.
    replace (length (intervals w ++ [mkInterval true 200 false]))
      with (length (intervals w) + 1) by (rewrite length_app; cbn; lia).
    rewrite alter_app_r. done. }
  split; [done|]. split; [done|]. split.
  { rewrite Hleave. apply new_effects_app. world_simpl.
    unfold leave_effects. rewrite Hh2, Hs2, Hx2, Hp2, Hp1, Ht1, length_app.
    reflexivity. }
  split. { rewrite Hi3. by apply list_lookup_middle. }
  split.
  { rewrite Hi3. rewrite (lookup_app_r (intervals w)) by (subst h; lia).
    replace (S h - length (intervals w)) with 1 by (subst h; lia). done. }
  intros Hm.
  assert (is_Some (socket w3) ∧ connected w3 = true ∧ isMuted w3 = false)
    as (Hso3 & Hc3 & Hm3).
  { rewrite Hleave. world_simpl. by rewrite Hm2, Hm1. }
  destruct (Hjoin d3 ts3 w3 Hso3 Hc3)
    as (Hso4 & _ & _ & _ & Hi4 & _ & _ & _ & _ & Ha4 & Hm4).
  fold w4 in Hso4, Hi4, Ha4, Hm4.
  assert (length (intervals w3) = S (S h)) as Hlen3.
  { rewrite Hi3, length_app. cbn. subst h. lia. }
  split; apply samples_true.
  - exists (mkInterval true 200 false). rewrite Hi4, Hm4, Hm3.
    split; [|done]. rewrite lookup_app_l by lia.
    rewrite Hi3. by apply list_lookup_middle.
  - exists (mkInterval true 200 false). rewrite Hi4, Hm4, Hm3.
    split; [|done]. by apply list_lookup_middle.
Qed.

Lemma rejoin_leaves_interval_running_witness :
  let w := onError (connected_manager "a" "alice" "a") in
  let w1 := (joinDiscussion "d1" (Some [mic]) GraphBuilt w).2 in
  let w2 := (joinDiscussion "d2" (Some [mic]) GraphBuilt w1).2 in
  let w3 := leaveDiscussion w2 in
  let w4 := (joinDiscussion "d3" (Some [mic]) GraphBuilt w3).2 in
  intervals w3 = [mkInterval true 200 false; mkInterval false 200 false]
  ∧ samples 0 w4 = true ∧ samples 2 w4 = true.
Proof.
  destruct (rejoin_leaves_interval_running "d1" "d2" "d3" [mic] [mic] [mic]
              (onError (connected_manager "a" "alice" "a"))
              (mk_is_Some _ _ eq_refl) eq_refl)
    as (_ & _ & _ & _ & _ & H6); [discriminate|].
  split; [reflexivity|]. exact (H6 eq_refl).
Defined.

(** ** Losing the connection *)

Lemma cleanupPeerConnections_all_closed w :
  links_ok w → all_closed (cleanupPeerConnections w).
Proof.
  intros [HI _] pc c. rewrite cleanupPeerConnections_eq. world_simpl.
  rewrite alter_all_lookup by done. case_decide as Hin.
  - destruct (pcs w !! pc); [|done]. by intros [= <-].
  - intros Hc.
    assert (pc_signaling c ≠ Closed → False) as Hopen.
    { intros Hopen. destruct Hin. apply elem_of_Object_values.
      exists (pc_remote c). by apply HI. }
    destruct (pc_signaling c); try done; by destruct Hopen.
Qed.

(** X10: when the socket disconnects, the service is marked as not
    connected, every stored link is closed, in the order of [Object.keys],
    and removed and, in every world the service can be in, no connection
    is left open. The capture and the detector
    are not touched: the local stream, its tracks, the discussion
    identifier and the intervals are as before, and every interval that
    read frames before still does. *)
Theorem disconnect_closes_links_keeps_capture Math_log10 w :
  reachable Math_log10 w →
  let w' := on_disconnect w in
  connected w' = false
  ∧ socket_id (socket w') = None
  ∧ peerConnections w' = ∅
  ∧ all_closed w'
  ∧ new_effects w w' = PcClose <$> Object_values (peerConnections w)
  ∧ localStream w' = localStream w
  ∧ tracks w' = tracks w
  ∧ discussionId w' = discussionId w
  ∧ intervals w' = intervals w
  ∧ voiceActivityDetectionInterval w' = voiceActivityDetectionInterval w
  ∧ ∀ h, samples h w' = samples h w.
Proof.
  intros Hr w'. subst w'. unfold on_disconnect. cbv zeta.
  split; [by rewrite cleanupPeerConnections_eq|].
  split; [rewrite cleanupPeerConnections_eq; world_simpl; by destruct (socket w)|].
  split; [by rewrite cleanupPeerConnections_eq|].
  split.
  { apply cleanupPeerConnections_all_closed.
    by apply (links_ok_ext w), (links_ok_reachable Math_log10). }
  rewrite cleanupPeerConnections_eq. world_simpl.
  split; [by apply new_effects_app|].
  repeat (split; [done|]).
  intros h. unfold samples. world_simpl.
  destruct (intervals w !! h); [|done]. by destruct (socket w).
Qed.

Lemma disconnect_closes_links_keeps_capture_witness :
  let w :=
    run log10_reference [UserJoined "c" "carol"; UserJoined "7" "dave"]
      joined_d1 in
  let w' := on_disconnect w in
  connected w' = false ∧ peerConnections w' = ∅
  ∧ pcs w'
    = [mkPc "b" [0] Closed; mkPc "c" [0] Closed; mkPc "7" [0] Closed]
  ∧ new_effects w w' = [PcClose 2; PcClose 0; PcClose 1]
  ∧ samples 0 w' = true.
Proof.
  destruct (disconnect_closes_links_keeps_capture log10_reference _
              (reachable_run log10_reference
                 [UserJoined "c" "carol"; UserJoined "7" "dave"]
                 joined_d1 joined_d1_reachable))
    as (H1 & _ & H3 & _ & H5 & _ & _ & _ & _ & _ & H11).
  split; [exact H1|]. split; [exact H3|].
  split; [vm_compute; reflexivity|].
  split; [rewrite H5; vm_compute; reflexivity|].
  rewrite H11. vm_compute. reflexivity.
Defined.

(** X11: after [cleanup] there is no socket: [joinDiscussion] throws,
    [leaveDiscussion] and a second [cleanup] change nothing. In every
    world the service can be in, if a discussion was joined or the socket
    was connected, no link is stored and no connection is open
    afterwards. *)
Theorem cleanup_final Math_log10 w :
  reachable Math_log10 w →
  let w' := cleanup w in
  socket w' = None
  ∧ (∀ d gum g,
       joinDiscussion d gum g w' = (Thrown "Audio service not connected", w'))
  ∧ leaveDiscussion w' = w'
  ∧ cleanup w' = w'
  ∧ (joined w = true ∨ connected w = true →
       peerConnections w' = ∅ ∧ all_closed w').
Proof.
  intros Hr w'.
  assert (socket w' = None) as Hnone.
  { subst w'. unfold cleanup. cbv zeta.
    by destruct (socket (leaveDiscussion w)) eqn:Hso. }
  assert (leaveDiscussion w' = w') as Hleave.
  { unfold leaveDiscussion. by rewrite Hnone. }
  split; [done|]. split.
  { intros d gum g. unfold joinDiscussion. by rewrite Hnone. }
  split; [done|]. split.
  { unfold cleanup. cbv zeta. by rewrite Hleave, Hnone. }
  intros Hjc.
  pose proof (links_ok_reachable _ _ Hr) as Hlinks.
  pose proof (connected_ok_reachable _ _ Hr) as Hconn.
  destruct (joined w) eqn:Hj.
  - (* the leave has emptied the links *)
    pose proof Hj as (Hso & d & Hd & Hne)%joined_true.
    pose proof (leaveDiscussion_joined w d Hso Hd Hne) as Heq.
    assert (peerConnections (leaveDiscussion w) = ∅
            ∧ all_closed (leaveDiscussion w)
            ∧ is_Some (socket (leaveDiscussion w))) as (Hp & Hc & [so Hso']).
    { rewrite Heq. world_simpl. split; [done|]. split; [|done].
      intros pc c. world_simpl.
      pose proof (cleanupPeerConnections_all_closed w Hlinks pc c) as Hcl.
      rewrite cleanupPeerConnections_eq in Hcl. by world_simpl. }
    subst w'. unfold cleanup. cbv zeta. rewrite Hso'.
    unfold socket_disconnect, on_disconnect. cbv zeta.
    destruct (socket_id (socket (emit SocketDisconnect (leaveDiscussion w)))).
    + rewrite cleanupPeerConnections_eq. world_simpl. rewrite Hp.
      split; [done|]. intros pc c. world_simpl.
      rewrite Object_values_empty. apply Hc.
    + world_simpl. done.
  - destruct Hjc as [|Hc]; [done|].
    destruct (Hconn Hc) as [sid Hsid].
    assert (leaveDiscussion w = w) as Hid.
    { unfold joined in Hj. unfold leaveDiscussion.
      destruct (socket w); [|done].
      rewrite bool_decide_eq_true_2 in Hj by eauto. cbn [andb] in Hj.
      by rewrite Hj. }
    subst w'. unfold cleanup. cbv zeta. rewrite Hid.
    destruct (socket w) as [so|] eqn:Hso; [|done].
    unfold socket_disconnect. cbv zeta. world_simpl. rewrite Hso.
    cbn [socket_id] in *. rewrite Hsid.
    unfold on_disconnect. cbv zeta.
    split; [by rewrite cleanupPeerConnections_eq|].
    apply cleanupPeerConnections_all_closed. by apply (links_ok_ext w).
Qed.

Lemma cleanup_final_witness :
  let w' := cleanup joined_d1 in
  socket w' = None ∧ cleanup w' = w' ∧ peerConnections w' = ∅
  ∧ pcs w' = [mkPc "b" [0] Closed].
Proof.
  destruct (cleanup_final log10_reference joined_d1 joined_d1_reachable)
    as (H1 & _ & _ & H4 & H5).
  split; [exact H1|]. split; [exact H4|].
  split; [exact (proj1 (H5 (or_introl eq_refl)))|reflexivity].
Defined.

(** ** The microphone flag *)

Lemma microphone_granted_ext w w' :
  microphoneAccessGranted w' = microphoneAccessGranted w →
  microphone_granted w → microphone_granted w'.
Proof. unfold microphone_granted. by intros ->. Qed.

Ltac granted_special :=
  idtac;
  lazymatch goal with
  | |- microphone_granted (set_microphoneAccessGranted true _) => reflexivity
  end.

Lemma microphone_granted_step Math_log10 e w :
  microphone_granted w → microphone_granted (step Math_log10 e w).
Proof.
  intros Hw. destruct e; cbn [step];
    frame_solve microphone_granted_ext granted_special.
Qed.

(** X12: once a capture has succeeded, [isMicrophoneAccessGranted] stays
    [true] whatever happens afterwards: leaving, cleaning up, a later
    refused capture or a new [initialize] do not reset it. *)
Theorem microphone_granted_stays Math_log10 es w :
  isMicrophoneAccessGranted w = true →
  isMicrophoneAccessGranted (run Math_log10 es w) = true.
Proof.
  revert w. induction es as [|e es IH]; intros w Hw; [done|].
  cbn [run foldl]. apply IH. by apply microphone_granted_step.
Qed.

Lemma microphone_granted_stays_witness :
  isMicrophoneAccessGranted
    (run log10_reference
       [LeaveDiscussion; JoinDiscussion "d2" None GraphBuilt; Cleanup;
        Initialize "token" "a" "alice"] joined_d1) = true.
Proof.
  apply (microphone_granted_stays log10_reference
           [LeaveDiscussion; JoinDiscussion "d2" None GraphBuilt; Cleanup;
            Initialize "token" "a" "alice"] joined_d1).
  reflexivity.
Defined.

(** ** Mute round trips *)

Lemma getAudioTracks_set_enabled b l w w' st :
  tracks w' = alter_all (set_enabled b) l (tracks w) →
  getAudioTracks w' st = getAudioTracks w st.
Proof.
  intros Ht. unfold getAudioTracks. apply list_filter_iff. intros t.
  rewrite Ht, alter_all_lookup by done.
  case_decide; [|done]. by destruct (tracks w !! t).
Qed.

(** X13: [setMute] is idempotent: asking again for the mute state the
    service is in changes nothing, and returns that state. *)
Theorem setMute_idempotent muted w :
  let w' := (setMute muted w).2 in
  setMute muted w' = (muted, w').
Proof.
  intros w'.
  assert (isMuted w' = muted) as Hm.
  { subst w'. unfold setMute.
    destruct (Bool.eqb (isMuted w) muted) eqn:He; cbn [negb snd].
    - by apply eqb_prop.
    - rewrite toggleMute_eq. cbn [snd]. world_simpl.
      apply eqb_false_iff in He. by destruct (isMuted w), muted. }
  unfold setMute at 1. by rewrite Hm, eqb_reflx.
Qed.

(** X14: when every local audio track is enabled exactly when the service
    is not muted, toggling mute twice gives back the very same world. *)
Theorem toggleMute_twice w :
  mute_consistent w →
  toggleMute (toggleMute w).2 = (isMuted w, w).
Proof.
  intros Hw. rewrite (toggleMute_eq w). cbn [snd].
  rewrite toggleMute_eq. world_simpl. rewrite negb_involutive.
  f_equal. world_ext; try done.
  destruct (localStream w) as [st|] eqn:Hst; [|done].
  erewrite getAudioTracks_set_enabled by (world_simpl; reflexivity).
  apply list_eq. intros t. rewrite !alter_all_lookup by done.
  case_decide as Hin; [|done].
  destruct (tracks w !! t) as [tr|] eqn:Htr; [|done]. cbn. f_equal.
  specialize (Hw st t tr Hst Hin Htr). destruct tr. cbn in *. by rewrite Hw.
Qed.

Lemma toggleMute_twice_witness :
  toggleMute (toggleMute joined_d1).2 = (false, joined_d1).
Proof.
  apply (toggleMute_twice joined_d1).
  intros st t tr [= <-] Ht Htr.
  apply list_elem_of_singleton in Ht as ->.
  injection Htr as <-. reflexivity.
Defined.

(** ** Links made while muted *)

(** X15: a connection created (without a throw of the clean-up) while
    the service is muted, or has no local stream, gets no sender at all,
    and neither [toggleMute] nor [setMute] gives it one afterwards:
    un-muting enables the track but the track is not among the senders of
    that link. *)
Theorem muted_link_has_no_senders u w :
  isMuted w = true ∨ localStream w = None →
  get_peerConnection u w ≠ Inherited →
  let pc := length (pcs w) in
  let w1 := (createPeerConnection u w).2 in
  peerConnections w1 !! u = Some pc
  ∧ pc_senders <$> pcs w1 !! pc = Some []
  ∧ pc_senders <$> pcs (toggleMute w1).2 !! pc = Some []
  ∧ ∀ muted, pc_senders <$> pcs (setMute muted w1).2 !! pc = Some [].
Proof.
  intros Hm Hu pc w1.
  assert (new_senders w = []) as Hs.
  { unfold new_senders. destruct Hm as [-> | ->]; [|done].
    by destruct (localStream w). }
  assert (peerConnections w1 !! u = Some pc
          ∧ pc_senders <$> pcs w1 !! pc = Some []) as [Hp Hpc].
  { subst w1 pc. rewrite createPeerConnection_eq by done. cbn [snd].
    world_simpl.
    rewrite lookup_insert_eq, Hs. split; [done|].
    destruct (peerConnections w !! u) as [p|].
    - rewrite <- (length_alter close_pc (pcs w) p) at 1.
      by rewrite list_lookup_middle.
    - by rewrite list_lookup_middle. }
  assert (pcs (toggleMute w1).2 = pcs w1) as Ht.
  { by rewrite toggleMute_eq. }
  split; [done|]. split; [done|]. split; [by rewrite Ht|].
  intros muted. unfold setMute.
  destruct (negb (Bool.eqb (isMuted w1) muted)); [by rewrite Ht|done].
Qed.

Lemma muted_link_has_no_senders_witness :
  let w1 := (createPeerConnection "c" muted_d1).2 in
  peerConnections w1 !! "c" = Some 1
  ∧ pc_senders <$> pcs w1 !! 1 = Some []
  ∧ pc_senders <$> pcs (toggleMute w1).2 !! 1 = Some []
  ∧ enabled <$> tracks (toggleMute w1).2 !! 0 = Some true.
Proof.
  destruct (muted_link_has_no_senders "c" muted_d1 (or_introl eq_refl))
    as (H1 & H2 & H3 & _); [discriminate|].
  split; [exact H1|]. split; [exact H2|]. split; [exact H3|reflexivity].
Defined.

(** ** Mounting the voice chat component *)

Lemma initialize_not_connected Math_log10 token userId username w :
  reachable Math_log10 w →
  connected (initialize token userId username w) = false.
Proof.
  intros Hr. pose proof (connected_ok_reachable _ _ Hr) as Hok.
  unfold initialize. cbv zeta. world_simpl.
  destruct (socket w) as [so|] eqn:Hso.
  - by apply socket_disconnect_connected.
  - destruct (connected w) eqn:Hcw; [|done].
    destruct (Hok Hcw) as [sid Hsid]. by rewrite Hso in Hsid.
Qed.

Lemma mountAudioChat_eq Math_log10 token userId username d gum g w :
  reachable Math_log10 w →
  mountAudioChat token userId username d gum g w
  = (Some "Failed to join voice chat: Audio service not connected",
     onSpeakingChange (onUserLeft (onUserJoined (onError
       (onConnected (initialize token userId username w)))))).
Proof.
  intros Hr.
  pose proof (initialize_not_connected _ token userId username w Hr) as Hc.
  unfold mountAudioChat, connectToVoiceChat, joinDiscussion. cbv zeta.
  unfold onSpeakingChange, onUserLeft, onUserJoined, onError, onConnected.
  world_simpl. rewrite Hc.
  by destruct (socket (initialize token userId username w)).
Qed.

(** X16: in every world the service can be in, the join at mount time
    fails: [initialize] leaves the service not connected until the
    ['connect'] event arrives, so the [joinDiscussion] that follows it in
    the same turn throws, the component shows "Failed to join voice chat:
    Audio service not connected", and neither a discussion identifier is
    stored nor the microphone asked for. *)
Theorem mount_join_always_throws Math_log10 token userId username d gum g w :
  reachable Math_log10 w →
  let w0 := initialize token userId username w in
  let w' := (mountAudioChat token userId username d gum g w).2 in
  connected w0 = false
  ∧ (mountAudioChat token userId username d gum g w).1
    = Some "Failed to join voice chat: Audio service not connected"
  ∧ discussionId w' = discussionId w
  ∧ new_effects w0 w' = [].
Proof.
  intros Hr w0 w'.
  assert (discussionId w0 = discussionId w) as Hd.
  { subst w0. unfold initialize, socket_disconnect, on_disconnect. cbv zeta.
    world_simpl. destruct (socket w); [|done]. world_simpl.
    destruct (socket_id _); [|done]. by rewrite cleanupPeerConnections_eq. }
  split; [by apply (initialize_not_connected Math_log10)|].
  subst w'. rewrite (mountAudioChat_eq Math_log10) by done. cbn [fst snd].
  split; [done|]. split; [done|].
  apply new_effects_app. by rewrite app_nil_r.
Qed.

Lemma mount_join_always_throws_witness :
  (mountAudioChat "token" "a" "alice" "d2" (Some [mic]) GraphBuilt joined_d1).1
  = Some "Failed to join voice chat: Audio service not connected".
Proof.
  exact (proj1 (proj2 (mount_join_always_throws log10_reference "token" "a"
                         "alice" "d2" (Some [mic]) GraphBuilt joined_d1
                         joined_d1_reachable))).
Defined.

(** X17: the retry works once the socket is connected: after the mount
    and the ['connect'] event the service is connected, the local user is
    in [users] as not speaking and the connected callback was called; a
    [retryConnection] whose capture succeeds then shows no error and the
    join message is sent. *)
Theorem retry_after_connect Math_log10 token userId username d gum g sid d' ts g' w :
  reachable Math_log10 w →
  let w1 := (mountAudioChat token userId username d gum g w).2 in
  let w2 := on_connect sid w1 in
  let w3 := (connectToVoiceChat d' (Some ts) g' w2).2 in
  connected w2 = true
  ∧ socket_id (socket w2) = Some sid
  ∧ users w2 !! userId = Some (mkAudioUser userId username None None false)
  ∧ new_effects w1 w2 = [CallOnConnected]
  ∧ (connectToVoiceChat d' (Some ts) g' w2).1 = None
  ∧ discussionId w3 = Some d'
  ∧ SocketEmit (JoinDiscussionMsg d') ∈ new_effects w2 w3.
Proof.
  intros Hr w1 w2 w3.
  assert (w1 = onSpeakingChange (onUserLeft (onUserJoined (onError
                 (onConnected (initialize token userId username w))))))
    as Hw1.
  { subst w1. by rewrite (mountAudioChat_eq Math_log10). }
  assert (connected w2 = true ∧ socket w2 = Some (mkSocket (Some sid))
          ∧ users w2 !! userId = Some (mkAudioUser userId username None None false)
          ∧ new_effects w1 w2 = [CallOnConnected]) as (Hc & Hso & Hu & He).
  { subst w2. rewrite Hw1.
    unfold on_connect, onSpeakingChange, onUserLeft, onUserJoined, onError,
      onConnected, initialize. cbv zeta. world_simpl.
    split; [done|]. split; [done|]. split; [apply lookup_insert_eq|].
    by apply new_effects_app. }
  assert (is_Some (socket w2)) as Hso' by (by rewrite Hso).
  split; [done|]. split; [by rewrite Hso|]. split; [done|]. split; [done|].
  subst w3. unfold connectToVoiceChat.
  rewrite (joinDiscussion_success_eq d' ts g' w2 Hso' Hc). cbn [fst snd].
  split; [done|]. split; [done|].
  erewrite new_effects_app by (world_simpl; reflexivity).
  apply elem_of_app. left. apply elem_of_cons. right. by left.
Qed.

Lemma retry_after_connect_witness :
  let w1 := (mountAudioChat "token" "a" "alice" "d1" (Some [mic]) GraphBuilt
               new_AudioService).2 in
  let w2 := on_connect "a" w1 in
  connected w2 = true
  ∧ (connectToVoiceChat "d1" (Some [mic]) GraphBuilt w2).1 = None.
Proof.
  destruct (retry_after_connect log10_reference "token" "a" "alice" "d1"
              (Some [mic]) GraphBuilt "a" "d1" [mic] GraphBuilt
              new_AudioService (reachable_new _))
    as (H1 & _ & _ & _ & H5 & _).
  split; [exact H1|exact H5].
Defined.

(** ** The list of users *)

(** X18: in every world the service can be in, every entry of the users
    map is stored under its own [userId], so [getUsers] never returns two
    users with the same [userId], and a user is returned exactly when it is
    stored under its [userId]. *)
Theorem getUsers_distinct Math_log10 w :
  reachable Math_log10 w →
  NoDup (userId <$> getUsers w)
  ∧ ∀ usr, usr ∈ getUsers w ↔ users w !! userId usr = Some usr.
Proof.
  intros Hr. pose proof (users_keyed_reachable _ _ Hr) as Hk.
  unfold getUsers.
  assert (userId <$> (map_to_list (users w)).*2 = (map_to_list (users w)).*1)
    as ->.
  { rewrite <- list_fmap_compose. apply list_fmap_ext.
    intros i [k usr] Hi. cbn. apply Hk.
    apply elem_of_map_to_list. by eapply list_elem_of_lookup_2. }
  split; [apply NoDup_fst_map_to_list|].
  intros usr. split.
  - intros ([k usr'] & -> & Hin%elem_of_map_to_list)%list_elem_of_fmap.
    cbn. by rewrite (Hk k usr' Hin).
  - intros Hin. apply list_elem_of_fmap. exists (userId usr, usr).
    split; [done|]. by apply elem_of_map_to_list.
Qed.

Lemma getUsers_distinct_witness :
  NoDup (userId <$> getUsers joined_d1)
  ∧ mkAudioUser "b" "bob" None None false ∈ getUsers joined_d1.
Proof.
  destruct (getUsers_distinct log10_reference joined_d1 joined_d1_reachable)
    as [H1 H2].
  split; [exact H1|]. apply H2. reflexivity.
Defined.

(** * The voice chat component *)

Lemma existsb_ui_userId uid (prev : list UiParticipant) :
  existsb (λ p, String.eqb (ui_userId p) uid) prev = true
  ↔ uid ∈ ui_userId <$> prev.
Proof.
  rewrite existsb_exists, list_elem_of_fmap. split.
  - intros (p & Hin & Heq%String.eqb_eq). exists p.
    split; [done|]. by apply list_elem_of_In.
  - intros (p & -> & Hin). exists p.
    split; [by apply list_elem_of_In|apply String.eqb_refl].
Qed.

(** X19: the participant list of the component never shows a user twice:
    adding a user to a list without repeated user ids gives such a list
    again, which contains the user and everything that was there; a user
    that is already listed is not added again and its entry is left as it
    is, so adding is idempotent. *)
Theorem addParticipant_keeps_distinct user prev :
  NoDup (ui_userId <$> prev) →
  let l := addParticipant user prev in
  NoDup (ui_userId <$> l)
  ∧ userId user ∈ ui_userId <$> l
  ∧ (∀ p, p ∈ prev → p ∈ l)
  ∧ (userId user ∈ ui_userId <$> prev → l = prev)
  ∧ addParticipant user l = l.
Proof.
  intros Hnd l. subst l.
  destruct (existsb (λ p, String.eqb (ui_userId p) (userId user)) prev) eqn:He.
  - assert (addParticipant user prev = prev) as Heq.
    { unfold addParticipant. by rewrite He. }
    apply existsb_ui_userId in He as Hin. rewrite !Heq. by repeat split.
  - assert (addParticipant user prev
            = prev ++ [mkUiParticipant (userId user) (username user)
                         (isSpeaking user)]) as Heq.
    { unfold addParticipant. by rewrite He. }
    assert (userId user ∉ ui_userId <$> prev) as Hnin.
    { intros Hin%existsb_ui_userId. congruence. }
    assert (userId user ∈ ui_userId <$> addParticipant user prev) as Hin'.
    { rewrite Heq, fmap_app. apply elem_of_app. right. by left. }
    split; [|split; [done|split; [|split; [done|]]]].
    + rewrite Heq, fmap_app. apply NoDup_app. split; [done|]. split.
      * intros x Hx [->|[]%elem_of_nil]%elem_of_cons. done.
      * apply NoDup_singleton.
    + intros p Hp. rewrite Heq. apply elem_of_app. by left.
    + unfold addParticipant at 1.
      by rewrite (proj2 (existsb_ui_userId _ _) Hin').
Qed.

Lemma addParticipant_keeps_distinct_witness :
  let alice := mkAudioUser "a" "alice" None None false in
  let bob := mkAudioUser "b" "bob" None None true in
  addParticipant bob (addParticipant alice [])
  = [mkUiParticipant "a" "alice" false; mkUiParticipant "b" "bob" true]
  ∧ NoDup (ui_userId <$> addParticipant bob (addParticipant alice []))
  ∧ addParticipant bob (addParticipant bob (addParticipant alice []))
    = addParticipant bob (addParticipant alice []).
Proof.
  destruct (addParticipant_keeps_distinct
              (mkAudioUser "b" "bob" None None true)
              (addParticipant (mkAudioUser "a" "alice" None None false) []))
    as (H1 & _ & _ & _ & H5).
  { apply NoDup_singleton. }
  split; [reflexivity|]. split; [exact H1|exact H5].
Defined.

(** X20: removing a user from the participant list leaves no entry with
    its user id and keeps the other entries in their order; removing a
    user right after it was added to a list that did not have it gives
    back the list. *)
Theorem removeParticipant_addParticipant user uid prev :
  (uid ∉ ui_userId <$> removeParticipant uid prev)
  ∧ (∀ p, p ∈ removeParticipant uid prev ↔ p ∈ prev ∧ ui_userId p ≠ uid)
  ∧ (uid ∉ ui_userId <$> prev → removeParticipant uid prev = prev)
  ∧ (userId user ∉ ui_userId <$> prev →
       removeParticipant (userId user) (addParticipant user prev) = prev).
Proof.
  assert (∀ l p, p ∈ removeParticipant uid l ↔ p ∈ l ∧ ui_userId p ≠ uid)
    as Hmem.
  { intros l p. unfold removeParticipant.
    rewrite !list_elem_of_In, filter_In, negb_true_iff, String.eqb_neq.
    done. }
  assert (∀ u l, u ∉ ui_userId <$> l → removeParticipant u l = l) as Hid.
  { intros u l. unfold removeParticipant.
    induction l as [|p l IH]; [done|]. rewrite fmap_cons, not_elem_of_cons.
    intros [Hne Hnin]. cbn.
    rewrite (proj2 (String.eqb_neq _ _)) by done. cbn. by rewrite IH. }
  split; [|split; [done|split; [apply Hid|]]].
  - intros (p & Heq & [_ Hne]%Hmem)%list_elem_of_fmap. done.
  - intros Hnin. unfold addParticipant.
    destruct (existsb _ prev) eqn:He.
    { apply existsb_ui_userId in He. done. }
    unfold removeParticipant. rewrite List.filter_app. cbn.
    rewrite String.eqb_refl. cbn. rewrite app_nil_r. by apply Hid.
Qed.

Lemma removeParticipant_addParticipant_witness :
  removeParticipant "b"
    (addParticipant (mkAudioUser "b" "bob" None None true)
       [mkUiParticipant "a" "alice" false])
  = [mkUiParticipant "a" "alice" false].
Proof.
  destruct (removeParticipant_addParticipant
              (mkAudioUser "b" "bob" None None true) "b"
              [mkUiParticipant "a" "alice" false]) as (_ & _ & _ & H).
  apply H. apply not_elem_of_cons. split; [discriminate|apply not_elem_of_nil].
Defined.

(** X21: a speaking change for a user sets the flag of the entries with
    that user id and touches nothing else: the user ids and names of the
    list, in their order, are the same, entries of other users are the
    same, and a change for a user that is not listed leaves the list as
    it is. *)
Theorem setParticipantSpeaking_flags uid speaking prev :
  let l := setParticipantSpeaking uid speaking prev in
  ui_userId <$> l = ui_userId <$> prev
  ∧ ui_username <$> l = ui_username <$> prev
  ∧ (∀ i p, prev !! i = Some p →
       l !! i = Some (if String.eqb (ui_userId p) uid
                      then mkUiParticipant (ui_userId p) (ui_username p) speaking
                      else p))
  ∧ (uid ∉ ui_userId <$> prev → l = prev)
  ∧ setParticipantSpeaking uid speaking l = l.
Proof.
  intros l. subst l. unfold setParticipantSpeaking.
  split; [|split; [|split; [|split]]].
  - induction prev as [|p prev IH]; [done|]. cbn. rewrite IH. f_equal.
    by destruct (String.eqb _ _).
  - induction prev as [|p prev IH]; [done|]. cbn. rewrite IH. f_equal.
    by destruct (String.eqb _ _).
  - intros i p Hi.
    change (List.map ?f prev) with (f <$> prev).
    by rewrite list_lookup_fmap, Hi.
  - induction prev as [|p prev IH]; [done|]. rewrite fmap_cons, not_elem_of_cons.
    intros [Hne Hnin]. cbn.
    rewrite (proj2 (String.eqb_neq _ _)) by done. by rewrite IH.
  - induction prev as [|p prev IH]; [done|]. cbn. rewrite IH. f_equal.
    destruct (String.eqb (ui_userId p) uid) eqn:He; cbn; by rewrite He.
Qed.

Lemma setParticipantSpeaking_flags_witness :
  setParticipantSpeaking "b" true [mkUiParticipant "a" "alice" false]
  = [mkUiParticipant "a" "alice" false].
Proof.
  destruct (setParticipantSpeaking_flags "b" true
              [mkUiParticipant "a" "alice" false]) as (_ & _ & _ & H & _).
  apply H. apply not_elem_of_cons. split; [discriminate|apply not_elem_of_nil].
Defined.

(** * The authorization header *)

Lemma js_split_no_sep sep s :
  sep ∉ list_ascii_of_string s → js_split sep s = [s].
Proof.
  induction s as [|c s IH]; [done|]. cbn [list_ascii_of_string js_split].
  rewrite not_elem_of_cons. intros [Hne Hnin].
  rewrite (proj2 (Ascii.eqb_neq _ _)) by done. by rewrite IH.
Qed.

Lemma js_split_nonempty sep s : is_Some (js_split sep s !! 0).
Proof.
  destruct s as [|c s]; cbn; [eauto|].
  destruct (Ascii.eqb c sep); cbn; [eauto|].
  destruct (js_split sep s); cbn; eauto.
Qed.

(** X22: the token the request interceptor writes into the authorization
    header is the token [getTokenFromRequest] reads from it, provided it is
    not empty and contains no space; in general what is read is the part
    of the token before its first space. Without a header, or with a
    header that does not begin with "Bearer ", nothing is read. *)
Theorem bearer_round_trip token authorization :
  (token ≠ "" → " "%char ∉ list_ascii_of_string token →
     getTokenFromRequest (request_interceptor (Some token) authorization)
     = Some token)
  ∧ getTokenFromRequest (Some ("Bearer " ++ token)%string)
    = js_split " " token !! 0
  ∧ getTokenFromRequest None = None
  ∧ (String.prefix "Bearer " token = false →
       getTokenFromRequest (Some token) = None)
  ∧ request_interceptor None authorization = authorization
  ∧ request_interceptor (Some "") authorization = authorization.
Proof.
  assert (getTokenFromRequest (Some ("Bearer " ++ token)%string)
          = js_split " " token !! 0) as Hread.
  { change ("Bearer " ++ token)%string
      with (String "B" (String "e" (String "a" (String "r" (String "e"
             (String "r" (String " " token))))))).
    unfold getTokenFromRequest. cbn.
    assert (String.prefix "" token = true) as -> by (by destruct token).
    done. }
  split; [|split; [done|split; [done|split; [|done]]]].
  - intros Hne Hsp. unfold request_interceptor.
    rewrite (proj2 (truthy_Some token) Hne), Hread.
    by rewrite js_split_no_sep.
  - intros Hp. unfold getTokenFromRequest. by rewrite Hp, andb_false_r.
Qed.

Lemma bearer_round_trip_witness :
  getTokenFromRequest (request_interceptor (Some "eyJh.eyJp.SflK") None)
  = Some "eyJh.eyJp.SflK".
Proof.
  apply (proj1 (bearer_round_trip "eyJh.eyJp.SflK" None)); [discriminate|].
  vm_compute. intros H. repeat (apply elem_of_cons in H as [H|H]; [discriminate|]).
  by apply elem_of_nil in H.
Defined.

(** * The local speaking state *)

(** X23: the detector looks the local user up in [users] under the id of
    the socket, not under the [userId] given to [initialize]. When no
    entry is stored under the socket id, a firing changes no entry of
    [users] and never calls the speaking-changed callback, whatever it
    reads; it still sends its speaking messages. *)
Theorem local_speaking_needs_entry_under_socket_id Math_log10 h frame w :
  (∀ sid, socket_id (socket w) = Some sid → users w !! sid = None) →
  let w' := tick Math_log10 h frame w in
  users w' = users w
  ∧ speaking_callbacks (new_effects w w') = []
  ∧ (∀ iv, intervals w !! h = Some iv → samples h w = true →
       speaking_messages (new_effects w w')
       = if Bool.eqb (computeSpeaking Math_log10 frame) (lastSpeakingState iv)
         then []
         else if truthy (discussionId w)
              then [computeSpeaking Math_log10 frame] else []).
Proof.
  intros Hnone w'. subst w'.
  destruct (samples h w) eqn:Hs.
  - pose proof Hs as (iv & Hiv & Hact & [an Han] & [so Hso] & Hm)%samples_true.
    destruct (tick_sampled Math_log10 h frame w iv Hiv Hs) as (Ht & _).
    rewrite (new_effects_app _ _ _ Ht).
    assert (match socket_id (socket w) with
            | Some u =>
                match users w !! u with
                | Some _ =>
                    if onSpeakingChangeCallback w
                    then [CallOnSpeakingChange u (computeSpeaking Math_log10 frame)]
                    else []
                | None => []
                end
            | None => []
            end = []) as Hcb.
    { destruct (socket_id (socket w)) as [sid|] eqn:Hsid; [|done].
      by rewrite (Hnone sid). }
    split; [|split].
    + unfold tick. rewrite Hiv, Hact, Han, Hso, Hm. cbn [negb].
      destruct (negb (Bool.eqb _ _)); [|done].
      rewrite Hso in Hnone. cbn [socket_id] in Hnone.
      destruct (id so) as [sid|] eqn:Hid.
      * specialize (Hnone sid eq_refl).
        world_simpl.
        destruct (discussionId w) as [[|c d]|]; unfold truthy; world_simpl;
          by rewrite Hnone.
      * world_simpl.
        by destruct (discussionId w) as [[|c d]|]; unfold truthy; world_simpl.
    + unfold sample_effects, speaking_callbacks. rewrite Hcb, app_nil_r.
      destruct (Bool.eqb _ _); [done|].
      by destruct (discussionId w) as [[|c d]|].
    + intros iv' Hiv' _. rewrite Hiv in Hiv'. injection Hiv' as <-.
      apply speaking_messages_sample_effects.
  - rewrite tick_not_sampled, new_effects_refl by done.
    split; [done|]. split; [done|]. intros iv _ Hs'. congruence.
Qed.

Lemma local_speaking_needs_entry_under_socket_id_witness :
  let w := (joinDiscussion "d1" (Some [mic]) GraphBuilt
              (onSpeakingChange (connected_manager "z" "alice" "a"))).2 in
  let w' := tick log10_reference 0 loud_frame w in
  users w' = users w
  ∧ new_effects w w'
    = [GetByteFrequencyData; SocketEmit (SpeakingMsg "d1" true)].
Proof.
  destruct (local_speaking_needs_entry_under_socket_id log10_reference 0
              loud_frame
              (joinDiscussion "d1" (Some [mic]) GraphBuilt
                 (onSpeakingChange (connected_manager "z" "alice" "a"))).2)
    as (H1 & _).
  { intros sid [= <-]. reflexivity. }
  split; [exact H1|]. vm_compute. reflexivity.
Defined.

(** X25: when an entry is stored under the id of the socket, a reading
    whose state differs from the last state of its detector writes the new
    state into that entry, keeps the rest of the entry and every other
    entry, and calls the speaking-changed callback if one is registered; a
    reading that computes the last state again changes no entry and calls
    nothing. *)
Theorem local_speaking_written Math_log10 h frame w iv sid usr :
  intervals w !! h = Some iv → samples h w = true →
  socket_id (socket w) = Some sid → users w !! sid = Some usr →
  let b := computeSpeaking Math_log10 frame in
  let w' := tick Math_log10 h frame w in
  (b ≠ lastSpeakingState iv →
     users w' !! sid
     = Some (mkAudioUser (userId usr) (username usr) (stream usr)
               (audioTrack usr) b)
     ∧ (∀ u, u ≠ sid → users w' !! u = users w !! u)
     ∧ speaking_callbacks (new_effects w w')
       = if onSpeakingChangeCallback w then [b] else [])
  ∧ (b = lastSpeakingState iv →
       users w' = users w ∧ speaking_callbacks (new_effects w w') = []).
Proof.
  intros Hiv Hs Hsid Husr b w'. subst w'.
  destruct (tick_sampled Math_log10 h frame w iv Hiv Hs) as (Ht & _).
  rewrite (new_effects_app _ _ _ Ht). fold b.
  apply samples_true in Hs as (iv0 & Hiv0 & Hact & [an Han] & [so Hso] & Hm).
  rewrite Hiv in Hiv0. injection Hiv0 as <-.
  rewrite Hso in Hsid. cbn [socket_id] in Hsid.
  unfold tick, sample_effects. rewrite Hiv, Hact, Han, Hso, Hm. cbn [negb].
  fold b. cbn [socket_id]. rewrite Hsid, Husr.
  split.
  - intros Hne. apply eqb_false_iff in Hne. rewrite Hne. cbn [negb].
    world_simpl.
    destruct (discussionId w) as [[|c d]|]; unfold truthy; world_simpl;
      rewrite Husr; world_simpl;
      (destruct (onSpeakingChangeCallback w) eqn:Hc; world_simpl;
       (split; [by rewrite lookup_alter_eq, Husr|]);
       (split; [by intros u Hu; rewrite lookup_alter_ne|]);
       reflexivity).
  - intros Heq. rewrite Heq, eqb_reflx. cbn [negb]. by split.
Qed.

Lemma local_speaking_written_witness :
  let w := onSpeakingChange joined_d1 in
  let w' := tick log10_reference 0 loud_frame w in
  users w' !! "a" = Some (mkAudioUser "a" "alice" None None true)
  ∧ speaking_callbacks (new_effects w w') = [true].
Proof.
  destruct (local_speaking_written log10_reference 0 loud_frame
              (onSpeakingChange joined_d1) (mkInterval true 200 false)
              "a" (mkAudioUser "a" "alice" None None false)
              eq_refl eq_refl eq_refl eq_refl) as [H _].
  destruct H as (H1 & _ & H3); [vm_compute; discriminate|].
  split; [exact H1|exact H3].
Defined.
